(** * sensorguard: typed nullity algebra, fusion, hysteresis, fault
      aggregation and alert confirmation

    A shallow embedding of the core of the [backend] package:
    - [engine/tna.py]            -> [Module Tna]
    - [engine/sensor_tna.py]     -> [Module SensorTna]
    - [engine/fusion.py]         -> [Module Fusion]
    - [engine/sensor_groups.py]  -> [Module SensorGroups]
    - [engine/window_policy.py]  -> [Module WindowPolicy]
    - [fault_aggregator.py]      -> [Module FaultAggregator]
    - [alert_engine.py]          -> [Module AlertEngine]

    Further properties of the same code follow the embedding, in
    [TnaLaws], [FusionFacts], [ClassifyFacts], [GroupFacts],
    [WindowFacts], [AggregatorFacts] and [AlertFacts].

    Conventions of the embedding.
    - A Python [float] is a binary64 number: Rocq's primitive [float] with
      its IEEE 754 operations, so rounding, signed zeros, infinities and
      NaN behave as they do in CPython.  Equations between algebra
      elements are Leibniz equalities (same class, same number); the
      tolerance of [Real.__eq__] is not used.
    - A function whose body can fall through to a [raise] returns a
      [result]; the [raise] is kept as [Raise].
    - A [dict] or [set] that is only probed is a [gmap] / [gset]; one whose
      iteration order reaches the output is an association list in
      insertion order. *)

From Stdlib Require Import ZArith Floats Uint63 Ascii String DecimalString.
From Stdlib Require Import Sorting.Sorted Sorting.Permutation.
From Stdlib Require DecimalZ DecimalPos.
From stdpp Require Import gmap strings list relations.

Set Warnings "-clear-no-such-hyp".

Open Scope Z_scope.
Open Scope nat_scope.
Open Scope string_scope.
Open Scope list_scope.

(** ** Python values shared by the modules *)

(** The exceptions the modelled code can raise. *)
Inductive exn : Type :=
| TypeError
| ValueError
| OverflowError
| RecursionError.

Inductive result (A : Type) : Type :=
| Ok (a : A)
| Raise (e : exn).
Arguments Ok {A} a.
Arguments Raise {A} e.

#[global] Instance result_ret : MRet result := fun _ a => Ok a.
#[global] Instance result_fmap : FMap result := fun _ _ f m =>
  match m with
  | Ok a => Ok (f a)
  | Raise e => Raise e
  end.
#[global] Instance result_bind : MBind result := fun _ _ k m =>
  match m with
  | Ok a => k a
  | Raise e => Raise e
  end.

(** [for x in xs: acc = f(acc, x)] where [f] may raise. *)
Fixpoint foldM {A B : Type} (f : B -> A -> result B) (xs : list A) (acc : B)
  : result B :=
  match xs with
  | [] => Ok acc
  | x :: rest => acc' ← f acc x; foldM f rest acc'
  end.

(** [[f(x) for x in xs]] where [f] may raise. *)
Fixpoint mapM {A B : Type} (f : A -> result B) (xs : list A) : result (list B) :=
  match xs with
  | [] => Ok []
  | x :: rest => y ← f x; ys ← mapM f rest; Ok (y :: ys)
  end.

Lemma mapM_ok {A B : Type} (f : A -> result B) (xs : list A) :
  (forall x, x ∈ xs -> exists y, f x = Ok y) -> exists ys, mapM f xs = Ok ys.
Proof.
  induction xs as [|x xs IH]; intros Hf; simpl; [eauto|].
  destruct (Hf x) as [y ->]; [left|]. simpl.
  destruct IH as [ys ->]; [intros z Hz; apply Hf; now right|].
  simpl. eauto.
Qed.

Lemma mapM_Forall2 {A B : Type} (f : A -> result B) (xs : list A)
    (ys : list B) :
  mapM f xs = Ok ys -> Forall2 (fun x y => f x = Ok y) xs ys.
Proof.
  revert ys. induction xs as [|x xs IH]; intros ys; simpl.
  - intros [= <-]. constructor.
  - destruct (f x) as [y|e] eqn:Hfx; simpl; [|discriminate].
    destruct (mapM f xs) as [ys'|e] eqn:Hrest; simpl; [|discriminate].
    intros [= <-]. constructor; [exact Hfx | now apply IH].
Qed.

(** A [dict] whose iteration order matters: keys in insertion order. *)
Fixpoint dict_get {V : Type} (d : list (string * V)) (k : string) : option V :=
  match d with
  | [] => None
  | (k', v) :: rest => if String.eqb k' k then Some v else dict_get rest k
  end.

(** [d[k] = v]: an existing key keeps its place. *)
Fixpoint dict_set {V : Type} (d : list (string * V)) (k : string) (v : V)
  : list (string * V) :=
  match d with
  | [] => [(k, v)]
  | (k', v') :: rest =>
      if String.eqb k' k then (k, v) :: rest else (k', v') :: dict_set rest k v
  end.

Section DictFacts.
Context {V : Type}.

Lemma dict_get_set (d : list (string * V)) (k k' : string) (v : V) :
  dict_get (dict_set d k v) k'
  = if String.eqb k k' then Some v else dict_get d k'.
Proof.
  induction d as [|[k0 v0] d IH]; simpl.
  - reflexivity.
  - destruct (String.eqb_spec k0 k) as [->|Hne]; simpl.
    + destruct (String.eqb k k'); reflexivity.
    + rewrite IH. destruct (String.eqb_spec k0 k') as [Heq|Hne'];
        [|reflexivity].
      destruct (String.eqb_spec k k') as [Heq'|Hne']; [|reflexivity].
      congruence.
Qed.

Lemma dict_set_keys (d : list (string * V)) (k k' : string) (v : V) :
  k' ∈ (dict_set d k v).*1 <-> k' = k \/ k' ∈ d.*1.
Proof.
  induction d as [|[k0 v0] d IH]; simpl.
  - rewrite list_elem_of_singleton. set_solver.
  - destruct (String.eqb_spec k0 k) as [->|Hne]; simpl.
    + rewrite !elem_of_cons. tauto.
    + rewrite !elem_of_cons, IH. tauto.
Qed.

Lemma dict_set_NoDup (d : list (string * V)) (k : string) (v : V) :
  NoDup (d.*1) -> NoDup ((dict_set d k v).*1).
Proof.
  induction d as [|[k0 v0] d IH]; simpl; intros Hnd.
  - apply NoDup_singleton.
  - apply NoDup_cons in Hnd as [Hk0 Hnd].
    destruct (String.eqb_spec k0 k) as [->|Hne]; simpl.
    + now apply NoDup_cons.
    + apply NoDup_cons. split; [|now apply IH].
      rewrite dict_set_keys. intros [?|?]; [congruence | contradiction].
Qed.

Lemma dict_get_None (d : list (string * V)) (k : string) :
  dict_get d k = None <-> k ∉ d.*1.
Proof.
  induction d as [|[k0 v0] d IH]; simpl.
  - split; [intros _ Hin; inversion Hin | reflexivity].
  - rewrite not_elem_of_cons.
    destruct (String.eqb_spec k0 k) as [->|Hne].
    + split; [discriminate | intros [? _]; congruence].
    + rewrite IH. split; [intros ?; split; [congruence | assumption] | tauto].
Qed.

End DictFacts.

Lemma prefix_append (x y : string) : String.prefix x (x +:+ y) = true.
Proof. induction x as [|c x IH]; simpl; [now destruct y|].
  destruct (Ascii.ascii_dec c c); [exact IH | congruence]. Qed.

Lemma prefix_append2 (x y z : string) :
  String.prefix (x +:+ y) (x +:+ y +:+ z) = true.
Proof. induction x as [|c x IH]; simpl; [exact (prefix_append y z)|].
  destruct (Ascii.ascii_dec c c); [exact IH | congruence]. Qed.

(** [str(n)] for an integer. *)
Definition str_of_Z (n : Z) : string := NilZero.string_of_int (Z.to_int n).
Definition str_of_nat (n : nat) : string := str_of_Z (Z.of_nat n).

(** [sep.join(parts)] *)
Definition join (sep : string) (parts : list string) : string :=
  String.concat sep parts.

(** [str.upper], [str.lower] and [str.title] on ASCII letters (other
    characters are kept as they are). *)
Definition is_lower_ascii (c : ascii) : bool :=
  let n := nat_of_ascii c in Nat.leb 97 n && Nat.leb n 122.
Definition is_upper_ascii (c : ascii) : bool :=
  let n := nat_of_ascii c in Nat.leb 65 n && Nat.leb n 90.
Definition upper_ascii (c : ascii) : ascii :=
  if is_lower_ascii c then ascii_of_nat (nat_of_ascii c - 32) else c.
Definition lower_ascii (c : ascii) : ascii :=
  if is_upper_ascii c then ascii_of_nat (nat_of_ascii c + 32) else c.

Fixpoint str_map (f : ascii -> ascii) (x : string) : string :=
  match x with
  | EmptyString => EmptyString
  | String c rest => String (f c) (str_map f rest)
  end.

Definition upper (x : string) : string := str_map upper_ascii x.
Definition lower (x : string) : string := str_map lower_ascii x.

Fixpoint title_from (in_word : bool) (x : string) : string :=
  match x with
  | EmptyString => EmptyString
  | String c rest =>
      String (if in_word then lower_ascii c else upper_ascii c)
             (title_from (is_lower_ascii c || is_upper_ascii c) rest)
  end.

Definition title (x : string) : string := title_from false x.

(** [needle in hay] on strings. *)
Fixpoint is_substring (needle hay : string) : bool :=
  String.prefix needle hay
  || match hay with
     | EmptyString => false
     | String _ rest => is_substring needle rest
     end.

(** [hay.count(needle)] for a non-empty [needle]: occurrences that do not
    overlap, from the left; [skip] characters of the last match remain. *)
Fixpoint str_count_from (needle : string) (skip : nat) (hay : string) : nat :=
  match hay with
  | EmptyString => 0
  | String _ rest =>
      match skip with
      | Datatypes.S k => str_count_from needle k rest
      | O =>
          if String.prefix needle hay
          then 1 + str_count_from needle (String.length needle - 1) rest
          else str_count_from needle 0 rest
      end
  end.

Definition str_count (hay needle : string) : nat :=
  str_count_from needle 0 hay.

(** [sorted(l, key=...)] and [l.sort(key=...)]: a stable sort, by the
    order [le] that the key induces. *)
Fixpoint insert_sorted {A : Type} (le : A -> A -> bool) (x : A) (l : list A)
  : list A :=
  match l with
  | [] => [x]
  | y :: rest => if le x y then x :: l else y :: insert_sorted le x rest
  end.

Definition sort_by {A : Type} (le : A -> A -> bool) (l : list A) : list A :=
  foldr (insert_sorted le) [] l.

Section SortFacts.
Context {A : Type} (le : A -> A -> bool).

Lemma insert_sorted_perm (x : A) (l : list A) :
  insert_sorted le x l ≡ₚ x :: l.
Proof.
  induction l as [|y l IH]; simpl; [reflexivity|].
  destruct (le x y); [reflexivity|].
  rewrite IH. apply Permutation_swap.
Qed.

Lemma sort_by_perm (l : list A) : sort_by le l ≡ₚ l.
Proof.
  induction l as [|x l IH]; simpl; [reflexivity|].
  unfold sort_by in *. simpl. rewrite insert_sorted_perm. now rewrite IH.
Qed.

Hypothesis le_total : forall x y, le x y = false -> le y x = true.

Lemma insert_sorted_sorted (x : A) (l : list A) :
  Sorted (fun a b => le a b = true) l ->
  Sorted (fun a b => le a b = true) (insert_sorted le x l).
Proof.
  induction l as [|y l IH]; simpl; intros Hs.
  - repeat constructor.
  - destruct (le x y) eqn:Hxy.
    + constructor; [exact Hs | now constructor].
    + apply Sorted_inv in Hs as [Hs Hhd].
      constructor; [now apply IH|].
      destruct l as [|z l]; simpl.
      * constructor. now apply le_total.
      * destruct (le x z); constructor;
          [now apply le_total | now inversion Hhd].
Qed.

Lemma sort_by_sorted (l : list A) :
  Sorted (fun a b => le a b = true) (sort_by le l).
Proof.
  induction l as [|x l IH]; [constructor|].
  unfold sort_by in *. simpl. now apply insert_sorted_sorted.
Qed.

End SortFacts.

(** [a == 0] and [a != 0] on floats ([-0.0 == 0]; NaN is [!= 0]). *)
Definition feq0 (a : float) : bool := (a =? 0)%float.
Definition fne0 (a : float) : bool := negb (feq0 a).
Arguments feq0 : simpl never.

(** [float(k)] for a count [k] (a list length, below [2^63]). *)
Definition float_of_nat (k : nat) : float :=
  PrimFloat.of_uint63 (Uint63.of_Z (Z.of_nat k)).

(** IEEE 754 addition and multiplication are commutative. *)
Lemma SFadd_comm prec emax x y : SFadd prec emax x y = SFadd prec emax y x.
Proof.
  destruct x as [sx|sx| |sx mx ex], y as [sy|sy| |sy my ey];
    simpl; try reflexivity.
  - destruct sx, sy; reflexivity.
  - destruct sx, sy; reflexivity.
  - rewrite Z.min_comm. f_equal. apply Z.add_comm.
Qed.

Lemma SFmul_comm prec emax x y : SFmul prec emax x y = SFmul prec emax y x.
Proof.
  destruct x as [sx|sx| |sx mx ex], y as [sy|sy| |sy my ey];
    simpl; try reflexivity; try (rewrite xorb_comm; reflexivity).
  rewrite xorb_comm, Pos.mul_comm, Z.add_comm. reflexivity.
Qed.

Lemma float_add_comm (a b : float) : (a + b = b + a)%float.
Proof.
  apply Prim2SF_inj. rewrite !FloatAxioms.add_spec. apply SFadd_comm.
Qed.

Lemma float_mul_comm (a b : float) : (a * b = b * a)%float.
Proof.
  apply Prim2SF_inj. rewrite !FloatAxioms.mul_spec. apply SFmul_comm.
Qed.

(** Counting with a boolean test against filtering with a decidable
    predicate. *)
Section ListFacts.
Context {A : Type}.

Lemma sum_list_ones (l : list A) : sum_list ((fun _ => 1) <$> l) = length l.
Proof. induction l as [|x l IH]; [reflexivity | simpl; f_equal; exact IH]. Qed.

Lemma list_filter_filter (f g : A -> bool) (l : list A) :
  List.filter f (List.filter g l) = List.filter (fun x => g x && f x) l.
Proof.
  induction l as [|x l IH]; [reflexivity|]. simpl.
  destruct (g x); simpl; [destruct (f x)|]; now rewrite IH.
Qed.

Lemma list_filter_reflect (test : A -> bool) (P : A -> Prop)
    `{!forall x, Decision (P x)} (l : list A) :
  (forall x, test x = true <-> P x) ->
  List.filter test l = filter P l.
Proof.
  intros Hiff. induction l as [|x l IH]; [reflexivity|].
  rewrite filter_cons. simpl. rewrite IH.
  destruct (decide (P x)) as [HP|HP]; destruct (test x) eqn:E;
    try reflexivity.
  - apply Hiff in HP. congruence.
  - apply Hiff in E. contradiction.
Qed.

Lemma list_filter_fmap {B : Type} (f : B -> A) (test : A -> bool)
    (l : list B) :
  length (List.filter test (f <$> l))
  = length (List.filter (fun x => test (f x)) l).
Proof.
  induction l as [|x l IH]; [reflexivity|].
  rewrite fmap_cons. cbn [List.filter].
  destruct (test (f x)); cbn [length]; now rewrite IH.
Qed.

Lemma filter_length_Exists (P : A -> Prop) `{!forall x, Decision (P x)}
    (l : list A) :
  length (filter P l) <> 0 <-> Exists P l.
Proof.
  induction l as [|x l IH].
  - split; [intros Hn; now contradiction Hn | intros Hn; inversion Hn].
  - rewrite filter_cons, Exists_cons.
    destruct (decide (P x)) as [HP|HP]; simpl.
    + split; [now left | intros _; lia].
    + rewrite IH. tauto.
Qed.

End ListFacts.

(** ** engine/tna.py *)
Module Tna.

(** The four elements of the algebra: the classes [AbsZero], [MeasZero],
    [ResToken] (singletons [O_BM], [O_M], [ONE_T]) and [Real(v)]. *)
Inductive S : Type :=
| AbsZero
| MeasZero
| ResToken
| Real (v : float).

Definition O_BM : S := AbsZero.
Definition O_M : S := MeasZero.
Definition ONE_T : S := ResToken.

(** [isinstance(x, C)] for each class. *)
Definition is_AbsZero (x : S) : bool :=
  match x with AbsZero => true | _ => false end.
Definition is_MeasZero (x : S) : bool :=
  match x with MeasZero => true | _ => false end.
Definition is_ResToken (x : S) : bool :=
  match x with ResToken => true | _ => false end.
Definition is_Real (x : S) : bool :=
  match x with Real _ => true | _ => false end.
(** [isinstance(x, Real) and x.v == 0] *)
Definition is_Real_eq0 (x : S) : bool :=
  match x with Real v => feq0 v | _ => false end.
(** [isinstance(x, Real) and x.v != 0] *)
Definition is_Real_ne0 (x : S) : bool :=
  match x with Real v => fne0 v | _ => false end.

(** Extended addition. *)
Definition add (x y : S) : result S :=
  if is_ResToken x || is_ResToken y then Ok ONE_T
  else if is_AbsZero x then Ok y
  else if is_AbsZero y then Ok x
  else if is_MeasZero x && is_MeasZero y then Ok O_M
  else if is_MeasZero x && is_Real y then Ok y
  else if is_Real x && is_MeasZero y then Ok x
  else
    match x, y with
    | Real a, Real b => Ok (Real (a + b)%float)
    | _, _ => Raise TypeError
    end.

(** Extended multiplication. *)
Definition mul (x y : S) : result S :=
  if is_AbsZero x || is_AbsZero y then Ok O_BM
  else if is_Real_eq0 x && is_MeasZero y then Ok O_BM
  else if is_Real_eq0 y && is_MeasZero x then Ok O_BM
  else if is_ResToken x then Ok y
  else if is_ResToken y then Ok x
  else if is_MeasZero x && is_MeasZero y then Ok O_M
  else if is_MeasZero x && is_Real_ne0 y then Ok O_M
  else if is_MeasZero y && is_Real_ne0 x then Ok O_M
  else
    match x, y with
    | Real a, Real b => Ok (Real (a * b)%float)
    | _, _ => Raise TypeError
    end.

(** The block under [if isinstance(y, MeasZero):] in [div]; [None] when
    none of its four tests holds and control falls out of the block. *)
Definition div_by_MeasZero (x : S) : option S :=
  if is_Real_eq0 x then Some O_BM
  else if is_AbsZero x then Some O_BM
  else if is_Real_ne0 x then Some O_M
  else if is_ResToken x then Some O_M
  else None.

(** The tests of [div] below the division-by-[MeasZero] block. *)
Definition div_tail (x y : S) : result S :=
  if is_MeasZero x && is_Real y then
    Ok (if is_Real_ne0 y then O_M else O_BM)
  else if is_ResToken x && is_Real y then
    Ok (if is_Real_ne0 y then ONE_T else O_BM)
  else
    match x, y with
    | Real a, Real b =>
        if fne0 b then Ok (Real (a / b)%float)
        else if feq0 b then Ok O_M
        else Raise TypeError
    | _, _ => if is_AbsZero x then Ok O_BM else Raise TypeError
    end.

(** Extended division. *)
Definition div (x y : S) : result S :=
  if is_AbsZero y then Ok O_BM
  else if is_ResToken y then Ok x
  else if is_MeasZero x && is_MeasZero y then Ok ONE_T
  else if is_Real_eq0 x && is_Real_eq0 y then Ok O_BM
  else if is_MeasZero y then
    match div_by_MeasZero x with
    | Some r => Ok r
    | None => div_tail x y
    end
  else div_tail x y.

(** [COUNT_S]: [sum(1 for x in M if not isinstance(x, AbsZero))]. *)
Definition count_s (M : list S) : nat :=
  sum_list ((fun _ => 1) <$> List.filter (fun x => negb (is_AbsZero x)) M).

(** [SUM_S]. *)
Definition sum_s (M : list S) : result S :=
  let eligible := List.filter (fun x => negb (is_AbsZero x)) M in
  match eligible with
  | [] => Ok O_BM
  | first :: rest => foldM add rest first
  end.

(** [AVG_S]. *)
Definition avg_s (M : list S) : result S :=
  let k := count_s M in
  if Nat.eqb k 0 then Ok O_BM
  else s ← sum_s M; div s (Real (float_of_nat k)).

(** *** The algebra as the specification words it *)

(** An element is eligible when it is not [AbsZero]. *)
Definition eligible (x : S) : Prop := x <> AbsZero.

#[global] Instance eligible_dec (x : S) : Decision (eligible x).
Proof. destruct x; [right | left ..]; unfold eligible; congruence. Defined.

#[global] Instance is_AbsZero_dec (x : S) : Decision (x = AbsZero).
Proof. destruct x; [left | right ..]; congruence. Defined.

#[global] Instance is_MeasZero_dec (x : S) : Decision (x = MeasZero).
Proof. destruct x; [right | left | right ..]; congruence. Defined.

(** The laws of extended addition: [ResToken] absorbs, [AbsZero] is the
    identity, two [MeasZero] give [MeasZero], a [MeasZero] next to a [Real]
    gives that [Real], two [Real]s add. *)
Definition oplus (x y : S) : S :=
  match x, y with
  | ResToken, _ => ResToken
  | _, ResToken => ResToken
  | AbsZero, _ => y
  | _, AbsZero => x
  | MeasZero, MeasZero => MeasZero
  | MeasZero, Real _ => y
  | Real _, MeasZero => x
  | Real a, Real b => Real (a + b)%float
  end.

(** The sum of the specification: the left fold of [oplus] over the eligible
    elements, [AbsZero] when there is none. *)
Definition sum_spec (M : list S) : S :=
  match filter eligible M with
  | [] => AbsZero
  | first :: rest => foldl oplus first rest
  end.

(** The payload conditions under which regrouping a sum or a product does
    not change the float that is computed. *)
Definition sum_exact (x y z : S) : Prop :=
  match x, y, z with
  | Real a, Real b, Real c => ((a + b) + c = a + (b + c))%float
  | _, _, _ => True
  end.

Definition product_exact (x y z : S) : Prop :=
  match x, y, z with
  | Real a, Real b, Real c => ((a * b) * c = a * (b * c))%float
  | Real a, Real b, MeasZero
  | MeasZero, Real a, Real b => feq0 (a * b)%float = feq0 a || feq0 b
  | _, _, _ => True
  end.

(** *** Properties *)

Lemma fne0_feq0 (v : float) : fne0 v = negb (feq0 v).
Proof. reflexivity. Qed.

(** Case analysis on every zero test of the goal and the hypotheses. *)
Ltac case_zeros :=
  simpl in *; unfold fne0 in *; simpl in *;
  repeat match goal with H : context [feq0 _] |- _ => revert H end;
  repeat match goal with
         | H : feq0 ?v = _ |- context [feq0 ?v] =>
             rewrite H; simpl; unfold fne0; simpl
         | |- context [feq0 ?v] =>
             destruct (feq0 v) eqn:?; simpl; unfold fne0; simpl
         end;
  intros; try discriminate; try reflexivity.

Lemma add_oplus (x y : S) : add x y = Ok (oplus x y).
Proof. destruct x, y; reflexivity. Qed.

Lemma filter_eligible (M : list S) :
  List.filter (fun x => negb (is_AbsZero x)) M = filter eligible M.
Proof.
  induction M as [|x M IH]; [reflexivity|].
  rewrite filter_cons. simpl. rewrite IH.
  destruct x; reflexivity.
Qed.

Lemma foldM_add (rest : list S) (first : S) :
  foldM add rest first = Ok (foldl oplus first rest).
Proof.
  revert first. induction rest as [|x rest IH]; intros first; [reflexivity|].
  simpl. rewrite add_oplus. simpl. apply IH.
Qed.

Lemma count_s_length (M : list S) : count_s M = length (filter eligible M).
Proof. unfold count_s. now rewrite sum_list_ones, filter_eligible. Qed.

Lemma sum_s_ok (M : list S) : sum_s M = Ok (sum_spec M).
Proof.
  unfold sum_s, sum_spec. rewrite filter_eligible.
  destruct (filter eligible M) as [|first rest]; [reflexivity|].
  apply foldM_add.
Qed.

Lemma mul_ok (x y : S) : exists r, mul x y = Ok r.
Proof. destruct x, y; unfold mul; case_zeros; eauto. Qed.

Lemma div_ok (x y : S) : exists r, div x y = Ok r.
Proof.
  destruct x, y; unfold div, div_tail, div_by_MeasZero; case_zeros; eauto.
Qed.

Lemma avg_s_ok (M : list S) : exists r, avg_s M = Ok r.
Proof.
  unfold avg_s. destruct (Nat.eqb (count_s M) 0); [eauto|].
  rewrite sum_s_ok. simpl. apply div_ok.
Qed.

(** C2. The division table: division by [AbsZero] gives [AbsZero]; division
    by [ResToken] gives the dividend; [MeasZero / MeasZero] is [ResToken];
    zero over zero is [AbsZero]; a non-zero [Real] over [MeasZero] is
    [MeasZero]; [AbsZero / MeasZero] is [AbsZero]; [MeasZero] and [ResToken]
    over a [Real] keep their class when the divisor is not zero and give
    [AbsZero] when it is; [Real / Real] is the float quotient for a non-zero
    divisor and [MeasZero] for a non-zero dividend over zero; [AbsZero] over
    any [Real] is [AbsZero]. *)
Theorem div_table (x : S) (a b v : float) :
  div x AbsZero = Ok AbsZero /\
  div x ResToken = Ok x /\
  div MeasZero MeasZero = Ok ResToken /\
  div (Real 0) (Real 0) = Ok AbsZero /\
  (feq0 a = true -> feq0 b = true -> div (Real a) (Real b) = Ok AbsZero) /\
  (fne0 v = true -> div (Real v) MeasZero = Ok MeasZero) /\
  div AbsZero MeasZero = Ok AbsZero /\
  (fne0 v = true -> div MeasZero (Real v) = Ok MeasZero) /\
  (feq0 v = true -> div MeasZero (Real v) = Ok AbsZero) /\
  (fne0 v = true -> div ResToken (Real v) = Ok ResToken) /\
  (feq0 v = true -> div ResToken (Real v) = Ok AbsZero) /\
  (fne0 b = true -> div (Real a) (Real b) = Ok (Real (a / b)%float)) /\
  (fne0 a = true -> feq0 b = true -> div (Real a) (Real b) = Ok MeasZero) /\
  div AbsZero (Real v) = Ok AbsZero.
Proof.
  repeat apply conj; try reflexivity;
    intros; unfold div, div_tail, div_by_MeasZero; case_zeros.
Qed.

(** The table of [div_table] read at 6/[MeasZero], [MeasZero]/0, 6/3 and
    6/0. *)
Lemma div_table_witness :
  div (Real 6) MeasZero = Ok MeasZero /\
  div MeasZero (Real 0) = Ok AbsZero /\
  div (Real 6) (Real 3) = Ok (Real 2) /\
  div (Real 6) (Real 0) = Ok MeasZero.
Proof.
  destruct (div_table AbsZero 6 3 6)
    as (_ & _ & _ & _ & _ & H1 & _ & _ & _ & _ & _ & H3 & _).
  destruct (div_table AbsZero 6 0 0)
    as (_ & _ & _ & _ & _ & _ & _ & _ & H2 & _ & _ & _ & H4 & _).
  repeat apply conj.
  - apply H1. reflexivity.
  - apply H2. reflexivity.
  - apply H3. reflexivity.
  - apply H4; reflexivity.
Defined.

(** C7. [count_s] counts the elements that are not [AbsZero]; [sum_s] is
    the left fold of the extended addition over those elements in order,
    [AbsZero] when there is none; [avg_s] divides that sum by the count as a
    [Real], and is [AbsZero] for a count of zero.  The average of
    [10, 10, MeasZero] is [20/3], that of [10, 10, AbsZero] is [10]. *)
Theorem aggregates_spec (M : list S) :
  count_s M = length (filter eligible M) /\
  sum_s M = Ok (sum_spec M) /\
  avg_s M = (if decide (count_s M = 0) then Ok AbsZero
             else div (sum_spec M) (Real (float_of_nat (count_s M)))) /\
  avg_s [Real 10; Real 10; MeasZero] = Ok (Real (20 / 3)%float) /\
  avg_s [Real 10; Real 10; AbsZero] = Ok (Real 10).
Proof.
  repeat apply conj; try reflexivity.
  - apply count_s_length.
  - apply sum_s_ok.
  - unfold avg_s. rewrite sum_s_ok.
    destruct (decide (count_s M = 0)) as [E|E].
    + now rewrite E.
    + apply Nat.eqb_neq in E. now rewrite E.
Qed.

(** C10. The three operations are closed and total: on operands of the four
    kinds each returns an element and never reaches its trailing
    [raise TypeError]; and [ResToken / MeasZero] is [MeasZero]. *)
Theorem ops_closed_total (x y : S) :
  (exists r, add x y = Ok r) /\
  (exists r, mul x y = Ok r) /\
  (exists r, div x y = Ok r) /\
  add x y <> Raise TypeError /\
  mul x y <> Raise TypeError /\
  div x y <> Raise TypeError /\
  div ResToken MeasZero = Ok MeasZero.
Proof.
  assert (Ha : exists r, add x y = Ok r) by (rewrite add_oplus; eauto).
  pose proof (mul_ok x y) as Hm.
  pose proof (div_ok x y) as Hd.
  repeat apply conj; try assumption; try reflexivity.
  - destruct Ha as [r ->]. discriminate.
  - destruct Hm as [r ->]. discriminate.
  - destruct Hd as [r ->]. discriminate.
Qed.

(** C8 as stated fails on float payloads.  Rounding: [(1 + 1e16) - 1e16]
    is [0] but [1 + (1e16 - 1e16)] is [1].  Underflow: [2^-600 * 2^-600] is
    [0], so the product with [MeasZero] is [AbsZero] on one side and
    [MeasZero] on the other. *)
Lemma assoc_counterexample :
  (r ← add (Real 1) (Real 1e16); add r (Real (-1e16))) <>
  (r ← add (Real 1e16) (Real (-1e16)); add (Real 1) r) /\
  (r ← mul (Real 0x1p-600) (Real 0x1p-600); mul r MeasZero) <>
  (r ← mul (Real 0x1p-600) MeasZero; mul (Real 0x1p-600) r).
Proof.
  split; intros H.
  - apply (f_equal (fun r => match r with
                             | Ok (Real v) => (v =? 0)%float
                             | _ => false
                             end)) in H.
    vm_compute in H. discriminate.
  - vm_compute in H. discriminate.
Qed.

(** C8, amended.  For all operands, with arbitrary float payloads:
    [AbsZero] is the identity of [add] and [ResToken] that of [mul]; both
    operations are commutative; [add] is associative on every triple whose
    float sum does not depend on the grouping ([sum_exact]: no condition
    unless all three are [Real]s); [mul] is associative on every triple
    whose float products do not depend on the grouping and are zero exactly
    when a factor is ([product_exact]: no condition on a triple with at most
    one [Real]). *)
Theorem add_mul_laws (x y z : S) :
  add x AbsZero = Ok x /\
  mul x ResToken = Ok x /\
  add x y = add y x /\
  mul x y = mul y x /\
  (sum_exact x y z ->
   (r ← add x y; add r z) = (r ← add y z; add x r)) /\
  (product_exact x y z ->
   (r ← mul x y; mul r z) = (r ← mul y z; mul x r)).
Proof.
  repeat apply conj.
  - destruct x; reflexivity.
  - destruct x; unfold mul; case_zeros.
  - destruct x, y; try reflexivity. unfold add; simpl.
    now rewrite float_add_comm.
  - destruct x as [| | |a], y as [| | |b]; unfold mul; case_zeros.
    all: now rewrite float_mul_comm.
  - destruct x, y, z; try reflexivity. unfold add; simpl. now intros ->.
  - destruct x as [| | |a], y as [| | |b], z as [| | |c]; simpl;
      intros H; try rewrite H; unfold mul; case_zeros.
    all: try (rewrite H; reflexivity).
Qed.

(** [add_mul_laws] read at [(1, 2, 3)] for the sums and at
    [(1, 2, MeasZero)] for the products. *)
Lemma add_mul_laws_witness :
  (r ← add (Real 1) (Real 2); add r (Real 3)) =
  (r ← add (Real 2) (Real 3); add (Real 1) r) /\
  (r ← mul (Real 1) (Real 2); mul r MeasZero) =
  (r ← mul (Real 2) MeasZero; mul (Real 1) r).
Proof.
  split.
  - apply (add_mul_laws (Real 1) (Real 2) (Real 3)). reflexivity.
  - apply (add_mul_laws (Real 1) (Real 2) MeasZero). reflexivity.
Defined.

End Tna.

(** ** engine/sensor_tna.py *)
Module SensorTna.

(** Per-sensor configuration for the raw-to-typed conversion. *)
Record SensorConfig : Type := {
  cfg_sensor_id : string;
  noise_floor : float;
  max_valid : float;
  weight : float
}.

(** The dataclass defaults: [noise_floor = 0.0], [max_valid = inf],
    [weight = 1.0]. *)
Definition default_config (sensor_id : string) : SensorConfig :=
  {| cfg_sensor_id := sensor_id;
     noise_floor := 0%float;
     max_valid := infinity;
     weight := 1%float |}.

(** A sensor reading mapped into the algebra, with its provenance.
    [raw_value] is [None] when the sensor is offline. *)
Record TypedReading : Type := {
  sensor_id : string;
  s : Tna.S;
  timestamp : float;
  source : string;
  raw_value : option float
}.

Definition is_eligible (r : TypedReading) : bool :=
  negb (Tna.is_AbsZero (s r)).

Definition is_definite (r : TypedReading) : bool :=
  Tna.is_Real (s r).

(** Convert a raw reading ([None] when missing) into a [TypedReading]. *)
Definition classify_raw (sensor_id : string) (raw : option float)
    (timestamp : float) (source : string) (config : option SensorConfig)
  : TypedReading :=
  match raw with
  | None => Build_TypedReading sensor_id Tna.O_BM timestamp source raw
  | Some v =>
      if is_nan v then
        Build_TypedReading sensor_id Tna.O_BM timestamp source raw
      else
        let nf := match config with
                  | Some c => noise_floor c
                  | None => 0%float
                  end in
        let mv := match config with
                  | Some c => max_valid c
                  | None => infinity
                  end in
        if (abs v <? nf)%float || (mv <? abs v)%float then
          Build_TypedReading sensor_id Tna.O_M timestamp source raw
        else
          Build_TypedReading sensor_id (Tna.Real v) timestamp source raw
  end.

(** *** The classification rule as the specification words it *)

Inductive raw_class : Type :=
| Missing
| NotANumber
| Unusable
| Usable (v : float).

(** Missing or not-a-number first; then magnitude below the noise floor or
    beyond the bound; otherwise usable. *)
Definition raw_class_of (raw : option float) (noise_floor max_valid : float)
  : raw_class :=
  match raw with
  | None => Missing
  | Some v =>
      if is_nan v then NotANumber
      else if (abs v <? noise_floor)%float then Unusable
      else if (max_valid <? abs v)%float then Unusable
      else Usable v
  end.

Definition element_of (c : raw_class) : Tna.S :=
  match c with
  | Missing | NotANumber => Tna.AbsZero
  | Unusable => Tna.MeasZero
  | Usable v => Tna.Real v
  end.

(** C9. [classify_raw] returns a reading for every input (it has no failing
    path), and the element it carries follows the rule in order: a missing
    or NaN raw value gives [AbsZero]; a magnitude below the configured noise
    floor or beyond the configured bound gives [MeasZero]; every other value
    [v] gives [Real v].  Without a configuration the noise floor is [0] and
    the bound is infinite. *)
Theorem classify_raw_spec (sid : string) (raw : option float) (ts : float)
    (src : string) (config : option SensorConfig) :
  let nf := from_option noise_floor 0%float config in
  let mv := from_option max_valid infinity config in
  classify_raw sid raw ts src config =
  {| sensor_id := sid;
     s := element_of (raw_class_of raw nf mv);
     timestamp := ts;
     source := src;
     raw_value := raw |}.
Proof.
  unfold classify_raw, raw_class_of.
  destruct raw as [v|]; [|reflexivity].
  destruct (is_nan v); [reflexivity|].
  destruct config as [c|]; simpl;
    destruct (abs v <? _)%float; simpl; try reflexivity;
    destruct (_ <? abs v)%float; reflexivity.
Qed.

End SensorTna.

(** ** engine/fusion.py *)
Module Fusion.
Export SensorTna.

(** The algebraic level of an element. *)
Definition info_level (x : Tna.S) : result nat :=
  if Tna.is_AbsZero x then Ok 0
  else if Tna.is_MeasZero x then Ok 1
  else if Tna.is_Real x then Ok 2
  else if Tna.is_ResToken x then Ok 3
  else Raise TypeError.

(** [agreement] is one of ["AGREE"], ["DISAGREE"], ["INDETERMINATE"],
    ["INAPPLICABLE"], ["RESOLVED"]. *)
Record PairwiseResult : Type := {
  sensor_a : string;
  sensor_b : string;
  ratio : Tna.S;
  level : nat;
  agreement : string
}.

Definition pairwise_consistency (a b : TypedReading) (eps : float)
  : result PairwiseResult :=
  ratio ← Tna.div (s a) (s b);
  level ← info_level ratio;
  let agreement :=
    match ratio with
    | Tna.Real v => if (abs (v - 1) <? eps)%float then "AGREE" else "DISAGREE"
    | _ =>
        if Tna.is_MeasZero ratio then "INDETERMINATE"
        else if Tna.is_AbsZero ratio then "INAPPLICABLE"
        else if Tna.is_ResToken ratio then "RESOLVED"
        else "UNKNOWN"
    end in
  Ok (Build_PairwiseResult (sensor_id a) (sensor_id b) ratio level agreement).

(** The pairs [(i, j)] with [i < j], by rows. *)
Fixpoint all_pairwise (readings : list TypedReading) (eps : float)
  : result (list PairwiseResult) :=
  match readings with
  | [] => Ok []
  | a :: rest =>
      row ← mapM (fun b => pairwise_consistency a b eps) rest;
      below ← all_pairwise rest eps;
      Ok (row ++ below)
  end.

(** Which sensor, and how it failed. *)
Record SensorAlert : Type := {
  alert_sensor_id : string;
  tna_type : string;
  alert : string;
  is_optional : bool
}.

Definition derive_sensor_alerts (readings : list TypedReading)
    (optional_ids : gset string) : list SensorAlert :=
  (fun r : TypedReading =>
     let is_opt := bool_decide (sensor_id r ∈ optional_ids) in
     if Tna.is_AbsZero (s r) then
       Build_SensorAlert (sensor_id r) "0_bm" "OFFLINE" is_opt
     else if Tna.is_MeasZero (s r) then
       Build_SensorAlert (sensor_id r) "0_m" "DEGRADED" is_opt
     else if Tna.is_Real (s r) then
       Build_SensorAlert (sensor_id r) "Real" "OK" is_opt
     else
       Build_SensorAlert (sensor_id r) "<class 'tna.ResToken'>" "UNKNOWN" is_opt)
  <$> readings.

Record FusionResult : Type := {
  fused_value : Tna.S;
  eligible_count : nat;
  total_count : nat;
  definite_count : nat;
  fused_sum : Tna.S;
  pairwise : list PairwiseResult;
  sensor_alerts : list SensorAlert;
  confidence : float;
  redundancy : float;
  group_mode : string;
  reasons : list string
}.

(** [sum(1 for p in l if test(p))] *)
Definition count_if {A : Type} (test : A -> bool) (l : list A) : nat :=
  sum_list ((fun _ => 1) <$> List.filter test l).

(** [x > y] for a count [x] and an integer [y]. *)
Definition gt_int (x : nat) (y : Z) : bool := (y <? Z.of_nat x)%Z.

(** Fuse a group of sensor readings.  Keyword defaults of the source:
    [required_eligible = 2], [agree_eps = 1.0], [max_disagree = 0],
    [optional_sensors = None]. *)
Definition fuse_group (readings : list TypedReading) (required_eligible : Z)
    (agree_eps : float) (max_disagree : Z)
    (optional_sensors : option (gset string)) : result FusionResult :=
  let optional : gset string :=
    match optional_sensors with
    | Some o => if bool_decide (o = ∅) then ∅ else o
    | None => ∅
    end in
  let typed_values := s <$> readings in
  let eligible_count := Tna.count_s typed_values in
  let total_count := length typed_values in
  fused_sum ← Tna.sum_s typed_values;
  fused_value ← Tna.avg_s typed_values;
  let definite_count := count_if Tna.is_Real typed_values in
  let redundancy :=
    if Nat.ltb 0 total_count
    then (float_of_nat eligible_count / float_of_nat total_count)%float
    else 0%float in
  let confidence :=
    if Nat.ltb 0 total_count
    then (float_of_nat eligible_count / float_of_nat total_count)%float
    else 0%float in
  let sensor_alerts := derive_sensor_alerts readings optional in
  if (Z.of_nat eligible_count <? required_eligible)%Z then
    Ok {| fused_value := fused_value; eligible_count := eligible_count;
          total_count := total_count; definite_count := definite_count;
          fused_sum := fused_sum; pairwise := [];
          sensor_alerts := sensor_alerts;
          confidence := confidence; redundancy := redundancy;
          group_mode := "FAILOVER";
          reasons := ["INSUFFICIENT_ELIGIBLE(" +:+ str_of_nat eligible_count
                        +:+ "/" +:+ str_of_Z required_eligible +:+ ")"] |}
  else
    pairwise ← all_pairwise readings agree_eps;
    let required_pairs :=
      List.filter (fun p => bool_decide (sensor_a p ∉ optional)
                            && bool_decide (sensor_b p ∉ optional)) pairwise in
    let semi_required_pairs :=
      List.filter (fun p => bool_decide (sensor_a p ∉ optional)
                            || bool_decide (sensor_b p ∉ optional)) pairwise in
    let disagree_count :=
      count_if (fun p => String.eqb (agreement p) "DISAGREE") required_pairs in
    let semi_disagree :=
      count_if (fun p => String.eqb (agreement p) "DISAGREE")
               semi_required_pairs in
    let required_offline :=
      List.filter (fun a => negb (is_optional a)
                            && String.eqb (alert a) "OFFLINE") sensor_alerts in
    let required_degraded :=
      List.filter (fun a => negb (is_optional a)
                            && String.eqb (alert a) "DEGRADED") sensor_alerts in
    let required_indeterminate :=
      count_if (fun p => String.eqb (agreement p) "INDETERMINATE"
                         || String.eqb (agreement p) "RESOLVED")
               required_pairs in
    let mode_and_reasons : string * list string :=
      if Tna.is_AbsZero fused_value then
        ("FAILOVER", ["FUSED_VALUE_INAPPLICABLE"])
      else if gt_int disagree_count max_disagree then
        ("INCONSISTENT",
         ["REQUIRED_DISAGREE(" +:+ str_of_nat disagree_count +:+ ")"])
      else if Tna.is_MeasZero fused_value then
        ("DEGRADED", ["FUSED_VALUE_INDETERMINATE"])
      else if negb (Nat.eqb (length required_degraded) 0) then
        ("DEGRADED",
         ["REQUIRED_SENSOR_DEGRADED("
            +:+ join "," (alert_sensor_id <$> required_degraded) +:+ ")"])
      else if Nat.ltb 0 required_indeterminate then
        ("DEGRADED",
         ["REQUIRED_INDETERMINATE_PAIRS("
            +:+ str_of_nat required_indeterminate +:+ ")"])
      else if negb (Nat.eqb (length required_offline) 0) then
        ("REDUCED",
         ["REQUIRED_SENSOR_OFFLINE("
            +:+ join "," (alert_sensor_id <$> required_offline) +:+ ")"])
      else if gt_int semi_disagree max_disagree then
        ("INCONSISTENT",
         ["SEMI_REQUIRED_DISAGREE(" +:+ str_of_nat semi_disagree +:+ ")"])
      else
        ("OK", []) in
    Ok {| fused_value := fused_value; eligible_count := eligible_count;
          total_count := total_count; definite_count := definite_count;
          fused_sum := fused_sum; pairwise := pairwise;
          sensor_alerts := sensor_alerts;
          confidence := confidence; redundancy := redundancy;
          group_mode := fst mode_and_reasons;
          reasons := snd mode_and_reasons |}.

(** *** The mode decision as the specification words it *)

Section ModeSpec.
Variable optional : gset string.
Variable max_disagree : Z.

(** Both sensors of the pair are non-optional. *)
Definition required_only (p : PairwiseResult) : Prop :=
  (sensor_a p ∉ optional) /\ (sensor_b p ∉ optional).

(** At least one sensor of the pair is non-optional. *)
Definition semi_required (p : PairwiseResult) : Prop :=
  (sensor_a p ∉ optional) \/ (sensor_b p ∉ optional).

Definition required_disagree (p : PairwiseResult) : Prop :=
  required_only p /\ agreement p = "DISAGREE".

Definition semi_required_disagree (p : PairwiseResult) : Prop :=
  semi_required p /\ agreement p = "DISAGREE".

Definition required_unsettled (p : PairwiseResult) : Prop :=
  required_only p
  /\ (agreement p = "INDETERMINATE" \/ agreement p = "RESOLVED").

(** A non-optional sensor whose reading is [MeasZero] (alert DEGRADED). *)
Definition required_degraded (r : TypedReading) : Prop :=
  (sensor_id r ∉ optional) /\ s r = Tna.MeasZero.

(** A non-optional sensor whose reading is [AbsZero] (alert OFFLINE). *)
Definition required_offline (r : TypedReading) : Prop :=
  (sensor_id r ∉ optional) /\ s r = Tna.AbsZero.

#[global] Instance required_disagree_dec p : Decision (required_disagree p).
Proof. unfold required_disagree, required_only. apply _. Defined.
#[global] Instance semi_required_disagree_dec p :
  Decision (semi_required_disagree p).
Proof. unfold semi_required_disagree, semi_required. apply _. Defined.
#[global] Instance required_unsettled_dec p : Decision (required_unsettled p).
Proof. unfold required_unsettled, required_only. apply _. Defined.
#[global] Instance required_degraded_dec r : Decision (required_degraded r).
Proof. unfold required_degraded. apply _. Defined.
#[global] Instance required_offline_dec r : Decision (required_offline r).
Proof. unfold required_offline. apply _. Defined.

(** More pairs of the kind [P] than [max_disagree] allows. *)
Definition beyond_max (P : PairwiseResult -> Prop)
    `{!forall p, Decision (P p)} (pairs : list PairwiseResult) : Prop :=
  (max_disagree < Z.of_nat (length (filter P pairs)))%Z.

#[global] Instance beyond_max_dec (P : PairwiseResult -> Prop)
    `{!forall p, Decision (P p)} pairs : Decision (beyond_max P pairs).
Proof. unfold beyond_max. apply _. Defined.

(** The priority list (a) to (h); the first match wins. *)
Definition mode_spec (fused : Tna.S) (readings : list TypedReading)
    (pairs : list PairwiseResult) : string :=
  if decide (fused = Tna.AbsZero) then "FAILOVER"
  else if decide (beyond_max required_disagree pairs) then "INCONSISTENT"
  else if decide (fused = Tna.MeasZero) then "DEGRADED"
  else if decide (Exists required_degraded readings) then "DEGRADED"
  else if decide (Exists required_unsettled pairs) then "DEGRADED"
  else if decide (Exists required_offline readings) then "REDUCED"
  else if decide (beyond_max semi_required_disagree pairs) then "INCONSISTENT"
  else "OK".

End ModeSpec.

(** *** Properties *)

Lemma info_level_ok (x : Tna.S) : exists n, info_level x = Ok n.
Proof. destruct x; simpl; eauto. Qed.

Lemma pairwise_consistency_ok (a b : TypedReading) (eps : float) :
  exists p, pairwise_consistency a b eps = Ok p.
Proof.
  unfold pairwise_consistency.
  destruct (Tna.div_ok (s a) (s b)) as [q ->]. simpl.
  destruct (info_level_ok q) as [n ->]. simpl. eauto.
Qed.

Lemma all_pairwise_ok (readings : list TypedReading) (eps : float) :
  exists ps, all_pairwise readings eps = Ok ps.
Proof.
  induction readings as [|a rest [below IH]]; simpl; [eauto|].
  destruct (mapM_ok (fun b => pairwise_consistency a b eps) rest) as [row ->].
  { intros b _. apply pairwise_consistency_ok. }
  simpl. rewrite IH. simpl. eauto.
Qed.

Lemma optional_or_empty (optional_sensors : option (gset string)) :
  match optional_sensors with
  | Some o => if bool_decide (o = ∅) then ∅ else o
  | None => ∅
  end = default ∅ optional_sensors.
Proof.
  destruct optional_sensors as [o|]; [|reflexivity]. simpl.
  case_bool_decide; congruence.
Qed.

Lemma is_AbsZero_bool_decide (x : Tna.S) :
  Tna.is_AbsZero x = bool_decide (x = Tna.AbsZero).
Proof. destruct x; reflexivity. Qed.

Lemma is_MeasZero_bool_decide (x : Tna.S) :
  Tna.is_MeasZero x = bool_decide (x = Tna.MeasZero).
Proof. destruct x; reflexivity. Qed.

Lemma string_eqb_bool_decide (a b : string) :
  String.eqb a b = bool_decide (a = b).
Proof.
  destruct (String.eqb_spec a b); case_bool_decide; congruence.
Qed.

Section ModeFacts.
Variable optional : gset string.
Variable max_disagree : Z.

Lemma count_required_disagree (pairs : list PairwiseResult) :
  gt_int
    (count_if (fun p => String.eqb (agreement p) "DISAGREE")
       (List.filter (fun p => bool_decide (sensor_a p ∉ optional)
                              && bool_decide (sensor_b p ∉ optional)) pairs))
    max_disagree
  = bool_decide (beyond_max max_disagree (required_disagree optional) pairs).
Proof.
  unfold count_if, gt_int, beyond_max.
  rewrite sum_list_ones, list_filter_filter.
  rewrite (list_filter_reflect _ (required_disagree optional)).
  - destruct (Z.ltb_spec max_disagree
               (Z.of_nat (length (filter (required_disagree optional) pairs))));
      case_bool_decide; try reflexivity; lia.
  - intros p. unfold required_disagree, required_only.
    rewrite !andb_true_iff, !bool_decide_eq_true, String.eqb_eq. tauto.
Qed.

Lemma count_semi_required_disagree (pairs : list PairwiseResult) :
  gt_int
    (count_if (fun p => String.eqb (agreement p) "DISAGREE")
       (List.filter (fun p => bool_decide (sensor_a p ∉ optional)
                              || bool_decide (sensor_b p ∉ optional)) pairs))
    max_disagree
  = bool_decide
      (beyond_max max_disagree (semi_required_disagree optional) pairs).
Proof.
  unfold count_if, gt_int, beyond_max.
  rewrite sum_list_ones, list_filter_filter.
  rewrite (list_filter_reflect _ (semi_required_disagree optional)).
  - destruct (Z.ltb_spec max_disagree
               (Z.of_nat
                  (length (filter (semi_required_disagree optional) pairs))));
      case_bool_decide; try reflexivity; lia.
  - intros p. unfold semi_required_disagree, semi_required.
    rewrite andb_true_iff, orb_true_iff, !bool_decide_eq_true, String.eqb_eq.
    tauto.
Qed.

Lemma count_required_unsettled (pairs : list PairwiseResult) :
  Nat.ltb 0
    (count_if (fun p => String.eqb (agreement p) "INDETERMINATE"
                        || String.eqb (agreement p) "RESOLVED")
       (List.filter (fun p => bool_decide (sensor_a p ∉ optional)
                              && bool_decide (sensor_b p ∉ optional)) pairs))
  = bool_decide (Exists (required_unsettled optional) pairs).
Proof.
  unfold count_if. rewrite sum_list_ones, list_filter_filter.
  rewrite (list_filter_reflect _ (required_unsettled optional)).
  - pose proof (filter_length_Exists (required_unsettled optional) pairs).
    destruct (Nat.ltb_spec 0
                (length (filter (required_unsettled optional) pairs)));
      case_bool_decide; try reflexivity; intuition lia.
  - intros p. unfold required_unsettled, required_only.
    rewrite !andb_true_iff, orb_true_iff, !bool_decide_eq_true,
      !String.eqb_eq. tauto.
Qed.

Lemma alerts_required (kind : string)
    (P : TypedReading -> Prop) `{!forall r, Decision (P r)}
    (readings : list TypedReading) :
  (forall r, negb (bool_decide (sensor_id r ∈ optional))
             && String.eqb
                  (alert
                     (if Tna.is_AbsZero (s r) then
                        Build_SensorAlert (sensor_id r) "0_bm" "OFFLINE"
                          (bool_decide (sensor_id r ∈ optional))
                      else if Tna.is_MeasZero (s r) then
                        Build_SensorAlert (sensor_id r) "0_m" "DEGRADED"
                          (bool_decide (sensor_id r ∈ optional))
                      else if Tna.is_Real (s r) then
                        Build_SensorAlert (sensor_id r) "Real" "OK"
                          (bool_decide (sensor_id r ∈ optional))
                      else
                        Build_SensorAlert (sensor_id r)
                          "<class 'tna.ResToken'>" "UNKNOWN"
                          (bool_decide (sensor_id r ∈ optional))))
                  kind = true <-> P r) ->
  negb (Nat.eqb
          (length
             (List.filter (fun a => negb (is_optional a)
                                    && String.eqb (alert a) kind)
                (derive_sensor_alerts readings optional))) 0)
  = bool_decide (Exists P readings).
Proof.
  intros HP. unfold derive_sensor_alerts.
  rewrite list_filter_fmap.
  rewrite (list_filter_reflect _ P).
  - pose proof (filter_length_Exists P readings).
    destruct (Nat.eqb_spec (length (filter P readings)) 0);
      case_bool_decide; try reflexivity; intuition lia.
  - intros r. rewrite <- HP.
    destruct (s r); reflexivity.
Qed.

Lemma alerts_required_degraded (readings : list TypedReading) :
  negb (Nat.eqb
          (length
             (List.filter (fun a => negb (is_optional a)
                                    && String.eqb (alert a) "DEGRADED")
                (derive_sensor_alerts readings optional))) 0)
  = bool_decide (Exists (required_degraded optional) readings).
Proof.
  apply alerts_required. intros r. unfold required_degraded.
  rewrite andb_true_iff, negb_true_iff, bool_decide_eq_false.
  destruct (s r); simpl; intuition congruence.
Qed.

Lemma alerts_required_offline (readings : list TypedReading) :
  negb (Nat.eqb
          (length
             (List.filter (fun a => negb (is_optional a)
                                    && String.eqb (alert a) "OFFLINE")
                (derive_sensor_alerts readings optional))) 0)
  = bool_decide (Exists (required_offline optional) readings).
Proof.
  apply alerts_required. intros r. unfold required_offline.
  rewrite andb_true_iff, negb_true_iff, bool_decide_eq_false.
  destruct (s r); simpl; intuition congruence.
Qed.

End ModeFacts.

Lemma fuse_group_ok (readings : list TypedReading) (required_eligible : Z)
    (agree_eps : float) (max_disagree : Z)
    (optional_sensors : option (gset string)) :
  exists fr,
    fuse_group readings required_eligible agree_eps max_disagree
      optional_sensors = Ok fr.
Proof.
  unfold fuse_group. rewrite Tna.sum_s_ok. simpl.
  destruct (Tna.avg_s_ok (s <$> readings)) as [fv ->]. simpl.
  destruct (_ <? required_eligible)%Z; [eauto|].
  destruct (all_pairwise_ok readings agree_eps) as [ps ->]. simpl. eauto.
Qed.

(** C1. [fuse_group] always returns a result.  When fewer readings are
    eligible than [required_eligible] (in particular for no reading at all
    and a positive requirement) the mode is FAILOVER and the pairwise list
    is empty.  Otherwise the pairwise list is that of all pairs and the
    mode is the first match of: (a) fused value [AbsZero]: FAILOVER;
    (b) more than [max_disagree] disagreeing pairs of two non-optional
    sensors: INCONSISTENT; (c) fused value [MeasZero]: DEGRADED; (d) a
    non-optional sensor degraded: DEGRADED; (e) a pair of two non-optional
    sensors indeterminate or resolved: DEGRADED; (f) a non-optional sensor
    offline: REDUCED; (g) more than [max_disagree] disagreeing pairs with a
    non-optional sensor: INCONSISTENT; (h) otherwise OK. *)
Theorem fuse_group_mode (readings : list TypedReading)
    (required_eligible : Z) (agree_eps : float) (max_disagree : Z)
    (optional_sensors : option (gset string)) :
  let optional := default ∅ optional_sensors in
  let eligible := length (filter Tna.eligible (s <$> readings)) in
  exists fr,
    fuse_group readings required_eligible agree_eps max_disagree
      optional_sensors = Ok fr
    /\ eligible_count fr = eligible
    /\ Tna.avg_s (s <$> readings) = Ok (fused_value fr)
    /\ (if decide (Z.of_nat eligible < required_eligible)%Z
        then group_mode fr = "FAILOVER" /\ pairwise fr = []
        else all_pairwise readings agree_eps = Ok (pairwise fr)
             /\ group_mode fr
                = mode_spec optional max_disagree (fused_value fr) readings
                    (pairwise fr))
    /\ (readings = [] -> (0 < required_eligible)%Z ->
        group_mode fr = "FAILOVER" /\ pairwise fr = []).
Proof.
  intros optional eligible.
  unfold fuse_group. rewrite optional_or_empty. fold optional.
  rewrite Tna.sum_s_ok. simpl.
  destruct (Tna.avg_s_ok (s <$> readings)) as [fv Hfv]. rewrite Hfv. simpl.
  rewrite Tna.count_s_length. fold eligible.
  destruct (Z.ltb_spec (Z.of_nat eligible) required_eligible) as [Hlt|Hge].
  - eexists. split; [reflexivity|]. simpl.
    destruct (decide (Z.of_nat eligible < required_eligible)%Z); [|lia].
    auto.
  - destruct (all_pairwise_ok readings agree_eps) as [ps Hps].
    rewrite Hps. simpl.
    rewrite count_required_disagree, count_semi_required_disagree,
      count_required_unsettled, alerts_required_degraded,
      alerts_required_offline, is_AbsZero_bool_decide,
      is_MeasZero_bool_decide.
    eexists. split; [reflexivity|].
    split; [reflexivity|]. split; [reflexivity|]. split.
    + destruct (decide (Z.of_nat eligible < required_eligible)%Z); [lia|].
      split; [reflexivity|].
      cbn [group_mode fused_value pairwise]. unfold mode_spec.
      repeat (match goal with
              | |- context [decide ?P] => destruct (decide P)
              end;
              [rewrite bool_decide_eq_true_2 by assumption
              |rewrite bool_decide_eq_false_2 by assumption];
              cbn [fst]; try reflexivity).
    + intros -> Hpos. subst eligible. simpl in Hge. lia.
Qed.

(** The groups of the test-suite: insufficient eligibility, a degraded
    required sensor, a lost required sensor, a lost optional sensor. *)
Example fuse_group_examples :
  let tr sid x := Build_TypedReading sid x 0%float "TEST" None in
  let rs x := [tr "a" (Tna.Real 10); tr "b" (Tna.Real 10); tr "c" x] in
  group_mode <$> fuse_group [tr "a" (Tna.Real 10); tr "b" Tna.AbsZero;
                             tr "c" Tna.AbsZero] 2 1%float 0 None
  = Ok "FAILOVER"
  /\ group_mode <$> fuse_group (rs Tna.MeasZero) 2 1%float 0 None
     = Ok "DEGRADED"
  /\ group_mode <$> fuse_group (rs Tna.AbsZero) 2 1%float 0 None
     = Ok "REDUCED"
  /\ group_mode <$> fuse_group (rs Tna.AbsZero) 2 1%float 0 (Some {["c"]})
     = Ok "OK".
Proof. repeat apply conj; vm_compute; reflexivity. Qed.

End Fusion.

(** ** engine/sensor_groups.py *)
Module SensorGroups.
Export Fusion.

Record GroupSpec : Type := {
  name : string;
  sensors : list string;
  required_eligible : Z;
  agree_eps : float;
  max_outliers : Z;
  optional_sensors : gset string
}.

(** The dictionary [decide_group] returns: the group name and, under their
    keys, the fields of the [FusionResult] ([definite_count] under
    ["real_count"]). *)
Record GroupDecision : Type := {
  group : string;
  fusion : FusionResult
}.

Definition decide_group (group : GroupSpec)
    (typed_by_sensor : gmap string TypedReading) : result GroupDecision :=
  let readings := omap (fun sid => typed_by_sensor !! sid) (sensors group) in
  fr ← fuse_group readings (required_eligible group) (agree_eps group)
         (max_outliers group) (Some (optional_sensors group));
  Ok {| group := name group; fusion := fr |}.

Lemma decide_group_ok (g : GroupSpec)
    (typed_by_sensor : gmap string TypedReading) :
  exists out, decide_group g typed_by_sensor = Ok out.
Proof.
  unfold decide_group.
  destruct (fuse_group_ok
              (omap (fun sid => typed_by_sensor !! sid) (sensors g))
              (required_eligible g) (agree_eps g) (max_outliers g)
              (Some (optional_sensors g))) as [fr ->].
  simpl. eauto.
Qed.

End SensorGroups.

(** ** engine/window_policy.py *)
Module WindowPolicy.
Export SensorGroups.

Record WindowParams : Type := {
  degraded_k : Z;
  reduced_k : Z;
  inconsistent_k : Z;
  failover_k : Z;
  ok_recover_k : Z;
  max_history : Z
}.

(** [WindowParams()] *)
Definition default_params : WindowParams :=
  {| degraded_k := 3; reduced_k := 3; inconsistent_k := 2; failover_k := 5;
     ok_recover_k := 3; max_history := 10 |}.

(** [history] is a [deque] with the bound [maxlen]. *)
Record GroupWindowState : Type := {
  history : list string;
  maxlen : nat;
  stable_mode : string
}.

(** [deque.append]: when the bound is exceeded the oldest entries go. *)
Definition deque_append (items : list string) (maxlen : nat) (x : string)
  : list string :=
  let items' := items ++ [x] in
  drop (length items' - maxlen) items'.

Record WindowedDecider : Type := {
  params : WindowParams;
  _state : gmap string GroupWindowState
}.

(** [WindowedDecider(params)] *)
Definition new_decider (params : option WindowParams) : WindowedDecider :=
  {| params := default default_params params; _state := ∅ |}.

(** [sys.maxsize], the largest [Py_ssize_t], of a 64-bit build:
    [2^63 - 1]. *)
Definition PY_SSIZE_T_MAX : Z := 9223372036854775807.

(** The bound of [deque(maxlen=n)]: [n] is converted to a [Py_ssize_t],
    which raises [OverflowError] when it does not fit, below
    [-2^63] as well as above [2^63 - 1]; a negative bound that fits raises
    [ValueError]. *)
Definition deque_maxlen (n : Z) : result nat :=
  if (n <? - PY_SSIZE_T_MAX - 1)%Z || (PY_SSIZE_T_MAX <? n)%Z
  then Raise OverflowError
  else if (n <? 0)%Z then Raise ValueError
  else Ok (Z.to_nat n).

(** The state of a group, created on first use with the bound
    [max_history]. *)
Definition _get_state (self : WindowedDecider) (name : string)
  : result (WindowedDecider * GroupWindowState) :=
  match _state self !! name with
  | Some st => Ok (self, st)
  | None =>
      maxlen ← deque_maxlen (max_history (params self));
      let st := {| history := []; maxlen := maxlen; stable_mode := "OK" |} in
      Ok ({| params := params self;
             _state := <[name := st]> (_state self) |}, st)
  end.

(** The loop of [_consecutive_suffix] over [reversed(hist)]. *)
Fixpoint count_leading (label : string) (xs : list string) : nat :=
  match xs with
  | [] => 0
  | x :: rest => if String.eqb x label then 1 + count_leading label rest else 0
  end.

Definition _consecutive_suffix (hist : list string) (label : string) : nat :=
  count_leading label (reverse hist).

(** [c >= k] for a count [c] and a threshold [k]. *)
Definition ge_int (c : nat) (k : Z) : bool := (k <=? Z.of_nat c)%Z.

Arguments ge_int : simpl never.
Arguments _consecutive_suffix : simpl never.
Arguments deque_append : simpl never.

(** What [update] returns: the decision of [decide_group] with the keys
    ["stable_group_mode"] and ["base_group_mode"] added. *)
Record UpdateOut : Type := {
  decision : GroupDecision;
  stable_group_mode : string;
  base_group_mode : string
}.

Definition update (self : WindowedDecider) (group : GroupSpec)
    (typed_by_sensor : gmap string TypedReading)
  : result (WindowedDecider * UpdateOut) :=
  out ← decide_group group typed_by_sensor;
  let base_mode := group_mode (fusion out) in
  '(self, st) ← _get_state self (name group);
  let hist := deque_append (history st) (maxlen st) base_mode in
  let p := params self in
  let stable :=
    if ge_int (_consecutive_suffix hist "FAILOVER") (failover_k p)
    then "FAILOVER"
    else if ge_int (_consecutive_suffix hist "INCONSISTENT") (inconsistent_k p)
    then "INCONSISTENT"
    else if ge_int (_consecutive_suffix hist "DEGRADED") (degraded_k p)
    then "DEGRADED"
    else if ge_int (_consecutive_suffix hist "REDUCED") (reduced_k p)
    then "REDUCED"
    else if bool_decide
              (stable_mode st
               ∈ ["DEGRADED"; "INCONSISTENT"; "FAILOVER"; "REDUCED"])
    then
      if ge_int (_consecutive_suffix hist "OK") (ok_recover_k p)
      then "OK"
      else stable_mode st
    else "OK" in
  let st' := {| history := hist; maxlen := maxlen st;
                stable_mode := stable |} in
  Ok ({| params := p; _state := <[name group := st']> (_state self) |},
      {| decision := out; stable_group_mode := stable;
         base_group_mode := base_mode |}).

(** Successive updates of one group, as the loops of the test-suite make
    them; the pairs are the raw and the stable mode of each update. *)
Fixpoint run_updates (self : WindowedDecider) (g : GroupSpec)
    (ticks : list (gmap string TypedReading))
  : result (WindowedDecider * list (string * string)) :=
  match ticks with
  | [] => Ok (self, [])
  | typed_by_sensor :: rest =>
      '(self, out) ← update self g typed_by_sensor;
      '(self, outs) ← run_updates self g rest;
      Ok (self, (base_group_mode out, stable_group_mode out) :: outs)
  end.

(** *** The decider as the specification words it *)

(** The trailing consecutive run of [mode]: the length of the longest
    suffix of the history that holds nothing but [mode]. *)
Fixpoint trailing_run (hist : list string) (mode : string) : nat :=
  match hist with
  | [] => 0
  | x :: rest =>
      if decide (Forall (eq mode) (x :: rest)) then length (x :: rest)
      else trailing_run rest mode
  end.

(** The persistence threshold of a mode; for OK, the recovery streak. *)
Definition threshold (p : WindowParams) (mode : string) : Z :=
  if decide (mode = "FAILOVER") then failover_k p
  else if decide (mode = "INCONSISTENT") then inconsistent_k p
  else if decide (mode = "DEGRADED") then degraded_k p
  else if decide (mode = "REDUCED") then reduced_k p
  else ok_recover_k p.

(** The trailing run of [mode] meets or exceeds its threshold. *)
Definition persists (p : WindowParams) (hist : list string) (mode : string)
  : Prop :=
  (threshold p mode <= Z.of_nat (trailing_run hist mode))%Z.

#[global] Instance persists_dec p hist mode : Decision (persists p hist mode).
Proof. unfold persists. apply _. Defined.

(** The first mode, in the order FAILOVER > INCONSISTENT > DEGRADED >
    REDUCED, whose run persists. *)
Definition escalation (p : WindowParams) (hist : list string)
  : option string :=
  head (filter (persists p hist)
          ["FAILOVER"; "INCONSISTENT"; "DEGRADED"; "REDUCED"]).

Definition stable_spec (p : WindowParams) (hist : list string)
    (stable : string) : string :=
  match escalation p hist with
  | Some mode => mode
  | None =>
      if decide (stable ∈ ["DEGRADED"; "INCONSISTENT"; "FAILOVER"; "REDUCED"])
      then if decide (persists p hist "OK") then "OK" else stable
      else "OK"
  end.

(** The state a group has before its first update. *)
Definition fresh_state (p : WindowParams) : GroupWindowState :=
  {| history := []; maxlen := Z.to_nat (max_history p); stable_mode := "OK" |}.

(** The group and the readings of [test_degrade_requires_persistence]. *)
Definition test_params : WindowParams :=
  {| degraded_k := 3; reduced_k := 3; inconsistent_k := 2; failover_k := 3;
     ok_recover_k := 2; max_history := 10 |}.

Definition test_group : GroupSpec :=
  {| name := "g"; sensors := ["a"; "b"; "c"]; required_eligible := 2;
     agree_eps := 1%float; max_outliers := 1; optional_sensors := ∅ |}.

Definition test_typed (a b c : Tna.S) : gmap string TypedReading :=
  let tr sid x := Build_TypedReading sid x 0%float "TEST" None in
  <["a" := tr "a" a]> (<["b" := tr "b" b]> (<["c" := tr "c" c]> ∅)).

(** *** Properties *)

Lemma trailing_run_all (hist : list string) (mode : string) :
  Forall (eq mode) hist -> trailing_run hist mode = length hist.
Proof.
  destruct hist as [|x rest]; [reflexivity|]. intros Hall. simpl.
  destruct (decide _); [reflexivity | contradiction].
Qed.

Lemma count_leading_snoc (label : string) (ys : list string) (x : string) :
  count_leading label (ys ++ [x])
  = if decide (Forall (eq label) ys)
    then (if decide (label = x) then S (length ys) else length ys)
    else count_leading label ys.
Proof.
  induction ys as [|y ys IH]; simpl.
  - destruct (decide (Forall (eq label) [])) as [_|Hn];
      [|exfalso; apply Hn; constructor].
    destruct (String.eqb_spec x label); destruct (decide (label = x));
      congruence.
  - rewrite IH. destruct (String.eqb_spec y label) as [->|Hne].
    + destruct (decide (Forall (eq label) ys)) as [Hall|Hall];
        destruct (decide (Forall (eq label) (label :: ys))) as [Hc|Hc];
        try reflexivity.
      * destruct (decide (label = x)); reflexivity.
      * exfalso. apply Hc. now constructor.
      * exfalso. apply Hall. now inversion Hc.
    + destruct (decide (Forall (eq label) (y :: ys))) as [Hc|Hc];
        [|reflexivity].
      exfalso. inversion Hc. congruence.
Qed.

(** The loop of the source computes the trailing run. *)
Lemma consecutive_suffix_trailing_run (hist : list string) (label : string) :
  _consecutive_suffix hist label = trailing_run hist label.
Proof.
  unfold _consecutive_suffix.
  induction hist as [|x rest IH]; [reflexivity|].
  rewrite reverse_cons, count_leading_snoc, IH, length_reverse. simpl.
  destruct (decide (Forall (eq label) (reverse rest))) as [Hr|Hr];
    destruct (decide (Forall (eq label) (x :: rest))) as [Hc|Hc].
  - inversion Hc; subst. destruct (decide (x = x)); congruence.
  - destruct (decide (label = x)) as [->|Hne].
    + exfalso. apply Hc. constructor; [reflexivity|].
      now rewrite <- (reverse_involutive rest), Forall_reverse.
    + symmetry. apply trailing_run_all.
      now rewrite <- (reverse_involutive rest), Forall_reverse.
  - exfalso. apply Hr. rewrite Forall_reverse. now inversion Hc.
  - reflexivity.
Qed.

Lemma ge_int_persists (p : WindowParams) (hist : list string)
    (mode : string) (k : Z) :
  threshold p mode = k ->
  ge_int (_consecutive_suffix hist mode) k = bool_decide (persists p hist mode).
Proof.
  intros <-. unfold ge_int, persists.
  rewrite consecutive_suffix_trailing_run.
  destruct (Z.leb_spec (threshold p mode) (Z.of_nat (trailing_run hist mode)));
    case_bool_decide; try reflexivity; lia.
Qed.

(** The chain of tests in [update] is the specification's choice. *)
Lemma stable_chain (p : WindowParams) (hist : list string) (stable : string) :
  (if ge_int (_consecutive_suffix hist "FAILOVER") (failover_k p)
   then "FAILOVER"
   else if ge_int (_consecutive_suffix hist "INCONSISTENT") (inconsistent_k p)
   then "INCONSISTENT"
   else if ge_int (_consecutive_suffix hist "DEGRADED") (degraded_k p)
   then "DEGRADED"
   else if ge_int (_consecutive_suffix hist "REDUCED") (reduced_k p)
   then "REDUCED"
   else if bool_decide
             (stable ∈ ["DEGRADED"; "INCONSISTENT"; "FAILOVER"; "REDUCED"])
   then
     if ge_int (_consecutive_suffix hist "OK") (ok_recover_k p)
     then "OK"
     else stable
   else "OK")
  = stable_spec p hist stable.
Proof.
  rewrite (ge_int_persists p hist "FAILOVER") by reflexivity.
  rewrite (ge_int_persists p hist "INCONSISTENT") by reflexivity.
  rewrite (ge_int_persists p hist "DEGRADED") by reflexivity.
  rewrite (ge_int_persists p hist "REDUCED") by reflexivity.
  rewrite (ge_int_persists p hist "OK") by reflexivity.
  unfold stable_spec, escalation. rewrite !filter_cons, filter_nil.
  repeat (match goal with
          | |- context [decide ?P] => destruct (decide P)
          end;
          [rewrite bool_decide_eq_true_2 by assumption
          |rewrite bool_decide_eq_false_2 by assumption];
          simpl; try reflexivity).
Qed.

Lemma deque_append_suffix (items : list string) (n : nat) (x : string) :
  deque_append items n x `suffix_of` (items ++ [x])
  /\ length (deque_append items n x) = min n (S (length items)).
Proof.
  unfold deque_append. split; [apply suffix_drop|].
  rewrite length_drop, length_app. simpl. lia.
Qed.

(** When [deque(maxlen=n)] returns and what it raises. *)
Lemma deque_maxlen_cases (n : Z) :
  match deque_maxlen n with
  | Ok m => (0 <= n <= PY_SSIZE_T_MAX)%Z /\ m = Z.to_nat n
  | Raise e =>
      (e = ValueError /\ (- PY_SSIZE_T_MAX - 1 <= n < 0)%Z)
      \/ (e = OverflowError
          /\ ((n < - PY_SSIZE_T_MAX - 1)%Z \/ (PY_SSIZE_T_MAX < n)%Z))
  end.
Proof.
  unfold deque_maxlen.
  destruct (Z.ltb_spec n (- PY_SSIZE_T_MAX - 1));
    destruct (Z.ltb_spec PY_SSIZE_T_MAX n); simpl; auto.
  destruct (Z.ltb_spec n 0); [left | ]; split; auto; lia.
Qed.

Lemma deque_maxlen_ok (n : Z) :
  (0 <= n <= PY_SSIZE_T_MAX)%Z -> deque_maxlen n = Ok (Z.to_nat n).
Proof.
  intros Hn. pose proof (deque_maxlen_cases n) as H.
  destruct (deque_maxlen n) as [m|e].
  - destruct H as [_ ->]. reflexivity.
  - unfold PY_SSIZE_T_MAX in *. destruct H as [[_ ?]|[_ ?]]; lia.
Qed.

(** C3. Every update of a group appends the raw mode of the tick to the
    bounded history of that group (a suffix of the extended history, of
    length at most [maxlen]) and leaves the other groups as they are; the
    new stable mode is the first of FAILOVER, INCONSISTENT, DEGRADED,
    REDUCED whose trailing run meets its threshold; when none does, a
    stable mode among these four becomes OK only when the trailing run of
    OK reaches [ok_recover_k] and is otherwise kept, and a stable mode OK
    stays OK.  The update fails only when it has to create the state of a
    group: with [ValueError] for a negative [max_history] and with
    [OverflowError] for one that does not fit a [Py_ssize_t].  With
    [degraded_k = 3], two
    DEGRADED ticks in a row leave the stable mode OK and the third makes it
    DEGRADED. *)
Theorem update_spec (self : WindowedDecider) (g : GroupSpec)
    (typed_by_sensor : gmap string TypedReading) :
  (exists out,
     decide_group g typed_by_sensor = Ok out /\
     let base := group_mode (fusion out) in
     let prev := _state self !! name g in
     let st := default (fresh_state (params self)) prev in
     let hist := deque_append (history st) (maxlen st) base in
     let stable := stable_spec (params self) hist (stable_mode st) in
     hist `suffix_of` (history st ++ [base]) /\
     length hist = min (maxlen st) (S (length (history st))) /\
     match prev, update self g typed_by_sensor with
     | None, Raise e =>
         (e = ValueError
          /\ (- PY_SSIZE_T_MAX - 1 <= max_history (params self) < 0)%Z)
         \/ (e = OverflowError
             /\ ((max_history (params self) < - PY_SSIZE_T_MAX - 1)%Z
                 \/ (PY_SSIZE_T_MAX < max_history (params self))%Z))
     | Some _, Raise e => False
     | _, Ok (self', res) =>
         (prev = None ->
          (0 <= max_history (params self) <= PY_SSIZE_T_MAX)%Z) /\
         params self' = params self /\
         _state self' !! name g
         = Some {| history := hist; maxlen := maxlen st;
                   stable_mode := stable |} /\
         (forall other, other <> name g ->
                        _state self' !! other = _state self !! other) /\
         res = {| decision := out; stable_group_mode := stable;
                  base_group_mode := base |}
     end)
  /\ (forall p : WindowParams,
        degraded_k p = 3%Z -> (0 < failover_k p)%Z ->
        (0 < inconsistent_k p)%Z -> (0 < reduced_k p)%Z ->
        stable_spec p ["DEGRADED"] "OK" = "OK"
        /\ stable_spec p ["DEGRADED"; "DEGRADED"] "OK" = "OK"
        /\ stable_spec p ["DEGRADED"; "DEGRADED"; "DEGRADED"] "OK"
           = "DEGRADED")
  /\ (let tick := test_typed (Tna.Real 10) (Tna.Real 10) Tna.MeasZero in
      snd <$> run_updates (new_decider (Some test_params)) test_group
                [tick; tick; tick]
      = Ok [("DEGRADED", "OK"); ("DEGRADED", "OK"); ("DEGRADED", "DEGRADED")]).
Proof.
  split; [|split].
  - destruct (decide_group_ok g typed_by_sensor) as [out Hout].
    exists out. split; [exact Hout|]. cbv zeta.
    split; [apply deque_append_suffix|].
    split; [apply deque_append_suffix|].
    rewrite <- stable_chain.
    unfold update. rewrite Hout. simpl. unfold _get_state.
    destruct (_state self !! name g) as [st|] eqn:Hprev; simpl.
    + split; [discriminate|]. split; [reflexivity|].
      split; [apply lookup_insert_eq|]. split; [|reflexivity].
      intros other Hne. now apply lookup_insert_ne.
    + pose proof (deque_maxlen_cases (max_history (params self))) as Hlen.
      destruct (deque_maxlen (max_history (params self))) as [m|e]; simpl;
        [|exact Hlen].
      destruct Hlen as [Hfits ->].
      split; [intros _; exact Hfits|]. split; [reflexivity|].
      split; [apply lookup_insert_eq|]. split; [|reflexivity].
      intros other Hne. now rewrite !lookup_insert_ne.
  - intros p Hd Hf Hi Hr. rewrite <- !stable_chain.
    unfold ge_int, _consecutive_suffix. simpl. rewrite Hd.
    repeat match goal with
           | |- context [(?a <=? ?b)%Z] => destruct (Z.leb_spec a b); try lia
           end.
    auto.
  - vm_compute. reflexivity.
Qed.

End WindowPolicy.

(** ** fault_aggregator.py *)
Module FaultAggregator.

Inductive Severity : Type :=
| Severity_OK
| Severity_INFO
| Severity_REDUCED
| Severity_WARNING
| Severity_FAULT
| Severity_CASCADE.

Definition Severity_value (x : Severity) : string :=
  match x with
  | Severity_OK => "ok"
  | Severity_INFO => "info"
  | Severity_REDUCED => "reduced"
  | Severity_WARNING => "warning"
  | Severity_FAULT => "fault"
  | Severity_CASCADE => "cascade"
  end.

Inductive FaultType : Type :=
| ROOT_CAUSE
| CASCADE
| INDEPENDENT.

Definition FaultType_value (x : FaultType) : string :=
  match x with
  | ROOT_CAUSE => "root_cause"
  | CASCADE => "cascade"
  | INDEPENDENT => "independent"
  end.

(** One entry of the subsystem registry; a missing ["upstream"] key is the
    empty list. *)
Record Subsystem : Type := {
  subsys_name : string;
  priority : Z;
  groups : list string;
  indicators : list string;
  upstream : list string
}.

(** The registry as the module defines it. *)
Definition SUBSYSTEMS : list (string * Subsystem) :=
  [ ("valve", {| subsys_name := "Valve/Actuator"; priority := 1;
                 groups := ["valve"; "chw"; "damper"];
                 indicators := ["VLV"; "VALVE"; "DMPR"; "DAMPER"; "CMD"; "POS"];
                 upstream := [] |});
    ("sat", {| subsys_name := "Supply Air Temperature"; priority := 2;
               groups := ["sat"];
               indicators := ["SAT"; "SA-TEMP"; "SA_TEMP"; "SUPPLY"];
               upstream := ["valve"] |});
    ("vav", {| subsys_name := "VAV Box"; priority := 3;
               groups := ["vav"];
               indicators := ["VAV"; "BOX"; "TERMINAL"];
               upstream := ["sat"] |});
    ("chw", {| subsys_name := "Chilled Water"; priority := 2;
               groups := ["chw"];
               indicators := ["CHW"; "CHWC"; "CHILLER"];
               upstream := ["valve"] |});
    ("zone", {| subsys_name := "Zone Comfort"; priority := 4;
                groups := ["zone"];
                indicators := ["RM-TEMP"; "RM_TEMP"; "ROOM"; "ZONE"; "RMCLG";
                               "RMHTG"];
                upstream := ["sat"; "vav"; "chw"] |});
    ("imu", {| subsys_name := "IMU Sensors"; priority := 1;
               groups := ["imu"; "custom"];
               indicators := ["IMU"; "ACC"; "GYR"];
               upstream := [] |});
    ("baro", {| subsys_name := "Barometer"; priority := 1;
                groups := ["baro"];
                indicators := ["BARO"; "ALT"; "PRESS"];
                upstream := [] |});
    ("gps", {| subsys_name := "GPS"; priority := 1;
               groups := ["gps"];
               indicators := ["GPS"; "LAT"; "LNG"; "SPD"];
               upstream := [] |}) ].

(** A pair-level result.  A missing key whose default is [""] is the empty
    string; [name], [val_a] and [val_b] are [None] when missing.
    [subsystem] and [human_message] are the keys [aggregate_faults] writes. *)
Record Fault : Type := {
  group : string;
  name : option string;
  status : string;
  col_a : string;
  col_b : string;
  val_a : option float;
  val_b : option float;
  unit_ : string;
  pair_type : string;
  subsystem : string;
  human_message : string
}.

(** The empty dictionary [{}]. *)
Definition empty_fault : Fault :=
  {| group := ""; name := None; status := ""; col_a := ""; col_b := "";
     val_a := None; val_b := None; unit_ := ""; pair_type := "";
     subsystem := ""; human_message := "" |}.

Record Rule : Type := {
  rule_name : string;
  condition : list Fault -> bool;
  root : string;
  rule_cascades : list string;
  rule_message : string
}.

(** [any(f["subsystem"] == sub and f["status"] == "FAULT" for f in faults)] *)
Definition any_fault (sub : string) (faults : list Fault) : bool :=
  existsb (fun f => String.eqb (subsystem f) sub
                    && String.eqb (status f) "FAULT") faults.

Definition CAUSAL_RULES : list Rule :=
  [ {| rule_name := "valve_causes_sat";
       condition := fun faults =>
         any_fault "valve" faults && any_fault "sat" faults;
       root := "valve"; rule_cascades := ["sat"];
       rule_message :=
         "Supply Air Temperature deviation due to valve mismatch" |};
    {| rule_name := "sat_causes_zone";
       condition := fun faults =>
         any_fault "sat" faults && any_fault "zone" faults;
       root := "sat"; rule_cascades := ["zone"];
       rule_message :=
         "Zone comfort deviation due to Supply Air Temperature fault" |};
    {| rule_name := "valve_causes_zone";
       condition := fun faults =>
         any_fault "valve" faults && any_fault "zone" faults
         && negb (any_fault "sat" faults);
       root := "valve"; rule_cascades := ["zone"];
       rule_message :=
         "Zone comfort deviation due to valve actuator fault" |};
    {| rule_name := "chw_causes_sat";
       condition := fun faults =>
         any_fault "chw" faults && any_fault "sat" faults;
       root := "chw"; rule_cascades := ["sat"];
       rule_message :=
         "Supply Air Temperature deviation due to chilled water fault" |} ].

(** [AggregatedFault.to_dict()]. *)
Record SubsystemFault : Type := {
  sf_subsystem : string;
  subsystem_name : string;
  fault_type : string;
  severity : string;
  primary_fault : Fault;
  cascades : list Fault;
  message : string;
  details_message : string;
  rule_applied : option string;
  cascade_count : nat
}.

(** What [aggregate_faults] returns; the key ["independent"] is missing
    from the result for an input without faults. *)
Record Aggregate : Type := {
  subsystem_faults : list SubsystemFault;
  total_faults : nat;
  root_causes : nat;
  n_cascades : nat;
  independent : option nat;
  by_severity : list (string * nat)
}.

Section Aggregator.

(** The registry in force (the module-level [SUBSYSTEMS], which the tests
    patch), and the formatting [f"{v:.{digits}f}"] of a float. *)
Variable subsystems : list (string * Subsystem).
Variable format_float : nat -> float -> string.

(** Which subsystem a fault belongs to. *)
Definition identify_subsystem (fault : Fault) : string :=
  let group := lower (group fault) in
  let name := upper (default "" (name fault)) in
  let col_a := upper (col_a fault) in
  let col_b := upper (col_b fault) in
  let matches '(subsys_id, subsys) :=
    bool_decide (group ∈ groups subsys)
    || existsb (fun indicator => is_substring indicator name
                                 || is_substring indicator col_a
                                 || is_substring indicator col_b)
               (indicators subsys) in
  match List.find matches subsystems with
  | Some (subsys_id, _) => subsys_id
  | None => "other"
  end.

(** A readable message for a fault. *)
Definition generate_human_message (fault : Fault) (subsystem : string)
  : string :=
  let name := default "Unknown" (name fault) in
  let unit := unit_ fault in
  if negb (String.eqb (status fault) "FAULT") then
    name +:+ ": " +:+ status fault
  else
    match val_a fault, val_b fault with
    | Some val_a, Some val_b =>
        let delta := abs (val_a - val_b)%float in
        if String.eqb (pair_type fault) "cmd_pos" then
          if (90 <? val_a)%float && (val_b <? 10)%float then
            name +:+ " stuck closed (commanding " +:+ format_float 0 val_a
              +:+ "% but at " +:+ format_float 0 val_b +:+ "%)"
          else if (val_a <? 10)%float && (90 <? val_b)%float then
            name +:+ " stuck open (commanding " +:+ format_float 0 val_a
              +:+ "% but at " +:+ format_float 0 val_b +:+ "%)"
          else
            name +:+ " not following command (" +:+ format_float 0 val_a
              +:+ "% cmd vs " +:+ format_float 0 val_b +:+ "% actual)"
        else if String.eqb subsystem "sat" then
          (if (val_a <? val_b)%float then "Supply air too warm ("
           else "Supply air too cold (")
            +:+ format_float 1 val_b +:+ unit +:+ " vs setpoint "
            +:+ format_float 1 val_a +:+ unit +:+ ")"
        else if String.eqb subsystem "zone" then
          (if (val_a <? val_b)%float then "Zone overheating ("
           else "Zone too cold (")
            +:+ format_float 1 val_b +:+ unit +:+ " vs setpoint "
            +:+ format_float 1 val_a +:+ unit +:+ ")"
        else
          name +:+ ": deviation of " +:+ format_float 1 delta +:+ unit
    | _, _ => name +:+ ": Sensor data missing"
    end.

(** [SUBSYSTEMS.get(id, {}).get("upstream", [])] *)
Definition upstream_of (subsys_id : string) : list string :=
  match dict_get subsystems subsys_id with
  | Some subsys => upstream subsys
  | None => []
  end.

(** [SUBSYSTEMS.get(id, {}).get("priority", 99)] *)
Definition priority_of (subsys_id : string) : Z :=
  match dict_get subsystems subsys_id with
  | Some subsys => priority subsys
  | None => 99
  end.

(** [SUBSYSTEMS.get(id, {}).get("name", id)] *)
Definition name_of (subsys_id : string) : string :=
  match dict_get subsystems subsys_id with
  | Some subsys => subsys_name subsys
  | None => subsys_id
  end.

(** [reverse_upstream_map.get(parent, [])]: the children of [parent], in
    registry order, once for every time [parent] is among their upstreams. *)
Definition reverse_upstream_map (parent : string) : list string :=
  '(child_id, child_def) ← subsystems;
  up ← upstream child_def;
  if String.eqb up parent then [child_id] else [].

(** How deep the two walks below may recurse in the model. *)
Definition walk_fuel : nat := Datatypes.S (Datatypes.S (length subsystems)).

Section Walks.

(** [faulty_subsystems], the keys of [by_subsystem]. *)
Variable faulty_subsystems : gset string.

(** The recursive walk of the upstream relation; the state is the pair of
    the sets [_visited] and [found] that the source mutates. *)
Fixpoint _collect_faulty_upstreams (fuel : nat) (subsys_id : string)
    (state : gset string * gset string) : result (gset string * gset string) :=
  match fuel with
  | O => Raise RecursionError
  | Datatypes.S fuel =>
      if bool_decide (subsys_id ∈ state.1) then Ok state
      else
        foldM (fun state upstream =>
                 let found :=
                   if bool_decide (upstream ∈ faulty_subsystems)
                   then {[upstream]} ∪ state.2 else state.2 in
                 _collect_faulty_upstreams fuel upstream (state.1, found))
              (upstream_of subsys_id)
              ({[subsys_id]} ∪ state.1, state.2)
  end.

(** The faulting upstream ids without repetition, sorted by priority. *)
Definition get_faulty_upstreams (subsys_id : string) : result (list string) :=
  state ← _collect_faulty_upstreams walk_fuel subsys_id (∅, ∅);
  Ok (sort_by (fun u v => (priority_of u <=? priority_of v)%Z)
              (elements state.2)).

(** The loop of [has_faulty_downstream] over the children of a node;
    [walk] is the recursive call. *)
Fixpoint children_loop (walk : string -> gset string -> result (bool * gset string))
    (children : list string) (visited : gset string)
  : result (bool * gset string) :=
  match children with
  | [] => Ok (false, visited)
  | child_id :: rest =>
      if bool_decide (child_id ∈ faulty_subsystems) then Ok (true, visited)
      else
        match walk child_id visited with
        | Ok (true, visited) => Ok (true, visited)
        | Ok (false, visited) => children_loop walk rest visited
        | Raise e => Raise e
        end
  end.

(** Whether a direct or transitive downstream subsystem is faulting; the
    second component is the set [_visited] after the call. *)
Fixpoint has_faulty_downstream (fuel : nat) (subsys_id : string)
    (visited : gset string) : result (bool * gset string) :=
  match fuel with
  | O => Raise RecursionError
  | Datatypes.S fuel =>
      if bool_decide (subsys_id ∈ visited) then Ok (false, visited)
      else
        children_loop (has_faulty_downstream fuel)
          (reverse_upstream_map subsys_id) ({[subsys_id]} ∪ visited)
  end.

End Walks.

(** A grouped fault (the dataclass). *)
Record AggregatedFault : Type := {
  agg_subsystem : string;
  agg_subsystem_name : string;
  agg_fault_type : FaultType;
  agg_severity : Severity;
  agg_primary_fault : Fault;
  agg_cascades : list Fault;
  agg_message : string;
  agg_details_message : string;
  agg_rule_applied : option string
}.

Definition to_dict (a : AggregatedFault) : SubsystemFault :=
  {| sf_subsystem := agg_subsystem a;
     subsystem_name := agg_subsystem_name a;
     fault_type := FaultType_value (agg_fault_type a);
     severity := Severity_value (agg_severity a);
     primary_fault := agg_primary_fault a;
     cascades := agg_cascades a;
     message := agg_message a;
     details_message := agg_details_message a;
     rule_applied := agg_rule_applied a;
     cascade_count := length (agg_cascades a) |}.

(** The loop that writes ["subsystem"] and ["human_message"] into every
    fault. *)
Definition annotate (fault : Fault) : Fault :=
  let subsys := identify_subsystem fault in
  {| group := group fault; name := name fault; status := status fault;
     col_a := col_a fault; col_b := col_b fault; val_a := val_a fault;
     val_b := val_b fault; unit_ := unit_ fault;
     pair_type := pair_type fault; subsystem := subsys;
     human_message := generate_human_message fault subsys |}.

(** [by_subsystem]: the faults of each subsystem, the subsystems in order
    of first appearance. *)
Definition group_by_subsystem (faults : list Fault)
  : list (string * list Fault) :=
  foldl (fun by_subsystem fault =>
           let subsys := subsystem fault in
           dict_set by_subsystem subsys
             (default [] (dict_get by_subsystem subsys) ++ [fault]))
        [] faults.

(** The causal rules that fire: [root_subsystems], [cascade_subsystems]
    and [applied_rules]. *)
Definition apply_rules (faults : list Fault)
  : gset string * gset string * gmap string Rule :=
  foldl (fun '(roots, cascade_set, applied) rule =>
           if condition rule faults then
             ({[root rule]} ∪ roots,
              foldl (fun acc cascade => {[cascade]} ∪ acc) cascade_set
                    (rule_cascades rule),
              foldl (fun acc cascade => <[cascade := rule]> acc) applied
                    (rule_cascades rule))
           else (roots, cascade_set, applied))
        (∅, ∅, ∅) CAUSAL_RULES.

(** The body of the loop that builds one [AggregatedFault]. *)
Definition classify (faulty_subsystems root_subsystems
                       cascade_subsystems : gset string)
    (applied_rules : gmap string Rule)
    (subsys_id : string) (subsys_faults : list Fault)
  : result AggregatedFault :=
  let info_name :=
    match dict_get subsystems subsys_id with
    | Some subsys => subsys_name subsys
    | None => title subsys_id
    end in
  let first_message :=
    match subsys_faults with
    | first :: _ => human_message first
    | [] => ""
    end in
  let decision : result (FaultType * Severity * string * string) :=
    (if bool_decide (subsys_id ∈ root_subsystems) then
       Ok (ROOT_CAUSE, Severity_FAULT, first_message, "")
     else if bool_decide (subsys_id ∈ cascade_subsystems) then
       Ok (CASCADE, Severity_CASCADE,
           match applied_rules !! subsys_id with
           | Some rule => rule_message rule
           | None => "Downstream effect of upstream fault"
           end,
           first_message)
     else
       match get_faulty_upstreams faulty_subsystems subsys_id with
       | Raise e => Raise e
       | Ok [] =>
           match has_faulty_downstream faulty_subsystems walk_fuel
                   subsys_id ∅ with
           | Raise e => Raise e
           | Ok (true, _) => Ok (ROOT_CAUSE, Severity_FAULT, first_message, "")
           | Ok (false, _) =>
               Ok (INDEPENDENT, Severity_FAULT, first_message, "")
           end
       | Ok upstream_faults =>
           Ok (CASCADE, Severity_CASCADE,
               "Likely downstream effect. Investigate upstream first: "
                 +:+ join ", " (name_of <$> upstream_faults),
               first_message)
       end) in
  match decision with
  | Raise e => Raise e
  | Ok (fault_type, severity, message, details_message) =>
      Ok {| agg_subsystem := subsys_id;
            agg_subsystem_name := info_name;
            agg_fault_type := fault_type;
            agg_severity := severity;
            agg_primary_fault := default empty_fault (head subsys_faults);
            agg_cascades := tail subsys_faults;
            agg_message := message;
            agg_details_message := details_message;
            agg_rule_applied := rule_name <$> applied_rules !! subsys_id |}
  end.

(** The sort key [(0 / 1 / 2 by fault type, priority)], compared
    lexicographically. *)
Definition type_rank (t : FaultType) : Z :=
  match t with
  | ROOT_CAUSE => 0
  | INDEPENDENT => 1
  | CASCADE => 2
  end.

Definition sort_key_le (a b : AggregatedFault) : bool :=
  let ka := (type_rank (agg_fault_type a), priority_of (agg_subsystem a)) in
  let kb := (type_rank (agg_fault_type b), priority_of (agg_subsystem b)) in
  (ka.1 <? kb.1)%Z || ((ka.1 =? kb.1)%Z && (ka.2 <=? kb.2)%Z).

(** [sum(1 for f in serialized if f["fault_type"] == t.value)] *)
Definition count_type (t : FaultType) (serialized : list SubsystemFault)
  : nat :=
  sum_list ((fun _ => 1)
            <$> List.filter (fun f => String.eqb (fault_type f)
                                        (FaultType_value t)) serialized).

(** Aggregate raw pair results into grouped faults. *)
Definition aggregate_faults (pair_results : list Fault) : result Aggregate :=
  let faults :=
    List.filter (fun p => String.eqb (status p) "FAULT") pair_results in
  match faults with
  | [] => Ok {| subsystem_faults := []; total_faults := 0; root_causes := 0;
                n_cascades := 0; independent := None; by_severity := [] |}
  | _ :: _ =>
      let faults := annotate <$> faults in
      let by_subsystem := group_by_subsystem faults in
      let '(root_subsystems, cascade_subsystems, applied_rules) :=
        apply_rules faults in
      let faulty_subsystems : gset string :=
        list_to_set (fst <$> by_subsystem) in
      aggregated ← mapM (fun '(subsys_id, subsys_faults) =>
                           classify faulty_subsystems root_subsystems
                             cascade_subsystems applied_rules
                             subsys_id subsys_faults)
                        by_subsystem;
      let aggregated := sort_by sort_key_le aggregated in
      let by_severity :=
        foldl (fun acc agg =>
                 let sev := Severity_value (agg_severity agg) in
                 dict_set acc sev (default 0 (dict_get acc sev) + 1))
              [] aggregated in
      let serialized := to_dict <$> aggregated in
      Ok {| subsystem_faults := serialized;
            total_faults := length faults;
            root_causes := count_type ROOT_CAUSE serialized;
            n_cascades := count_type CASCADE serialized;
            independent := Some (count_type INDEPENDENT serialized);
            by_severity := by_severity |}
  end.

End Aggregator.

(** *** The registries and faults of the test-suite *)

(** [_fault(group, name=...)] of test_fault_aggregator.py. *)
Definition _fault (subsystem_group name : string) (val_a val_b : float)
    (unit : string) : Fault :=
  {| group := subsystem_group; name := Some name; status := "FAULT";
     col_a := ""; col_b := ""; val_a := Some val_a; val_b := Some val_b;
     unit_ := unit; pair_type := ""; subsystem := ""; human_message := "" |}.

(** The registry of [test_dedup_upstream_two_paths]: [leaf] has the
    upstreams [mid_a] and [mid_b], which both have the upstream [top]. *)
Definition diamond_subsystems : list (string * Subsystem) :=
  dict_set
    (dict_set
       (dict_set
          (dict_set SUBSYSTEMS "top"
             {| subsys_name := "Top"; priority := 1; groups := ["top"];
                indicators := []; upstream := [] |})
          "mid_a"
          {| subsys_name := "MidA"; priority := 2; groups := ["mid_a"];
             indicators := []; upstream := ["top"] |})
       "mid_b"
       {| subsys_name := "MidB"; priority := 2; groups := ["mid_b"];
          indicators := []; upstream := ["top"] |})
    "leaf"
    {| subsys_name := "Leaf"; priority := 3; groups := ["leaf"];
       indicators := []; upstream := ["mid_a"; "mid_b"] |}.

Definition diamond_faults : list Fault :=
  [ _fault "top" "TOP-01" 72 80 "°F";
    _fault "mid_a" "MIDA-01" 72 80 "°F";
    _fault "mid_b" "MIDB-01" 72 80 "°F";
    _fault "leaf" "LEAF-01" 72 80 "°F" ].

(** The registry of [test_cycle_safety]: [valve] and [sat] are each the
    upstream of the other. *)
Definition cycle_subsystems : list (string * Subsystem) :=
  dict_set
    (dict_set SUBSYSTEMS "valve"
       {| subsys_name := "Valve/Actuator"; priority := 1;
          groups := ["valve"; "chw"; "damper"];
          indicators := ["VLV"; "VALVE"; "DMPR"; "DAMPER"; "CMD"; "POS"];
          upstream := ["sat"] |})
    "sat"
    {| subsys_name := "Supply Air Temperature"; priority := 2;
       groups := ["sat"];
       indicators := ["SAT"; "SA-TEMP"; "SA_TEMP"; "SUPPLY"];
       upstream := ["valve"] |}.

Definition cycle_faults : list Fault :=
  [ _fault "valve" "VLV-01" 95 5 "%"; _fault "sat" "SA-TEMP" 72 80 "°F" ].

(** A cycle that no causal rule covers: [imu] and [gps] are each the
    upstream of the other. *)
Definition free_cycle_subsystems : list (string * Subsystem) :=
  dict_set
    (dict_set SUBSYSTEMS "imu"
       {| subsys_name := "IMU Sensors"; priority := 1;
          groups := ["imu"; "custom"]; indicators := ["IMU"; "ACC"; "GYR"];
          upstream := ["gps"] |})
    "gps"
    {| subsys_name := "GPS"; priority := 1; groups := ["gps"];
       indicators := ["GPS"; "LAT"; "LNG"; "SPD"]; upstream := ["imu"] |}.

Definition free_cycle_faults : list Fault :=
  [ _fault "imu" "IMU-ACC" 72 80 "°F"; _fault "gps" "GPS-01" 72 80 "°F" ].

(** The fault types of the entries of [subsys_id] in a result. *)
Definition types_of (subsys_id : string) (r : Aggregate) : list string :=
  fault_type
  <$> List.filter (fun sf => String.eqb (sf_subsystem sf) subsys_id)
        (subsystem_faults r).

(** For the entries of [subsys_id] in a result: the fault type and how
    often the message names each of [names]. *)
Definition mentions (subsys_id : string) (names : list string)
    (r : Aggregate) : list (string * list nat) :=
  (fun sf => (fault_type sf, str_count (message sf) <$> names))
  <$> List.filter (fun sf => String.eqb (sf_subsystem sf) subsys_id)
        (subsystem_faults r).

(** *** The dependency graph *)

Section Graph.
Variable subsystems : list (string * Subsystem).

(** The ids the registry has an entry for. *)
Definition keys : gset string := list_to_set (subsystems.*1).

(** [u] is an immediate upstream of [v]. *)
Definition upstream_edge (v u : string) : Prop :=
  u ∈ upstream_of subsystems v.

(** [c] is an immediate downstream of [v]: the reverse map lists it. *)
Definition downstream_edge (v c : string) : Prop :=
  c ∈ reverse_upstream_map subsystems v.

Lemma dict_get_elem {V : Type} (d : list (string * V)) (k : string) (v : V) :
  dict_get d k = Some v -> (k, v) ∈ d.
Proof.
  induction d as [|[k' v'] d IH]; simpl; [discriminate|].
  destruct (String.eqb_spec k' k) as [->|Hne].
  - intros [= ->]. left.
  - intros Hget. right. now apply IH.
Qed.

Lemma elem_dict_get {V : Type} (d : list (string * V)) (k : string) (v : V) :
  NoDup (d.*1) -> (k, v) ∈ d -> dict_get d k = Some v.
Proof.
  induction d as [|[k' v'] d IH]; simpl; intros Hnd Hin.
  - inversion Hin.
  - apply NoDup_cons in Hnd as [Hk' Hnd].
    destruct (String.eqb_spec k' k) as [->|Hne].
    + apply elem_of_cons in Hin as [[= ->]|Hin]; [reflexivity|].
      exfalso. apply Hk'. apply list_elem_of_fmap. now exists (k, v).
    + apply elem_of_cons in Hin as [[= -> ->]|Hin]; [congruence|].
      now apply IH.
Qed.

Lemma upstream_edge_keys (v u : string) : upstream_edge v u -> v ∈ keys.
Proof.
  unfold upstream_edge, upstream_of, keys.
  destruct (dict_get subsystems v) as [sub|] eqn:Hget.
  - intros _. apply dict_get_elem in Hget.
    apply elem_of_list_to_set, list_elem_of_fmap. now exists (v, sub).
  - intros Hin. inversion Hin.
Qed.

Lemma downstream_edge_keys (v c : string) : downstream_edge v c -> c ∈ keys.
Proof.
  unfold downstream_edge, reverse_upstream_map, keys.
  intros Hin. apply list_elem_of_bind in Hin as ([cid cdef] & Hin & Hentry).
  apply list_elem_of_bind in Hin as (up & Hin & _).
  destruct (String.eqb up v); [|inversion Hin].
  apply list_elem_of_singleton in Hin as ->.
  apply elem_of_list_to_set, list_elem_of_fmap. now exists (cid, cdef).
Qed.

(** In a registry without repeated keys the downstream relation is the
    converse of the upstream relation. *)
Lemma downstream_edge_upstream (v c : string) :
  NoDup (subsystems.*1) -> downstream_edge v c <-> upstream_edge c v.
Proof.
  intros Hnd. unfold downstream_edge, reverse_upstream_map, upstream_edge,
    upstream_of. split.
  - intros Hin. apply list_elem_of_bind in Hin as ([cid cdef] & Hin & Hentry).
    apply list_elem_of_bind in Hin as (up & Hin & Hup).
    destruct (String.eqb_spec up v) as [Heq|Hne]; [|inversion Hin].
    apply list_elem_of_singleton in Hin. subst.
    now rewrite (elem_dict_get _ _ _ Hnd Hentry).
  - destruct (dict_get subsystems c) as [cdef|] eqn:Hget;
      [|intros Hin; inversion Hin].
    intros Hup. apply dict_get_elem in Hget.
    apply list_elem_of_bind. exists (c, cdef). split; [|exact Hget].
    apply list_elem_of_bind. exists v. split; [|exact Hup].
    rewrite String.eqb_refl. left.
Qed.

Lemma keys_size : size keys <= length subsystems.
Proof.
  unfold keys. generalize (subsystems.*1) (length_fmap fst subsystems).
  intros l <-. induction l as [|x l IH].
  - rewrite list_to_set_nil, size_empty. reflexivity.
  - rewrite list_to_set_cons, size_union_alt, size_singleton. simpl.
    pose proof (subseteq_size (C:=gset string)
                  (list_to_set l ∖ {[x]}) (list_to_set l)
                  ltac:(set_solver)). lia.
Qed.

Lemma unvisited_decreases (id : string) (visited : gset string) :
  id ∈ keys -> id ∉ visited ->
  size (keys ∖ ({[id]} ∪ visited)) < size (keys ∖ visited).
Proof. intros Hk Hv. apply subset_size. set_solver. Qed.

Lemma unvisited_mono (visited visited' : gset string) :
  visited ⊆ visited' -> size (keys ∖ visited') <= size (keys ∖ visited).
Proof. intros Hsub. apply subseteq_size. set_solver. Qed.

End Graph.

(** *** The upstream walk *)

Section UpstreamWalk.
Variable subsystems : list (string * Subsystem).
Variable faulty : gset string.

Local Notation "'edge'" := (upstream_edge subsystems).
Local Notation "'collect'" := (_collect_faulty_upstreams subsystems faulty).

(** One iteration of the loop over the upstreams of a node. *)
Definition collect_step (fuel : nat) (state : gset string * gset string)
    (upstream : string) : result (gset string * gset string) :=
  let found :=
    if bool_decide (upstream ∈ faulty)
    then {[upstream]} ∪ state.2 else state.2 in
  collect fuel upstream (state.1, found).

(** What a walk started with the sets [st] guarantees of the sets [st']
    it ends with: both sets only grow; every id added to [found] is a
    faulting id reached from one of [sources] along upstream edges; every
    id newly visited has all its upstreams visited, the faulting ones
    found. *)
Record walk_post (reached : string -> Prop)
    (st st' : gset string * gset string) : Prop := {
  post_visited : st.1 ⊆ st'.1;
  post_found : st.2 ⊆ st'.2;
  post_sound : forall u, u ∈ st'.2 -> u ∈ st.2 \/ (u ∈ faulty /\ reached u);
  post_closed : forall v, v ∈ st'.1 -> v ∉ st.1 ->
                forall u, edge v u -> u ∈ st'.1 /\ (u ∈ faulty -> u ∈ st'.2)
}.

Lemma collect_unfold (fuel : nat) (id : string)
    (st : gset string * gset string) :
  collect (Datatypes.S fuel) id st
  = if bool_decide (id ∈ st.1) then Ok st
    else foldM (collect_step fuel) (upstream_of subsystems id)
               ({[id]} ∪ st.1, st.2).
Proof. reflexivity. Qed.

(** The loop over the upstreams of [id], given the walk at lower fuel. *)
Lemma collect_loop (fuel : nat) (id : string) :
  (forall id' st,
      size (keys subsystems ∖ st.1) < fuel ->
      exists st', collect fuel id' st = Ok st'
                  /\ id' ∈ st'.1
                  /\ walk_post (tc edge id') st st') ->
  forall ups st,
    (forall w, w ∈ ups -> edge id w) ->
    size (keys subsystems ∖ st.1) < fuel ->
    exists st', foldM (collect_step fuel) ups st = Ok st'
                /\ walk_post (tc edge id) st st'
                /\ (forall w, w ∈ ups ->
                               w ∈ st'.1 /\ (w ∈ faulty -> w ∈ st'.2)).
Proof.
  intros IHfuel. induction ups as [|w ups IH]; intros st Hups Hsize.
  - exists st. split; [reflexivity|]. split.
    + split; [set_solver | set_solver | auto | tauto].
    + intros w Hw. inversion Hw.
  - cbn [foldM].
    set (found1 := if bool_decide (w ∈ faulty)
                   then {[w]} ∪ st.2 else st.2).
    change (collect_step fuel st w) with (collect fuel w (st.1, found1)).
    assert (Hfound1 : st.2 ⊆ found1 /\ (w ∈ faulty -> w ∈ found1)
                      /\ (forall u, u ∈ found1 ->
                                     u ∈ st.2 \/ (u = w /\ w ∈ faulty))).
    { unfold found1. case_bool_decide; set_solver. }
    destruct Hfound1 as (Hf1 & Hf2 & Hf3).
    destruct (IHfuel w (st.1, found1) Hsize) as (st1 & -> & Hw1 & P1).
    simpl. destruct P1 as [Pv1 Pf1 Ps1 Pc1]. simpl in *.
    destruct (IH st1) as (st' & -> & P' & Hall).
    { intros x Hx. apply Hups. now right. }
    { pose proof (unvisited_mono subsystems _ _ Pv1). lia. }
    destruct P' as [Pv' Pf' Ps' Pc'].
    assert (Hedge : edge id w) by (apply Hups; left).
    exists st'. split; [reflexivity|]. split; [split|].
    + set_solver.
    + set_solver.
    + intros u Hu. destruct (Ps' u Hu) as [Hu1|Hu1]; [|now right].
      destruct (Ps1 u Hu1) as [Hu2|[Hfu Hr]].
      * destruct (Hf3 u Hu2) as [|[-> Hfw]]; [now left|].
        right. split; [exact Hfw | now apply tc_once].
      * right. split; [exact Hfu|]. eapply tc_l; eauto.
    + intros v Hv Hnv u Hvu.
      destruct (decide (v ∈ st1.1)) as [Hin|Hnin].
      * destruct (Pc1 v Hin Hnv u Hvu) as [Hu1 Hu2]. set_solver.
      * exact (Pc' v Hv Hnin u Hvu).
    + intros x Hx. apply elem_of_cons in Hx as [->|Hx]; [|now apply Hall].
      set_solver.
Qed.

(** The walk returns whenever the fuel exceeds the number of registry
    entries not yet visited, and its result meets [walk_post]. *)
Lemma collect_spec (fuel : nat) :
  forall id st,
    size (keys subsystems ∖ st.1) < fuel ->
    exists st', collect fuel id st = Ok st'
                /\ id ∈ st'.1
                /\ walk_post (tc edge id) st st'.
Proof.
  induction fuel as [|fuel IH]; intros id st Hsize; [lia|].
  rewrite collect_unfold. case_bool_decide as Hvis.
  - exists st. split; [reflexivity|]. split; [exact Hvis|].
    split; [set_solver | set_solver | auto | tauto].
  - destruct (upstream_of subsystems id) as [|w0 ups0] eqn:Hups.
    + exists ({[id]} ∪ st.1, st.2). split; [reflexivity|].
      split; [set_solver|].
      split; simpl; [set_solver | set_solver | auto |].
      intros v Hv Hnv u Hvu.
      assert (v = id) as -> by set_solver.
      unfold upstream_edge in Hvu. rewrite Hups in Hvu. inversion Hvu.
    + assert (Hkey : id ∈ keys subsystems).
      { apply (upstream_edge_keys subsystems id w0).
        unfold upstream_edge. rewrite Hups. left. }
      pose proof (unvisited_decreases subsystems id st.1 Hkey Hvis) as Hdec.
      destruct (collect_loop fuel id IH (w0 :: ups0)
                  ({[id]} ∪ st.1, st.2)) as (st' & Hrun & P & Hall).
      { intros w Hw. unfold upstream_edge. now rewrite Hups. }
      { simpl. lia. }
      destruct P as [Pv Pf Ps Pc]. simpl in *.
      exists st'. split; [exact Hrun|]. split; [set_solver|].
      split; [set_solver | set_solver | exact Ps |].
      intros v Hv Hnv u Hvu.
      destruct (decide (v = id)) as [->|Hne].
      * apply Hall. unfold upstream_edge in Hvu. now rewrite Hups in Hvu.
      * apply (Pc v Hv); [set_solver | exact Hvu].
Qed.

(** From empty sets the walk finds exactly the faulting ids that are
    reachable along one or more upstream edges. *)
Lemma collect_reachable (id : string) :
  exists st',
    collect (walk_fuel subsystems) id (∅, ∅) = Ok st'
    /\ forall u, u ∈ st'.2 <-> u ∈ faulty /\ tc edge id u.
Proof.
  destruct (collect_spec (walk_fuel subsystems) id (∅, ∅))
    as (st' & Hrun & Hid & [Pv Pf Ps Pc]).
  { pose proof (keys_size subsystems).
    pose proof (unvisited_mono subsystems ∅ ∅ ltac:(set_solver)).
    pose proof (subseteq_size (keys subsystems ∖ ∅) (keys subsystems)
                  ltac:(set_solver)).
    unfold walk_fuel. simpl. lia. }
  exists st'. split; [exact Hrun|]. simpl in *. intros u. split.
  - intros Hu. destruct (Ps u Hu) as [Hempty|H]; [set_solver | exact H].
  - intros [Hfu Hreach].
    assert (Hvisited : forall v, rtc edge id v -> v ∈ st'.1).
    { apply (rtc_ind_r (fun v => v ∈ st'.1) id); [exact Hid|].
      intros y z _ Hyz IHv.
      apply (Pc y IHv ltac:(set_solver) z Hyz). }
    apply tc_nsteps in Hreach as (n & Hn & Hsteps).
    destruct n as [|n]; [lia|].
    apply nsteps_inv_r in Hsteps as (v & Hv & Hvu).
    apply rtc_nsteps_2 in Hv.
    apply (Pc v (Hvisited v Hv) ltac:(set_solver) u Hvu). exact Hfu.
Qed.

End UpstreamWalk.

(** *** The downstream walk *)

Section DownstreamWalk.
Variable subsystems : list (string * Subsystem).
Variable faulty : gset string.

Local Notation "'edge'" := (downstream_edge subsystems).
Local Notation "'walk'" := (has_faulty_downstream subsystems faulty).

(** What a walk started with the set [visited] guarantees of its answer
    [b] and of the set [visited'] it ends with. *)
Record down_post (id : string) (visited : gset string)
    (r : bool * gset string) : Prop := {
  down_visited : visited ⊆ r.2;
  down_true : r.1 = true -> exists d, d ∈ faulty /\ tc edge id d;
  down_false : r.1 = false ->
               forall v, v ∈ r.2 -> v ∉ visited ->
               forall c, edge v c -> c ∈ r.2 /\ c ∉ faulty
}.

Lemma children_loop_spec (fuel : nat) (id : string) :
  (forall id' visited,
      id' ∈ keys subsystems ->
      size (keys subsystems ∖ visited) < fuel ->
      exists r, walk fuel id' visited = Ok r
                /\ (r.1 = false -> id' ∈ r.2)
                /\ down_post id' visited r) ->
  forall children visited,
    (forall c, c ∈ children -> edge id c) ->
    size (keys subsystems ∖ visited) < fuel ->
    exists r, children_loop faulty (walk fuel) children visited = Ok r
              /\ down_post id visited r
              /\ (r.1 = false ->
                  forall c, c ∈ children -> c ∈ r.2 /\ c ∉ faulty).
Proof.
  intros IHfuel. induction children as [|c rest IH]; intros visited Hch Hsize.
  - exists (false, visited). split; [reflexivity|]. split.
    + split; simpl; [set_solver | discriminate | tauto].
    + intros _ c Hc. inversion Hc.
  - simpl. assert (Hedge : edge id c) by (apply Hch; left).
    case_bool_decide as Hfc.
    { exists (true, visited). split; [reflexivity|]. split.
      - split; simpl; [set_solver | | discriminate].
        intros _. exists c. split; [exact Hfc | now apply tc_once].
      - discriminate. }
    destruct (IHfuel c visited) as ([b1 v1] & -> & Hc1 & [Pv1 Pt1 Pf1]);
      [now apply (downstream_edge_keys subsystems id) | exact Hsize |].
    simpl in *. destruct b1.
    { exists (true, v1). split; [reflexivity|]. split.
      - split; simpl; [exact Pv1 | | discriminate].
        intros _. destruct (Pt1 eq_refl) as (d & Hd & Hcd).
        exists d. split; [exact Hd|]. eapply tc_l; eauto.
      - discriminate. }
    destruct (IH v1) as ([b v'] & -> & [Pv' Pt' Pf'] & Hall).
    { intros x Hx. apply Hch. now right. }
    { pose proof (unvisited_mono subsystems _ _ Pv1). lia. }
    simpl in *. exists (b, v'). split; [reflexivity|]. split.
    + split; simpl; [set_solver | exact Pt' |].
      intros -> v Hv Hnv x Hvx.
      destruct (decide (v ∈ v1)) as [Hin|Hnin].
      * destruct (Pf1 eq_refl v Hin Hnv x Hvx) as [Hx1 Hx2]. set_solver.
      * exact (Pf' eq_refl v Hv Hnin x Hvx).
    + simpl. intros -> x Hx. apply elem_of_cons in Hx as [->|Hx].
      * split; [|exact Hfc]. specialize (Hc1 eq_refl). set_solver.
      * now apply Hall.
Qed.

(** The fuel a walk from [id] needs: one more than the registry entries
    not yet visited, and one more again when [id] is not an entry. *)
Definition down_need (id : string) (visited : gset string) : nat :=
  size (keys subsystems ∖ visited)
  + (if bool_decide (id ∈ keys subsystems) then 0 else 1).

Lemma walk_spec (fuel : nat) :
  forall id visited,
    down_need id visited < fuel ->
    exists r, walk fuel id visited = Ok r
              /\ (r.1 = false -> id ∈ r.2)
              /\ down_post id visited r.
Proof.
  induction fuel as [|fuel IH]; intros id visited Hneed; [lia|].
  simpl. case_bool_decide as Hvis.
  - exists (false, visited). split; [reflexivity|]. split; [auto|].
    split; simpl; [set_solver | discriminate | tauto].
  - destruct (children_loop_spec fuel id) with
      (children := reverse_upstream_map subsystems id)
      (visited := {[id]} ∪ visited)
      as ([b v'] & Hrun & [Pv Pt Pf] & Hall).
    + intros id' visited' Hkey Hsize. apply IH.
      unfold down_need. rewrite bool_decide_eq_true_2 by exact Hkey. lia.
    + auto.
    + unfold down_need in Hneed. case_bool_decide as Hkey.
      * pose proof (unvisited_decreases subsystems id visited Hkey Hvis).
        lia.
      * pose proof (unvisited_mono subsystems visited ({[id]} ∪ visited)
                      ltac:(set_solver)). lia.
    + simpl in *. exists (b, v'). split; [exact Hrun|]. simpl.
      split; [intros _; set_solver|].
      split; simpl; [set_solver | exact Pt |].
      intros -> v Hv Hnv c Hvc.
      destruct (decide (v = id)) as [->|Hne].
      * now apply Hall.
      * apply (Pf eq_refl v Hv); [set_solver | exact Hvc].
Qed.

(** From the empty set the walk answers whether a faulting id is reachable
    along one or more downstream edges. *)
Lemma walk_reachable (id : string) :
  exists r,
    walk (walk_fuel subsystems) id ∅ = Ok r
    /\ (r.1 = true <-> exists d, d ∈ faulty /\ tc edge id d).
Proof.
  destruct (walk_spec (walk_fuel subsystems) id ∅)
    as ([b v'] & Hrun & Hid & [Pv Pt Pf]).
  { pose proof (keys_size subsystems).
    pose proof (subseteq_size (keys subsystems ∖ ∅) (keys subsystems)
                  ltac:(set_solver)).
    unfold down_need, walk_fuel. case_bool_decide; simpl; lia. }
  exists (b, v'). split; [exact Hrun|]. simpl in *.
  split; [exact Pt|]. intros (d & Hd & Hreach).
  destruct b; [reflexivity|]. exfalso.
  assert (Hvisited : forall v, rtc edge id v -> v ∈ v').
  { apply (rtc_ind_r (fun v => v ∈ v') id); [now apply Hid|].
    intros y z _ Hyz IHv.
    apply (Pf eq_refl y IHv ltac:(set_solver) z Hyz). }
  apply tc_nsteps in Hreach as (n & Hn & Hsteps).
  destruct n as [|n]; [lia|].
  apply nsteps_inv_r in Hsteps as (v & Hv & Hvd).
  apply rtc_nsteps_2 in Hv.
  apply (Pf eq_refl v (Hvisited v Hv) ltac:(set_solver) d Hvd). exact Hd.
Qed.

End DownstreamWalk.

(** *** The classification of one call *)

Section Classification.
Variable subsystems : list (string * Subsystem).
Variable format_float : nat -> float -> string.
Variable pair_results : list Fault.

(** The values [aggregate_faults] binds on its way: the annotated faults,
    [by_subsystem], [faulty_subsystems] and the sets the rules fill. *)
Definition faults_of : list Fault :=
  annotate subsystems format_float
  <$> List.filter (fun p => String.eqb (status p) "FAULT") pair_results.

Definition by_subsystem_of : list (string * list Fault) :=
  group_by_subsystem faults_of.

Definition faulty_of : gset string := list_to_set (by_subsystem_of.*1).

Definition root_subsystems_of : gset string := (apply_rules faults_of).1.1.

Definition cascade_subsystems_of : gset string := (apply_rules faults_of).1.2.

(** A subsystem a causal rule classifies, as a root or as a cascade. *)
Definition rule_covered (subsys_id : string) : Prop :=
  subsys_id ∈ root_subsystems_of \/ subsys_id ∈ cascade_subsystems_of.

(** A faulting subsystem reached from [subsys_id] along one or more
    upstream edges, by any path. *)
Definition faulty_ancestor (subsys_id u : string) : Prop :=
  u ∈ faulty_of /\ tc (upstream_edge subsystems) subsys_id u.

(** A faulting subsystem reached from [subsys_id] along one or more
    downstream edges. *)
Definition faulty_descendant (subsys_id d : string) : Prop :=
  d ∈ faulty_of /\ tc (downstream_edge subsystems) subsys_id d.

(** The message of a topology cascade over the ancestors [l]. *)
Definition cascade_message (l : list string) : string :=
  "Likely downstream effect. Investigate upstream first: "
  +:+ join ", " (name_of subsystems <$> l).

(** What the topology fallback owes a subsystem. *)
Record topology_spec (subsys_id : string) (fault_type message : string)
  : Prop := {
  topo_cascade_iff :
    fault_type = "cascade" <-> exists u, faulty_ancestor subsys_id u;
  topo_message :
    (exists u, faulty_ancestor subsys_id u) ->
    exists l, message = cascade_message l
              /\ NoDup l
              /\ (forall u, u ∈ l <-> faulty_ancestor subsys_id u)
              /\ Sorted (fun u v => (priority_of subsystems u
                                      <= priority_of subsystems v)%Z) l;
  topo_root :
    ~ (exists u, faulty_ancestor subsys_id u) ->
    (exists d, faulty_descendant subsys_id d) ->
    fault_type = "root_cause";
  topo_independent :
    ~ (exists u, faulty_ancestor subsys_id u) ->
    ~ (exists d, faulty_descendant subsys_id d) ->
    fault_type = "independent"
}.

Lemma get_faulty_upstreams_spec (subsys_id : string) :
  exists l,
    get_faulty_upstreams subsystems faulty_of subsys_id = Ok l
    /\ NoDup l
    /\ (forall u, u ∈ l <-> faulty_ancestor subsys_id u)
    /\ Sorted (fun u v => (priority_of subsystems u
                            <= priority_of subsystems v)%Z) l.
Proof.
  unfold get_faulty_upstreams.
  destruct (collect_reachable subsystems faulty_of subsys_id)
    as (st & -> & Hfound).
  simpl. eexists. split; [reflexivity|].
  set (le := fun u v => (priority_of subsystems u
                         <=? priority_of subsystems v)%Z).
  pose proof (sort_by_perm le (elements st.2)) as Hperm.
  split; [|split].
  - rewrite Hperm. apply NoDup_elements.
  - intros u. rewrite Hperm, elem_of_elements. apply Hfound.
  - assert (Hs : Sorted (fun a b => le a b = true)
                   (sort_by le (elements st.2))).
    { apply sort_by_sorted. unfold le. intros x y Hxy.
      apply Z.leb_gt in Hxy. apply Z.leb_le. lia. }
    revert Hs. generalize (sort_by le (elements st.2)).
    induction 1 as [|x l Hs IH Hhd]; constructor; [exact IH|].
    destruct Hhd; constructor. unfold le in *. now apply Z.leb_le.
Qed.

Lemma classify_ok (subsys_id : string) (subsys_faults : list Fault) :
  exists a,
    classify subsystems faulty_of root_subsystems_of cascade_subsystems_of
      (apply_rules faults_of).2 subsys_id subsys_faults = Ok a
    /\ agg_subsystem a = subsys_id
    /\ (~ rule_covered subsys_id ->
        topology_spec subsys_id (FaultType_value (agg_fault_type a))
          (agg_message a)).
Proof.
  unfold classify, rule_covered.
  case_bool_decide as Hroot.
  { eexists. split; [reflexivity|]. split; [reflexivity|]. tauto. }
  case_bool_decide as Hcasc.
  { eexists. split; [reflexivity|]. split; [reflexivity|]. tauto. }
  destruct (get_faulty_upstreams_spec subsys_id)
    as (l & -> & Hnd & Hl & Hsorted).
  destruct l as [|u0 l].
  - assert (Hnone : ~ exists u, faulty_ancestor subsys_id u).
    { intros [u Hu]. apply Hl in Hu. inversion Hu. }
    destruct (walk_reachable subsystems faulty_of subsys_id)
      as ([b v'] & -> & Hb). simpl in Hb.
    assert (Hdesc : (exists d, faulty_descendant subsys_id d) <-> b = true).
    { unfold faulty_descendant. tauto. }
    destruct b; (eexists; split; [reflexivity|]; split; [reflexivity|]);
      intros _; simpl; split.
    + split; [discriminate | intros Hu; contradiction].
    + intros Hu. contradiction.
    + reflexivity.
    + intros _ Hno. exfalso. apply Hno, Hdesc. reflexivity.
    + split; [discriminate | intros Hu; contradiction].
    + intros Hu. contradiction.
    + intros _ Hd. apply Hdesc in Hd. discriminate.
    + reflexivity.
  - assert (Hsome : exists u, faulty_ancestor subsys_id u).
    { exists u0. apply Hl. left. }
    eexists. split; [reflexivity|]. split; [reflexivity|].
    intros _. simpl. split.
    + tauto.
    + intros _. exists (u0 :: l). auto.
    + intros Hno. contradiction.
    + intros Hno. contradiction.
Qed.

(** [aggregate_faults] returns, and its entries are the classifications of
    the faulting subsystems. *)
Lemma aggregate_faults_entries :
  exists r aggregated,
    aggregate_faults subsystems format_float pair_results = Ok r
    /\ Forall2
         (fun entry a =>
            classify subsystems faulty_of root_subsystems_of
              cascade_subsystems_of (apply_rules faults_of).2
              entry.1 entry.2 = Ok a)
         by_subsystem_of aggregated
    /\ subsystem_faults r ≡ₚ to_dict <$> aggregated.
Proof.
  unfold aggregate_faults, faulty_of, root_subsystems_of,
    cascade_subsystems_of, by_subsystem_of, faults_of.
  destruct (List.filter _ pair_results) as [|f fs] eqn:Hfaults.
  { exists {| subsystem_faults := []; total_faults := 0; root_causes := 0;
              n_cascades := 0; independent := None; by_severity := [] |}, [].
    split; [reflexivity|]. split; [constructor | reflexivity]. }
  set (faults := annotate subsystems format_float <$> f :: fs).
  pose proof (classify_ok) as Hok.
  unfold faulty_of, root_subsystems_of, cascade_subsystems_of,
    by_subsystem_of, faults_of in Hok. rewrite Hfaults in Hok.
  fold faults in Hok.
  destruct (apply_rules faults) as [[roots cascade_set] applied] eqn:Hrules.
  simpl in Hok.
  destruct (mapM_ok
              (fun '(subsys_id, subsys_faults) =>
                 classify subsystems
                   (list_to_set (group_by_subsystem faults).*1)
                   roots cascade_set applied subsys_id subsys_faults)
              (group_by_subsystem faults)) as [aggregated Hagg].
  { intros [sid sfs] _. destruct (Hok sid sfs) as (a & Ha & _). eauto. }
  rewrite Hagg. simpl. eexists. exists aggregated.
  split; [reflexivity|]. split.
  - apply mapM_Forall2 in Hagg.
    eapply Forall2_impl; [exact Hagg|].
    intros [sid sfs] a. auto.
  - simpl. now rewrite sort_by_perm.
Qed.

(** Every faulting subsystem has an entry and every entry is of a faulting
    subsystem; an entry that no rule covers meets [topology_spec]. *)
Lemma aggregate_faults_topology :
  exists r,
    aggregate_faults subsystems format_float pair_results = Ok r
    /\ (forall subsys_id,
          subsys_id ∈ faulty_of
          <-> exists sf, sf ∈ subsystem_faults r
                         /\ sf_subsystem sf = subsys_id)
    /\ (forall sf,
          sf ∈ subsystem_faults r ->
          ~ rule_covered (sf_subsystem sf) ->
          topology_spec (sf_subsystem sf) (fault_type sf) (message sf)).
Proof.
  destruct aggregate_faults_entries as (r & aggregated & Hr & Hall & Hperm).
  exists r. split; [exact Hr|].
  assert (Hentry : forall sf,
             sf ∈ subsystem_faults r <->
             exists entry a,
               entry ∈ by_subsystem_of
               /\ classify subsystems faulty_of root_subsystems_of
                    cascade_subsystems_of (apply_rules faults_of).2
                    entry.1 entry.2 = Ok a
               /\ sf = to_dict a).
  { intros sf. rewrite Hperm, list_elem_of_fmap. split.
    - intros (a & -> & Ha).
      apply list_elem_of_lookup in Ha as [i Hi].
      destruct (Forall2_lookup_r _ _ _ _ _ Hall Hi) as (entry & He & Hc).
      exists entry, a. split; [|auto].
      apply list_elem_of_lookup. eauto.
    - intros (entry & a & He & Hc & ->).
      apply list_elem_of_lookup in He as [i Hi].
      destruct (Forall2_lookup_l _ _ _ _ _ Hall Hi) as (a' & Ha' & Hc').
      exists a. split; [reflexivity|].
      assert (a' = a) as -> by congruence.
      apply list_elem_of_lookup. eauto. }
  split.
  - intros sid. unfold faulty_of.
    rewrite elem_of_list_to_set, list_elem_of_fmap. split.
    + intros ([sid' sfs] & -> & He).
      destruct (classify_ok sid' sfs) as (a & Ha & Hsub & _).
      exists (to_dict a). split; [|exact Hsub].
      apply Hentry. exists (sid', sfs), a. auto.
    + intros (sf & Hsf & <-).
      apply Hentry in Hsf as ([sid' sfs] & a & He & Hc & ->).
      destruct (classify_ok sid' sfs) as (a' & Ha' & Hsub & _).
      simpl in Hc. assert (a' = a) as -> by congruence.
      exists (sid', sfs). simpl. auto.
  - intros sf Hsf Hnot.
    apply Hentry in Hsf as ([sid' sfs] & a & He & Hc & ->).
    destruct (classify_ok sid' sfs) as (a' & Ha' & Hsub & Htopo).
    simpl in Hc. assert (a' = a) as -> by congruence.
    simpl in *. rewrite Hsub in *. now apply Htopo.
Qed.

End Classification.

(** C5. Every faulting subsystem has an entry in the result.  An entry
    that no causal rule covers is CASCADE exactly when the subsystem has a
    faulting ancestor (reached along upstream edges by any path); its
    message then lists the faulting ancestors without repetition, each one
    once, in order of priority.  Without a faulting ancestor the entry is
    ROOT_CAUSE when some direct or transitive downstream subsystem is
    faulting and INDEPENDENT otherwise.  In a registry without repeated
    keys, downstream is the converse of upstream.  In the diamond with all
    four subsystems faulting, [leaf] is CASCADE and its message names
    [Top], [MidA] and [MidB] once each. *)
Theorem topology_classification (subsystems : list (string * Subsystem))
    (format_float : nat -> float -> string) (pair_results : list Fault) :
  (exists r,
     aggregate_faults subsystems format_float pair_results = Ok r
     /\ (forall subsys_id,
           subsys_id ∈ faulty_of subsystems format_float pair_results
           <-> exists sf, sf ∈ subsystem_faults r
                          /\ sf_subsystem sf = subsys_id)
     /\ (forall sf,
           sf ∈ subsystem_faults r ->
           ~ rule_covered subsystems format_float pair_results
               (sf_subsystem sf) ->
           topology_spec subsystems format_float pair_results
             (sf_subsystem sf) (fault_type sf) (message sf)))
  /\ (NoDup (subsystems.*1) ->
      forall v c, downstream_edge subsystems v c
                  <-> upstream_edge subsystems c v)
  /\ mentions "leaf" ["Top"; "MidA"; "MidB"]
       <$> aggregate_faults diamond_subsystems format_float diamond_faults
     = Ok [("cascade", [1; 1; 1])].
Proof.
  split; [apply aggregate_faults_topology|]. split.
  - intros Hnd v c. now apply downstream_edge_upstream.
  - vm_compute. reflexivity.
Qed.

(** C6. [aggregate_faults] returns on every registry, cyclic or not: both
    walks return from every start, because each recursive call either
    meets a visited id or visits a new one.  When two faulting subsystems
    that no rule covers are each the only upstream of the other, both are
    CASCADE, so they are not both ROOT_CAUSE; in the rule-covered cycle of
    the test-suite [valve] is ROOT_CAUSE and [sat] is CASCADE. *)
Theorem aggregate_faults_terminates (subsystems : list (string * Subsystem))
    (format_float : nat -> float -> string) (pair_results : list Fault) :
  (exists r, aggregate_faults subsystems format_float pair_results = Ok r)
  /\ (forall faulty id,
        (exists st, _collect_faulty_upstreams subsystems faulty
                      (walk_fuel subsystems) id (∅, ∅) = Ok st)
        /\ (exists r, has_faulty_downstream subsystems faulty
                        (walk_fuel subsystems) id ∅ = Ok r))
  /\ (forall a b r,
        upstream_of subsystems a = [b] ->
        upstream_of subsystems b = [a] ->
        a ∈ faulty_of subsystems format_float pair_results ->
        b ∈ faulty_of subsystems format_float pair_results ->
        ~ rule_covered subsystems format_float pair_results a ->
        ~ rule_covered subsystems format_float pair_results b ->
        aggregate_faults subsystems format_float pair_results = Ok r ->
        forall sf, sf ∈ subsystem_faults r ->
                   sf_subsystem sf = a \/ sf_subsystem sf = b ->
                   fault_type sf = "cascade")
  /\ (fun r => (types_of "valve" r, types_of "sat" r))
     <$> aggregate_faults cycle_subsystems format_float cycle_faults
     = Ok (["root_cause"], ["cascade"]).
Proof.
  split; [|split; [|split]].
  - destruct (aggregate_faults_topology subsystems format_float pair_results)
      as (r & Hr & _). eauto.
  - intros faulty id. split.
    + destruct (collect_reachable subsystems faulty id) as (st & Hst & _).
      eauto.
    + destruct (walk_reachable subsystems faulty id) as (r & Hr & _). eauto.
  - intros a b r Ha Hb Hfa Hfb Hna Hnb Hr sf Hsf Hsub.
    destruct (aggregate_faults_topology subsystems format_float pair_results)
      as (r' & Hr' & _ & Htopo).
    assert (r' = r) as -> by congruence.
    assert (Hab : upstream_edge subsystems a b)
      by (unfold upstream_edge; rewrite Ha; left).
    assert (Hba : upstream_edge subsystems b a)
      by (unfold upstream_edge; rewrite Hb; left).
    destruct Hsub as [Hsub|Hsub].
    + apply (Htopo sf Hsf); [now rewrite Hsub|].
      exists b. rewrite Hsub. split; [exact Hfb | now apply tc_once].
    + apply (Htopo sf Hsf); [now rewrite Hsub|].
      exists a. rewrite Hsub. split; [exact Hfa | now apply tc_once].
  - vm_compute. reflexivity.
Qed.

(** [aggregate_faults_terminates] on the cycle that no rule covers: both
    ends are CASCADE. *)
Lemma aggregate_faults_terminates_witness :
  exists r,
    aggregate_faults free_cycle_subsystems (fun _ _ => "") free_cycle_faults
    = Ok r
    /\ forall sf, sf ∈ subsystem_faults r ->
                  sf_subsystem sf = "imu" \/ sf_subsystem sf = "gps" ->
                  fault_type sf = "cascade".
Proof.
  destruct (aggregate_faults_terminates free_cycle_subsystems
              (fun _ _ => "") free_cycle_faults)
    as ((r & Hr) & _ & Hcycle & _).
  exists r. split; [exact Hr|].
  apply (Hcycle "imu" "gps" r); try reflexivity; try exact Hr.
  - unfold rule_covered. intros [H|H]; vm_compute in H; discriminate.
  - unfold rule_covered. intros [H|H]; vm_compute in H; discriminate.
Defined.

End FaultAggregator.

(** ** alert_engine.py *)
Module AlertEngine.

Definition CONFIRM_AFTER : Z := 3.
Definition CLEAR_AFTER : Z := CONFIRM_AFTER * 2.
Definition COOLDOWN_SECONDS : Z := 1800.

(** A row of [alert_state]; [fault_key] is the primary key. *)
Record AlertState : Type := {
  fault_key : string;
  building_id : Z;
  present_streak : Z;
  absent_streak : Z;
  active : bool;
  confirmed : bool;
  last_alerted_at : string;
  last_seen_at : string
}.

(** The dictionary [_build_details] serialises to JSON. *)
Record Details : Type := {
  d_details_message : string;
  d_primary_fault : FaultAggregator.Fault;
  d_cascades : list FaultAggregator.Fault;
  d_fault_type : string;
  d_rule_applied : option string;
  d_cascade_count : nat
}.

(** A row of [alert_events] (without the generated [id]). *)
Record AlertEvent : Type := {
  ev_building_id : Z;
  ev_fault_key : string;
  ev_subsystem : string;
  ev_subsystem_name : string;
  ev_severity : string;
  ev_title : string;
  ev_message : string;
  ev_details : Details;
  created_at : string
}.

(** An entry of the list [update] returns. *)
Record Fired : Type := {
  f_fault_key : string;
  f_subsystem : string;
  f_subsystem_name : string;
  f_title : string;
  f_message : string;
  f_severity : string
}.

(** The two tables as the session sees them. *)
Record Db : Type := {
  alert_state : gmap string AlertState;
  alert_events : list AlertEvent
}.

Definition empty_db : Db := {| alert_state := ∅; alert_events := [] |}.

(** A point in time: microseconds since the epoch and whether the value
    carries a UTC offset. *)
Record datetime : Type := {
  aware : bool;
  micros : Z
}.

(** [(current - last).total_seconds() < seconds]; the difference of an
    aware and a naive value raises [TypeError]. *)
Definition seconds_lt (current last : datetime) (seconds : Z) : result bool :=
  if Bool.eqb (aware current) (aware last)
  then Ok (micros current - micros last <? seconds * 1000000)%Z
  else Raise TypeError.

(** [s.replace("Z", "+00:00")] *)
Fixpoint replace_Z (x : string) : string :=
  match x with
  | EmptyString => EmptyString
  | String c rest =>
      if Ascii.eqb c "Z" then "+00:00" +:+ replace_Z rest
      else String c (replace_Z rest)
  end.

Definition _build_fault_key (building_id : Z)
    (fault : FaultAggregator.SubsystemFault) : string :=
  let pf := FaultAggregator.primary_fault fault in
  str_of_Z building_id +:+ ":" +:+ FaultAggregator.sf_subsystem fault
    +:+ ":" +:+ FaultAggregator.pair_type pf
    +:+ ":" +:+ default "" (FaultAggregator.name pf).

Definition _build_title (fault : FaultAggregator.SubsystemFault) : string :=
  let pf := FaultAggregator.primary_fault fault in
  FaultAggregator.subsystem_name fault +:+ ": "
    +:+ default "Fault" (FaultAggregator.name pf).

Definition _build_details (fault : FaultAggregator.SubsystemFault)
  : Details :=
  {| d_details_message := FaultAggregator.details_message fault;
     d_primary_fault := FaultAggregator.primary_fault fault;
     d_cascades := FaultAggregator.cascades fault;
     d_fault_type := FaultAggregator.fault_type fault;
     d_rule_applied := FaultAggregator.rule_applied fault;
     d_cascade_count := FaultAggregator.cascade_count fault |}.

Section Engine.

(** [datetime.fromisoformat]: [None] stands for the [ValueError] of a
    malformed string. *)
Variable fromisoformat : string -> option datetime.

Definition parse_iso (x : string) : result datetime :=
  match fromisoformat (replace_Z x) with
  | Some d => Ok d
  | None => Raise ValueError
  end.

(** The cooldown test of a confirmation: [true] when the previous alert is
    less than [COOLDOWN_SECONDS] before [now].  A [ValueError] or
    [TypeError] of the [try] block is passed over. *)
Definition in_cooldown (last_alerted_at now : string) : result bool :=
  if negb (String.eqb last_alerted_at "") then
    match (last ← parse_iso last_alerted_at;
           current ← parse_iso now;
           seconds_lt current last COOLDOWN_SECONDS) with
    | Ok b => Ok b
    | Raise ValueError => Ok false
    | Raise TypeError => Ok false
    | Raise e => Raise e
    end
  else Ok false.

(** The state [update] creates for a key it has not seen. *)
Definition new_state (key : string) (building_id : Z) : AlertState :=
  {| fault_key := key; building_id := building_id; present_streak := 0;
     absent_streak := 0; active := false; confirmed := false;
     last_alerted_at := ""; last_seen_at := "" |}.

(** The body of the loop over the present faults, for one key. *)
Definition present_step (state : AlertState) (key : string)
    (fault : FaultAggregator.SubsystemFault) (now : string)
  : result (AlertState * option (AlertEvent * Fired)) :=
  let state :=
    {| fault_key := fault_key state; building_id := building_id state;
       present_streak := present_streak state + 1;
       absent_streak := 0;
       active := true;
       confirmed := confirmed state;
       last_alerted_at := last_alerted_at state;
       last_seen_at := now |} in
  if (CONFIRM_AFTER <=? present_streak state)%Z && negb (confirmed state)
  then
    cooling ← in_cooldown (last_alerted_at state) now;
    if cooling : bool then
      Ok ({| fault_key := fault_key state; building_id := building_id state;
             present_streak := present_streak state;
             absent_streak := absent_streak state;
             active := true;
             confirmed := true;
             last_alerted_at := last_alerted_at state;
             last_seen_at := last_seen_at state |}, None)
    else
      let subsystem := FaultAggregator.sf_subsystem fault in
      let subsystem_name := FaultAggregator.subsystem_name fault in
      let title := _build_title fault in
      let message := FaultAggregator.message fault in
      let severity := FaultAggregator.severity fault in
      let details := _build_details fault in
      Ok ({| fault_key := fault_key state; building_id := building_id state;
             present_streak := present_streak state;
             absent_streak := absent_streak state;
             active := active state;
             confirmed := true;
             last_alerted_at := now;
             last_seen_at := last_seen_at state |},
          Some ({| ev_building_id := building_id state;
                   ev_fault_key := key;
                   ev_subsystem := subsystem;
                   ev_subsystem_name := subsystem_name;
                   ev_severity := severity;
                   ev_title := title;
                   ev_message := message;
                   ev_details := details;
                   created_at := now |},
                {| f_fault_key := key; f_subsystem := subsystem;
                   f_subsystem_name := subsystem_name; f_title := title;
                   f_message := message; f_severity := severity |}))
  else Ok (state, None).

(** The body of the loop over the tracked keys that are absent. *)
Definition absent_step (state : AlertState) : AlertState :=
  let state :=
    {| fault_key := fault_key state; building_id := building_id state;
       present_streak := 0;
       absent_streak := absent_streak state + 1;
       active := active state; confirmed := confirmed state;
       last_alerted_at := last_alerted_at state;
       last_seen_at := last_seen_at state |} in
  if (CLEAR_AFTER <=? absent_streak state)%Z then
    {| fault_key := fault_key state; building_id := building_id state;
       present_streak := present_streak state;
       absent_streak := absent_streak state;
       active := false; confirmed := false;
       last_alerted_at := last_alerted_at state;
       last_seen_at := last_seen_at state |}
  else state.

(** [present]: the root-cause faults of the cycle by key, a later fault
    with the same key replacing an earlier one. *)
Definition build_present (building_id : Z)
    (subsystem_faults : list FaultAggregator.SubsystemFault)
  : result (list (string * FaultAggregator.SubsystemFault)) :=
  let root_faults :=
    List.filter
      (fun f => String.eqb (FaultAggregator.fault_type f)
                  (FaultAggregator.FaultType_value FaultAggregator.ROOT_CAUSE))
      subsystem_faults in
  let prefix := str_of_Z building_id +:+ ":" in
  foldM (fun present fault =>
           let key := _build_fault_key building_id fault in
           if negb (String.prefix prefix key) then Raise ValueError
           else Ok (dict_set present key fault))
        root_faults [].

(** [state_by_key.get(key)]: the tracked state of this building under
    [key]. *)
Definition tracked (db : Db) (building_id : Z) (key : string)
  : option AlertState :=
  match alert_state db !! key with
  | Some state =>
      if (AlertEngine.building_id state =? building_id)%Z then Some state
      else None
  | None => None
  end.

(** One iteration of the loop over [present.items()].  The state object is
    a row of the session: what the body assigns is what the table holds
    under the primary key afterwards, and [db.add] of a new state or event
    is an insertion. *)
Definition present_iteration (building_id : Z) (now : string)
    (acc : Db * list Fired)
    (item : string * FaultAggregator.SubsystemFault)
  : result (Db * list Fired) :=
  let '(db, fired) := acc in
  let '(key, fault) := item in
  let state := default (new_state key building_id)
                 (tracked db building_id key) in
  match present_step state key fault now with
  | Raise e => Raise e
  | Ok (state, emitted) =>
      Ok ({| alert_state := <[key := state]> (alert_state db);
             alert_events :=
               alert_events db
               ++ match emitted with Some (ev, _) => [ev] | None => [] end |},
          fired ++ match emitted with Some (_, f) => [f] | None => [] end)
  end.

(** Run one alerting cycle. *)
Definition update (db : Db) (building_id : Z)
    (subsystem_faults : list FaultAggregator.SubsystemFault) (now : string)
  : result (Db * list Fired) :=
  present ← build_present building_id subsystem_faults;
  acc ← foldM (present_iteration building_id now) present (db, []);
  let absent (state : AlertState) : AlertState :=
    if (AlertEngine.building_id state =? building_id)%Z
       && negb (bool_decide (fault_key state ∈ present.*1))
    then absent_step state else state in
  Ok ({| alert_state := absent <$> alert_state acc.1;
         alert_events := alert_events acc.1 |}, acc.2).

(** The caller's loop: one [update] per cycle on the same session, the
    fired lists collected in order. *)
Fixpoint run_cycles (db : Db) (building_id : Z)
    (cycles : list (list FaultAggregator.SubsystemFault * string))
  : result (Db * list (list Fired)) :=
  match cycles with
  | [] => Ok (db, [])
  | (subsystem_faults, now) :: rest =>
      step ← update db building_id subsystem_faults now;
      tail ← run_cycles step.1 building_id rest;
      Ok (tail.1, step.2 :: tail.2)
  end.

(** *** The cycle seen from one fault key *)

(** [fault_key] is the primary key of [alert_state]. *)
Definition wf_db (db : Db) : Prop :=
  forall k state, alert_state db !! k = Some state -> fault_key state = k.

(** The fault of the cycle under [key]: the last root cause that builds
    this key. *)
Definition present_fault (building_id : Z)
    (subsystem_faults : list FaultAggregator.SubsystemFault) (key : string)
  : option FaultAggregator.SubsystemFault :=
  last (List.filter
          (fun f => String.eqb (_build_fault_key building_id f) key)
          (List.filter
             (fun f => String.eqb (FaultAggregator.fault_type f)
                (FaultAggregator.FaultType_value FaultAggregator.ROOT_CAUSE))
             subsystem_faults)).

Definition events_for (key : string) (events : list AlertEvent)
  : list AlertEvent :=
  List.filter (fun e => String.eqb (ev_fault_key e) key) events.

Definition fired_for (key : string) (fired : list Fired) : list Fired :=
  List.filter (fun f => String.eqb (f_fault_key f) key) fired.

(** "A previous alert for this key was emitted less than a cooldown window
    ago": both timestamps denote points in time one can subtract, less than
    [COOLDOWN_SECONDS] apart. *)
Definition recently_alerted (last_alerted_at now : string) : bool :=
  negb (String.eqb last_alerted_at "")
  && match fromisoformat (replace_Z last_alerted_at),
           fromisoformat (replace_Z now) with
     | Some last, Some current =>
         Bool.eqb (aware current) (aware last)
         && (micros current - micros last <? COOLDOWN_SECONDS * 1000000)%Z
     | _, _ => false
     end.

(** What the tracked-but-absent loop does to a row of the table. *)
Definition absent_row (building_id : Z) (state : AlertState) : AlertState :=
  if (AlertEngine.building_id state =? building_id)%Z
  then absent_step state else state.

Lemma in_cooldown_spec (last_alerted_at now : string) :
  in_cooldown last_alerted_at now
  = Ok (recently_alerted last_alerted_at now).
Proof.
  unfold in_cooldown, recently_alerted, parse_iso, seconds_lt.
  destruct (String.eqb last_alerted_at ""); simpl; [reflexivity|].
  destruct (fromisoformat (replace_Z last_alerted_at)) as [l|]; simpl;
    [|reflexivity].
  destruct (fromisoformat (replace_Z now)) as [c|]; simpl; [|reflexivity].
  destruct (Bool.eqb (aware c) (aware l)); reflexivity.
Qed.

Lemma present_step_ok (state : AlertState) (key : string)
    (fault : FaultAggregator.SubsystemFault) (now : string) :
  exists state' emitted,
    present_step state key fault now = Ok (state', emitted)
    /\ fault_key state' = fault_key state
    /\ match emitted with
       | Some (ev, fd) => ev_fault_key ev = key /\ f_fault_key fd = key
       | None => True
       end.
Proof.
  unfold present_step. cbn [present_streak confirmed last_alerted_at].
  destruct ((CONFIRM_AFTER <=? present_streak state + 1)%Z
            && negb (confirmed state)); [|eauto].
  rewrite in_cooldown_spec. simpl.
  destruct (recently_alerted (last_alerted_at state) now); simpl; eauto 6.
Qed.

Lemma last_filter_cons {A : Type} (p : A -> bool) (x : A) (xs : list A) :
  last (List.filter p (x :: xs))
  = match last (List.filter p xs) with
    | Some y => Some y
    | None => if p x then Some x else None
    end.
Proof.
  simpl. destruct (p x); [|now destruct (last (List.filter p xs))].
  rewrite last_cons. reflexivity.
Qed.

Lemma fault_key_prefix (b : Z) (f : FaultAggregator.SubsystemFault) :
  String.prefix (str_of_Z b +:+ ":") (_build_fault_key b f) = true.
Proof. apply prefix_append2. Qed.

Lemma build_present_loop (b : Z) (fs : list FaultAggregator.SubsystemFault)
    (acc : list (string * FaultAggregator.SubsystemFault)) :
  exists present,
    foldM (fun present fault =>
             let key := _build_fault_key b fault in
             if negb (String.prefix (str_of_Z b +:+ ":") key)
             then Raise ValueError
             else Ok (dict_set present key fault)) fs acc = Ok present
    /\ (NoDup acc.*1 -> NoDup present.*1)
    /\ forall key,
         dict_get present key
         = match last (List.filter
                         (fun f => String.eqb (_build_fault_key b f) key) fs)
           with
           | Some f => Some f
           | None => dict_get acc key
           end.
Proof.
  revert acc. induction fs as [|f fs IH]; intros acc.
  - exists acc. simpl. auto.
  - destruct (IH (dict_set acc (_build_fault_key b f) f))
      as (present & Hrun & Hnd & Hget).
    exists present. split; [|split].
    + rewrite <- Hrun. cbn [foldM]. cbv zeta. rewrite fault_key_prefix.
      reflexivity.
    + intros Hacc. apply Hnd, dict_set_NoDup, Hacc.
    + intros key. rewrite Hget, last_filter_cons, dict_get_set.
      destruct (last (List.filter _ fs)); [reflexivity|].
      now destruct (String.eqb (_build_fault_key b f) key).
Qed.

Lemma build_present_spec (b : Z)
    (subsystem_faults : list FaultAggregator.SubsystemFault) :
  exists present,
    build_present b subsystem_faults = Ok present
    /\ NoDup present.*1
    /\ forall key, dict_get present key = present_fault b subsystem_faults key.
Proof.
  unfold build_present, present_fault.
  destruct (build_present_loop b
              (List.filter
                 (fun f => String.eqb (FaultAggregator.fault_type f)
                    (FaultAggregator.FaultType_value
                       FaultAggregator.ROOT_CAUSE))
                 subsystem_faults) [])
    as (present & Hrun & Hnd & Hget).
  exists present. split; [exact Hrun|]. split; [apply Hnd; constructor|].
  intros key. rewrite Hget.
  now destruct (last _).
Qed.

Definition events_of (emitted : option (AlertEvent * Fired))
  : list AlertEvent :=
  match emitted with Some (ev, _) => [ev] | None => [] end.

Definition fired_of (emitted : option (AlertEvent * Fired)) : list Fired :=
  match emitted with Some (_, f) => [f] | None => [] end.

Lemma events_for_own (key : string) (emitted : option (AlertEvent * Fired)) :
  match emitted with
  | Some (ev, fd) => ev_fault_key ev = key /\ f_fault_key fd = key
  | None => True
  end ->
  events_for key (events_of emitted) = events_of emitted
  /\ fired_for key (fired_of emitted) = fired_of emitted.
Proof.
  destruct emitted as [[ev fd]|]; simpl; [|auto].
  intros [-> ->]. now rewrite !String.eqb_refl.
Qed.

Lemma events_for_other (k key : string)
    (emitted : option (AlertEvent * Fired)) :
  k <> key ->
  match emitted with
  | Some (ev, fd) => ev_fault_key ev = k /\ f_fault_key fd = k
  | None => True
  end ->
  events_for key (events_of emitted) = []
  /\ fired_for key (fired_of emitted) = [].
Proof.
  intros Hne. destruct emitted as [[ev fd]|]; simpl; [|auto].
  intros [Hev Hfd].
  destruct (String.eqb_spec (ev_fault_key ev) key); [congruence|].
  destruct (String.eqb_spec (f_fault_key fd) key); [congruence|]. auto.
Qed.

Lemma tracked_fault_key (db : Db) (b : Z) (key : string) :
  wf_db db -> fault_key (default (new_state key b) (tracked db b key)) = key.
Proof.
  intros Hwf. unfold tracked.
  destruct (alert_state db !! key) as [state|] eqn:Hk; [|reflexivity].
  destruct (building_id state =? b)%Z; [|reflexivity].
  simpl. now apply Hwf.
Qed.

Lemma tracked_insert_ne (db : Db) (b : Z) (k key : string)
    (state : AlertState) (events : list AlertEvent) :
  k <> key ->
  tracked {| alert_state := <[k := state]> (alert_state db);
             alert_events := events |} b key
  = tracked db b key.
Proof.
  intros Hne. unfold tracked. simpl. now rewrite lookup_insert_ne.
Qed.

(** What one cycle leaves behind for [key] when it holds [fault]. *)
Definition present_outcome (db db' : Db) (b : Z) (key now : string)
    (fault : FaultAggregator.SubsystemFault)
    (new : list AlertEvent) (fired : list Fired) : Prop :=
  exists state' emitted,
    present_step (default (new_state key b) (tracked db b key)) key fault now
    = Ok (state', emitted)
    /\ alert_state db' !! key = Some state'
    /\ events_for key new = events_of emitted
    /\ fired_for key fired = fired_of emitted.

Lemma present_loop_spec (b : Z) (now : string)
    (present : list (string * FaultAggregator.SubsystemFault)) :
  NoDup present.*1 ->
  forall db fired, wf_db db ->
  exists db' new fired',
    foldM (present_iteration b now) present (db, fired)
    = Ok (db', fired ++ fired')
    /\ alert_events db' = alert_events db ++ new
    /\ wf_db db'
    /\ forall key,
         match dict_get present key with
         | Some fault => present_outcome db db' b key now fault new fired'
         | None =>
             alert_state db' !! key = alert_state db !! key
             /\ events_for key new = [] /\ fired_for key fired' = []
         end.
Proof.
  induction present as [|[k f] rest IH]; intros Hnd db fired Hwf.
  - exists db, [], []. simpl. rewrite !app_nil_r.
    split; [reflexivity|]. split; [reflexivity|]. split; [exact Hwf|].
    intros key. auto.
  - simpl in Hnd. apply NoDup_cons in Hnd as [Hk Hnd].
    destruct (present_step_ok (default (new_state k b) (tracked db b k))
                k f now) as (st1 & em & Hstep & Hfk & Hem).
    rewrite tracked_fault_key in Hfk by exact Hwf.
    set (db1 := {| alert_state := <[k := st1]> (alert_state db);
                   alert_events := alert_events db ++ events_of em |}).
    assert (Hwf1 : wf_db db1).
    { intros k' s. simpl. destruct (decide (k = k')) as [<-|Hne].
      - rewrite lookup_insert_eq. now intros [= <-].
      - rewrite lookup_insert_ne by exact Hne. apply Hwf. }
    destruct (IH Hnd db1 (fired ++ fired_of em) Hwf1)
      as (db' & new & fired' & Hrun & Hev & Hwf' & Hkeys).
    exists db', (events_of em ++ new), (fired_of em ++ fired').
    split; [|split; [|split; [exact Hwf'|]]].
    + cbn [foldM]. unfold present_iteration at 2. rewrite Hstep.
      fold (events_of em) (fired_of em). fold db1.
      change (mbind ?g (Ok ?a)) with (g a). cbv beta.
      rewrite Hrun. now rewrite app_assoc.
    + rewrite Hev. simpl. now rewrite app_assoc.
    + intros key. specialize (Hkeys key). cbn [dict_get].
      assert (HappE : events_for key (events_of em ++ new)
                      = events_for key (events_of em) ++ events_for key new)
        by apply List.filter_app.
      assert (HappF : fired_for key (fired_of em ++ fired')
                      = fired_for key (fired_of em) ++ fired_for key fired')
        by apply List.filter_app.
      destruct (String.eqb_spec k key) as [<-|Hne].
      * apply dict_get_None in Hk. rewrite Hk in Hkeys.
        destruct Hkeys as (Hst & He & Hf).
        exists st1, em. split; [exact Hstep|]. split.
        { rewrite Hst. simpl. apply lookup_insert_eq. }
        rewrite HappE, HappF, He, Hf, !app_nil_r.
        apply events_for_own. exact Hem.
      * destruct (events_for_other k key em Hne Hem) as [He Hf].
        rewrite He, Hf in *. simpl in HappE, HappF.
        destruct (dict_get rest key) as [fault|].
        { destruct Hkeys as (st' & em' & Hs' & Hst' & He' & Hf').
          exists st', em'. unfold db1 in Hs'.
          rewrite tracked_insert_ne in Hs' by exact Hne.
          rewrite HappE, HappF. auto. }
        { destruct Hkeys as (Hst & He' & Hf').
          rewrite HappE, HappF. split; [|auto].
          rewrite Hst. simpl. now apply lookup_insert_ne. }
Qed.

(** What one cycle leaves behind for [key]. *)
Definition cycle_outcome (db db' : Db) (b : Z)
    (subsystem_faults : list FaultAggregator.SubsystemFault) (now : string)
    (new : list AlertEvent) (fired : list Fired) (key : string) : Prop :=
  match present_fault b subsystem_faults key with
  | Some fault => present_outcome db db' b key now fault new fired
  | None =>
      alert_state db' !! key = absent_row b <$> alert_state db !! key
      /\ events_for key new = [] /\ fired_for key fired = []
  end.

Lemma absent_step_fault_key (state : AlertState) :
  fault_key (absent_step state) = fault_key state.
Proof.
  unfold absent_step. cbn [absent_streak].
  now destruct (CLEAR_AFTER <=? absent_streak state + 1)%Z.
Qed.

Lemma update_key_spec (db : Db) (b : Z)
    (subsystem_faults : list FaultAggregator.SubsystemFault) (now : string) :
  wf_db db ->
  exists db' fired new,
    update db b subsystem_faults now = Ok (db', fired)
    /\ alert_events db' = alert_events db ++ new
    /\ wf_db db'
    /\ forall key, cycle_outcome db db' b subsystem_faults now new fired key.
Proof.
  intros Hwf. unfold update.
  destruct (build_present_spec b subsystem_faults)
    as (present & -> & Hnd & Hget).
  change (mbind ?g (Ok ?a)) with (g a). cbv beta.
  destruct (present_loop_spec b now present Hnd db [] Hwf)
    as (db1 & new & fired & -> & Hev & Hwf1 & Hkeys).
  change (mbind ?g (Ok ?a)) with (g a). cbv beta. cbn [fst snd app].
  eexists _, fired, new. split; [reflexivity|].
  split; [exact Hev|]. split.
  - intros k state. cbn [alert_state]. rewrite lookup_fmap.
    destruct (alert_state db1 !! k) as [s1|] eqn:Hk; simpl; [|discriminate].
    intros [= <-]. apply Hwf1 in Hk.
    destruct (_ && _); [now rewrite absent_step_fault_key | exact Hk].
  - intros key. unfold cycle_outcome. rewrite <- Hget.
    specialize (Hkeys key). cbn [alert_state].
    destruct (dict_get present key) as [fault|] eqn:Hd.
    + destruct Hkeys as (st' & em & Hs & Hst & He & Hf).
      exists st', em. split; [exact Hs|]. split; [|auto].
      cbn [alert_state]. rewrite lookup_fmap, Hst. simpl. f_equal.
      rewrite (Hwf1 _ _ Hst).
      rewrite bool_decide_eq_true_2, andb_false_r; [reflexivity|].
      destruct (decide (key ∈ present.*1)) as [Hin|Hout]; [exact Hin|].
      apply dict_get_None in Hout. congruence.
    + destruct Hkeys as (Hst & He & Hf). split; [|auto].
      rewrite lookup_fmap, Hst.
      destruct (alert_state db !! key) as [s0|] eqn:Hk; simpl; [|reflexivity].
      f_equal. rewrite (Hwf _ _ Hk).
      rewrite bool_decide_eq_false_2, andb_true_r; [reflexivity|].
      now apply dict_get_None.
Qed.

Lemma tracked_building (db : Db) (b : Z) (key : string) :
  building_id (default (new_state key b) (tracked db b key)) = b.
Proof.
  unfold tracked. destruct (alert_state db !! key) as [state|]; [|reflexivity].
  destruct (Z.eqb_spec (building_id state) b); [assumption | reflexivity].
Qed.

Lemma tracked_Some (db : Db) (b : Z) (key : string) (state : AlertState) :
  alert_state db !! key = Some state -> building_id state = b ->
  tracked db b key = Some state.
Proof.
  intros Hk Hb. unfold tracked. now rewrite Hk, Hb, Z.eqb_refl.
Qed.

(** The fields of the state after the loop body for a present fault, and
    what it emits. *)
Lemma present_step_spec (state : AlertState) (key : string)
    (fault : FaultAggregator.SubsystemFault) (now : string)
    (state' : AlertState) (emitted : option (AlertEvent * Fired)) :
  present_step state key fault now = Ok (state', emitted) ->
  fault_key state' = fault_key state
  /\ building_id state' = building_id state
  /\ present_streak state' = (present_streak state + 1)%Z
  /\ absent_streak state' = 0%Z
  /\ active state' = true
  /\ last_seen_at state' = now
  /\ if (CONFIRM_AFTER <=? present_streak state + 1)%Z
        && negb (confirmed state)
     then
       confirmed state' = true
       /\ if recently_alerted (last_alerted_at state) now
          then emitted = None
               /\ last_alerted_at state' = last_alerted_at state
          else last_alerted_at state' = now
               /\ exists ev fd,
                    emitted = Some (ev, fd)
                    /\ ev_fault_key ev = key /\ f_fault_key fd = key
                    /\ ev_building_id ev = building_id state
                    /\ created_at ev = now
                    /\ ev_title ev = _build_title fault
                    /\ f_title fd = _build_title fault
                    /\ ev_details ev = _build_details fault
     else
       confirmed state' = confirmed state
       /\ last_alerted_at state' = last_alerted_at state
       /\ emitted = None.
Proof.
  unfold present_step. cbn [present_streak confirmed last_alerted_at].
  destruct ((CONFIRM_AFTER <=? present_streak state + 1)%Z
            && negb (confirmed state)).
  - rewrite in_cooldown_spec. simpl.
    destruct (recently_alerted (last_alerted_at state) now); simpl;
      intros [= <- <-]; simpl; repeat (split; [reflexivity|]); eauto 12.
  - intros [= <- <-]. simpl. auto 10.
Qed.

Lemma absent_step_spec (state : AlertState) :
  fault_key (absent_step state) = fault_key state
  /\ building_id (absent_step state) = building_id state
  /\ present_streak (absent_step state) = 0%Z
  /\ absent_streak (absent_step state) = (absent_streak state + 1)%Z
  /\ last_alerted_at (absent_step state) = last_alerted_at state
  /\ last_seen_at (absent_step state) = last_seen_at state
  /\ if (CLEAR_AFTER <=? absent_streak state + 1)%Z
     then active (absent_step state) = false
          /\ confirmed (absent_step state) = false
     else active (absent_step state) = active state
          /\ confirmed (absent_step state) = confirmed state.
Proof.
  unfold absent_step. cbn [absent_streak].
  destruct (CLEAR_AFTER <=? absent_streak state + 1)%Z; simpl; auto 10.
Qed.

Lemma tracked_inv (db : Db) (b : Z) (key : string) (state : AlertState) :
  tracked db b key = Some state ->
  alert_state db !! key = Some state /\ building_id state = b.
Proof.
  unfold tracked. destruct (alert_state db !! key) as [s|]; [|discriminate].
  destruct (Z.eqb_spec (building_id s) b); [|discriminate].
  now intros [= <-].
Qed.

(** One cycle in which [key] is present. *)
Lemma present_cycle (db : Db) (b : Z)
    (subsystem_faults : list FaultAggregator.SubsystemFault)
    (now key : string) (fault : FaultAggregator.SubsystemFault) :
  wf_db db -> present_fault b subsystem_faults key = Some fault ->
  exists db' fired new state' emitted,
    update db b subsystem_faults now = Ok (db', fired)
    /\ wf_db db'
    /\ alert_events db' = alert_events db ++ new
    /\ present_step (default (new_state key b) (tracked db b key))
         key fault now = Ok (state', emitted)
    /\ tracked db' b key = Some state'
    /\ events_for key new = events_of emitted
    /\ fired_for key fired = fired_of emitted.
Proof.
  intros Hwf Hp.
  destruct (update_key_spec db b subsystem_faults now Hwf)
    as (db' & fired & new & Hu & Hev & Hwf' & Hkeys).
  specialize (Hkeys key). unfold cycle_outcome in Hkeys. rewrite Hp in Hkeys.
  destruct Hkeys as (state' & emitted & Hs & Hst & He & Hf).
  exists db', fired, new, state', emitted.
  repeat (split; [assumption|]). split; [|auto].
  apply tracked_Some; [exact Hst|].
  apply present_step_spec in Hs as (_ & -> & _).
  apply tracked_building.
Qed.

(** One cycle in which a tracked [key] is absent. *)
Lemma absent_cycle (db : Db) (b : Z)
    (subsystem_faults : list FaultAggregator.SubsystemFault)
    (now key : string) (state : AlertState) :
  wf_db db -> present_fault b subsystem_faults key = None ->
  tracked db b key = Some state ->
  exists db' fired new,
    update db b subsystem_faults now = Ok (db', fired)
    /\ wf_db db'
    /\ alert_events db' = alert_events db ++ new
    /\ tracked db' b key = Some (absent_step state)
    /\ events_for key new = []
    /\ fired_for key fired = [].
Proof.
  intros Hwf Hp Ht. apply tracked_inv in Ht as [Hk Hb].
  destruct (update_key_spec db b subsystem_faults now Hwf)
    as (db' & fired & new & Hu & Hev & Hwf' & Hkeys).
  specialize (Hkeys key). unfold cycle_outcome in Hkeys. rewrite Hp in Hkeys.
  destruct Hkeys as (Hst & He & Hf).
  exists db', fired, new. repeat (split; [assumption|]). split; [|auto].
  rewrite Hk in Hst. simpl in Hst. unfold absent_row in Hst.
  rewrite Hb, Z.eqb_refl in Hst.
  apply tracked_Some; [exact Hst|].
  destruct (absent_step_spec state) as (_ & -> & _). exact Hb.
Qed.

Lemma run_cycles_cons (db db1 db' : Db) (b : Z)
    (faults : list FaultAggregator.SubsystemFault) (now : string)
    (rest : list (list FaultAggregator.SubsystemFault * string))
    (fired1 : list Fired) (fireds : list (list Fired)) :
  update db b faults now = Ok (db1, fired1) ->
  run_cycles db1 b rest = Ok (db', fireds) ->
  run_cycles db b ((faults, now) :: rest) = Ok (db', fired1 :: fireds).
Proof.
  intros Hu Hrun. cbn [run_cycles]. rewrite Hu.
  change (mbind ?g (Ok ?a)) with (g a). cbv beta. cbn [fst snd].
  now rewrite Hrun.
Qed.

Lemma absent_run (b : Z) (key : string)
    (cycles : list (list FaultAggregator.SubsystemFault * string)) :
  forall db state,
  wf_db db -> tracked db b key = Some state ->
  Forall (fun c => present_fault b c.1 key = None) cycles ->
  exists db' fireds new,
    run_cycles db b cycles = Ok (db', fireds)
    /\ wf_db db'
    /\ alert_events db' = alert_events db ++ new
    /\ tracked db' b key = Some (Nat.iter (length cycles) absent_step state)
    /\ events_for key new = []
    /\ Forall (fun fired => fired_for key fired = []) fireds.
Proof.
  induction cycles as [|[faults now] cycles IH]; intros db state Hwf Ht Hall.
  - exists db, [], []. simpl. rewrite app_nil_r. auto 10.
  - apply Forall_cons in Hall as [Hp Hall]. simpl in Hp.
    destruct (absent_cycle db b faults now key state Hwf Hp Ht)
      as (db1 & fired1 & new1 & Hu & Hwf1 & Hev1 & Ht1 & He1 & Hf1).
    destruct (IH db1 (absent_step state) Hwf1 Ht1 Hall)
      as (db' & fireds & new & Hrun & Hwf' & Hev & Ht' & He & Hfs).
    exists db', (fired1 :: fireds), (new1 ++ new).
    split; [exact (run_cycles_cons _ _ _ _ _ _ _ _ _ Hu Hrun)|].
    split; [exact Hwf'|]. split; [now rewrite Hev, Hev1, app_assoc|].
    split; [now rewrite Ht', <- Nat.iter_succ_r|].
    split; [|now constructor].
    unfold events_for in *. now rewrite List.filter_app, He1, He.
Qed.

Lemma absent_iter_streak (n : nat) (state : AlertState) :
  absent_streak (Nat.iter n absent_step state)
  = (absent_streak state + Z.of_nat n)%Z
  /\ last_alerted_at (Nat.iter n absent_step state) = last_alerted_at state
  /\ building_id (Nat.iter n absent_step state) = building_id state.
Proof.
  induction n as [|n (IHs & IHl & IHb)]; [simpl; split; [lia|auto]|].
  rewrite !Nat.iter_succ.
  destruct (absent_step_spec (Nat.iter n absent_step state))
    as (_ & -> & _ & -> & -> & _).
  split; [lia|auto].
Qed.

(** Absent for [CLEAR_AFTER] cycles or more: the incident is closed. *)
Lemma absent_iter_clear (n : nat) (state : AlertState) :
  (0 < n)%nat -> (CLEAR_AFTER <= absent_streak state + Z.of_nat n)%Z ->
  let state' := Nat.iter n absent_step state in
  active state' = false /\ confirmed state' = false
  /\ present_streak state' = 0%Z.
Proof.
  intros Hn Hclear. destruct n as [|n]; [lia|]. rewrite !Nat.iter_succ.
  destruct (absent_step_spec (Nat.iter n absent_step state))
    as (_ & _ & Hp & _ & _ & _ & Hc).
  destruct (absent_iter_streak n state) as (Hs & _).
  rewrite Hs in Hc.
  destruct (Z.leb_spec CLEAR_AFTER (absent_streak state + Z.of_nat n + 1));
    [|lia].
  destruct Hc. auto.
Qed.

(** Three consecutive cycles with [key] present, from a state that is
    neither confirmed nor part of a running streak (a key never seen, or a
    cleared one). *)
Lemma three_present_cycles (db : Db) (b : Z) (key : string)
    (faults1 faults2 faults3 : list FaultAggregator.SubsystemFault)
    (now1 now2 now3 : string)
    (f1 f2 f3 : FaultAggregator.SubsystemFault) :
  wf_db db ->
  present_streak (default (new_state key b) (tracked db b key)) = 0%Z ->
  confirmed (default (new_state key b) (tracked db b key)) = false ->
  present_fault b faults1 key = Some f1 ->
  present_fault b faults2 key = Some f2 ->
  present_fault b faults3 key = Some f3 ->
  exists db' fired1 fired2 fired3 new state',
    run_cycles db b [(faults1, now1); (faults2, now2); (faults3, now3)]
    = Ok (db', [fired1; fired2; fired3])
    /\ wf_db db'
    /\ alert_events db' = alert_events db ++ new
    /\ fired_for key fired1 = [] /\ fired_for key fired2 = []
    /\ tracked db' b key = Some state'
    /\ present_streak state' = 3%Z /\ absent_streak state' = 0%Z
    /\ active state' = true /\ confirmed state' = true
    /\ last_seen_at state' = now3
    /\ if recently_alerted
            (last_alerted_at (default (new_state key b) (tracked db b key)))
            now3
       then events_for key new = [] /\ fired_for key fired3 = []
            /\ last_alerted_at state'
               = last_alerted_at
                   (default (new_state key b) (tracked db b key))
       else last_alerted_at state' = now3
            /\ exists ev fd,
                 events_for key new = [ev] /\ fired_for key fired3 = [fd]
                 /\ ev_fault_key ev = key /\ created_at ev = now3
                 /\ ev_title ev = _build_title f3
                 /\ f_title fd = _build_title f3.
Proof.
  intros Hwf Hstreak Hconf Hp1 Hp2 Hp3.
  destruct (present_cycle db b faults1 now1 key f1 Hwf Hp1)
    as (db1 & fired1 & new1 & s1 & em1 & Hu1 & Hwf1 & Hev1 & Hs1 & Ht1
        & He1 & Hf1).
  destruct (present_cycle db1 b faults2 now2 key f2 Hwf1 Hp2)
    as (db2 & fired2 & new2 & s2 & em2 & Hu2 & Hwf2 & Hev2 & Hs2 & Ht2
        & He2 & Hf2).
  destruct (present_cycle db2 b faults3 now3 key f3 Hwf2 Hp3)
    as (db3 & fired3 & new3 & s3 & em3 & Hu3 & Hwf3 & Hev3 & Hs3 & Ht3
        & He3 & Hf3).
  rewrite Ht1 in Hs2. rewrite Ht2 in Hs3.
  cbn [default from_option id] in Hs2, Hs3.
  apply present_step_spec in Hs1
    as (_ & _ & Hps1 & _ & _ & _ & Hc1).
  apply present_step_spec in Hs2
    as (_ & _ & Hps2 & _ & _ & _ & Hc2).
  apply present_step_spec in Hs3
    as (_ & _ & Hps3 & Has3 & Hac3 & Hls3 & Hc3).
  rewrite Hstreak in Hps1, Hc1. rewrite Hps1 in Hps2, Hc2.
  rewrite Hps2 in Hps3, Hc3.
  cbn in Hc1, Hc2. destruct Hc1 as (Hcf1 & Hla1 & ->).
  destruct Hc2 as (Hcf2 & Hla2 & ->).
  rewrite Hcf2, Hcf1, Hconf, Hla2, Hla1 in Hc3. cbn in Hc3.
  destruct Hc3 as (Hcf3 & Hc3).
  exists db3, fired1, fired2, fired3, (new1 ++ new2 ++ new3), s3.
  split.
  { eapply run_cycles_cons; [exact Hu1|].
    eapply run_cycles_cons; [exact Hu2|].
    eapply run_cycles_cons; [exact Hu3|]. reflexivity. }
  split; [exact Hwf3|].
  split; [now rewrite Hev3, Hev2, Hev1, <- !app_assoc|].
  split; [exact Hf1|]. split; [exact Hf2|]. split; [exact Ht3|].
  split; [exact Hps3|]. split; [exact Has3|]. split; [exact Hac3|].
  split; [exact Hcf3|]. split; [exact Hls3|].
  assert (Hnew : events_for key (new1 ++ new2 ++ new3) = events_for key new3).
  { unfold events_for in *. now rewrite !List.filter_app, He1, He2. }
  rewrite Hnew, He3, Hf3.
  destruct (recently_alerted _ now3).
  - destruct Hc3 as (-> & Hla3). auto.
  - destruct Hc3 as (Hla3 & ev & fd & -> & Hk & _ & _ & Hca & Ht & Htf & _).
    split; [exact Hla3|]. exists ev, fd. simpl. auto 10.
Qed.

(** C4.  The alert state machine, key by key.  (1) A cycle on a table whose
    rows sit under their [fault_key] never raises, appends to the event log
    and treats every key on its own: a key of the cycle's root causes goes
    through the present step, a tracked key of the building that is not
    among them through the absent step, every other row is left alone.
    (2) The present step increments [present_streak], resets
    [absent_streak], sets [active] and [last_seen_at]; it emits exactly one
    event, recording [last_alerted_at], when the streak reaches
    [CONFIRM_AFTER] on a state not yet confirmed and the previous alert is
    not less than [COOLDOWN_SECONDS] old; within the cooldown it confirms
    without an event; in all other cases it emits nothing.  (3) The absent
    step clears [active] and [confirmed] once [absent_streak] reaches
    [CLEAR_AFTER].  (4) Three consecutive present cycles from an
    unconfirmed state without streak give exactly one event, in the third
    cycle, or none when in cooldown, and leave the state confirmed and
    active.  (5) [CLEAR_AFTER] or more absent cycles after a sighting clear
    the state and keep [last_alerted_at], so that (4) applies again and a
    second event follows once the cooldown is over. *)
Theorem alert_state_machine :
  (forall db b subsystem_faults now,
     wf_db db ->
     exists db' fired new,
       update db b subsystem_faults now = Ok (db', fired)
       /\ alert_events db' = alert_events db ++ new
       /\ wf_db db'
       /\ forall key,
            match present_fault b subsystem_faults key with
            | Some fault =>
                exists state' emitted,
                  present_step (default (new_state key b) (tracked db b key))
                    key fault now = Ok (state', emitted)
                  /\ alert_state db' !! key = Some state'
                  /\ events_for key new = events_of emitted
                  /\ fired_for key fired = fired_of emitted
            | None =>
                alert_state db' !! key
                = absent_row b <$> alert_state db !! key
                /\ events_for key new = [] /\ fired_for key fired = []
            end)
  /\ (forall state key fault now state' emitted,
        present_step state key fault now = Ok (state', emitted) ->
        present_streak state' = (present_streak state + 1)%Z
        /\ absent_streak state' = 0%Z
        /\ active state' = true
        /\ last_seen_at state' = now
        /\ if (3 <=? present_streak state + 1)%Z && negb (confirmed state)
           then
             confirmed state' = true
             /\ if recently_alerted (last_alerted_at state) now
                then emitted = None
                     /\ last_alerted_at state' = last_alerted_at state
                else last_alerted_at state' = now
                     /\ exists ev fd,
                          emitted = Some (ev, fd)
                          /\ ev_fault_key ev = key /\ f_fault_key fd = key
                          /\ created_at ev = now
           else
             confirmed state' = confirmed state
             /\ last_alerted_at state' = last_alerted_at state
             /\ emitted = None)
  /\ (forall state,
        present_streak (absent_step state) = 0%Z
        /\ absent_streak (absent_step state) = (absent_streak state + 1)%Z
        /\ last_alerted_at (absent_step state) = last_alerted_at state
        /\ if (6 <=? absent_streak state + 1)%Z
           then active (absent_step state) = false
                /\ confirmed (absent_step state) = false
           else active (absent_step state) = active state
                /\ confirmed (absent_step state) = confirmed state)
  /\ (forall db b key faults1 faults2 faults3 now1 now2 now3 f1 f2 f3,
        wf_db db ->
        present_streak (default (new_state key b) (tracked db b key)) = 0%Z ->
        confirmed (default (new_state key b) (tracked db b key)) = false ->
        present_fault b faults1 key = Some f1 ->
        present_fault b faults2 key = Some f2 ->
        present_fault b faults3 key = Some f3 ->
        exists db' fired1 fired2 fired3 new state',
          run_cycles db b [(faults1, now1); (faults2, now2); (faults3, now3)]
          = Ok (db', [fired1; fired2; fired3])
          /\ wf_db db'
          /\ alert_events db' = alert_events db ++ new
          /\ fired_for key fired1 = [] /\ fired_for key fired2 = []
          /\ tracked db' b key = Some state'
          /\ present_streak state' = 3%Z /\ absent_streak state' = 0%Z
          /\ active state' = true /\ confirmed state' = true
          /\ last_seen_at state' = now3
          /\ if recently_alerted
                  (last_alerted_at
                     (default (new_state key b) (tracked db b key))) now3
             then events_for key new = [] /\ fired_for key fired3 = []
                  /\ last_alerted_at state'
                     = last_alerted_at
                         (default (new_state key b) (tracked db b key))
             else last_alerted_at state' = now3
                  /\ exists ev fd,
                       events_for key new = [ev]
                       /\ fired_for key fired3 = [fd]
                       /\ ev_fault_key ev = key /\ created_at ev = now3)
  /\ (forall db b key cycles state,
        wf_db db ->
        tracked db b key = Some state ->
        absent_streak state = 0%Z ->
        (6 <= length cycles)%nat ->
        Forall (fun c => present_fault b c.1 key = None) cycles ->
        exists db' fireds new state',
          run_cycles db b cycles = Ok (db', fireds)
          /\ wf_db db'
          /\ alert_events db' = alert_events db ++ new
          /\ events_for key new = []
          /\ Forall (fun fired => fired_for key fired = []) fireds
          /\ tracked db' b key = Some state'
          /\ active state' = false /\ confirmed state' = false
          /\ present_streak state' = 0%Z
          /\ last_alerted_at state' = last_alerted_at state).
Proof.
  split; [|split; [|split; [|split]]].
  - intros db b subsystem_faults now Hwf.
    destruct (update_key_spec db b subsystem_faults now Hwf)
      as (db' & fired & new & Hu & Hev & Hwf' & Hkeys).
    exists db', fired, new. repeat (split; [assumption|]).
    intros key. exact (Hkeys key).
  - intros state key fault now state' emitted Hs.
    apply present_step_spec in Hs
      as (_ & _ & Hp & Ha & Hac & Hl & Hc).
    repeat (split; [assumption|]).
    change (3 <=? present_streak state + 1)%Z
      with (CONFIRM_AFTER <=? present_streak state + 1)%Z.
    destruct (_ && _); [|exact Hc].
    destruct Hc as (Hcf & Hc). split; [exact Hcf|].
    destruct (recently_alerted _ now); [exact Hc|].
    destruct Hc as (Hla & ev & fd & He & Hk & Hf & _ & Hca & _).
    split; [exact Hla|]. exists ev, fd. auto.
  - intros state.
    destruct (absent_step_spec state) as (_ & _ & Hp & Ha & Hl & _ & Hc).
    repeat (split; [assumption|]). exact Hc.
  - intros db b key faults1 faults2 faults3 now1 now2 now3 f1 f2 f3
      Hwf Hstreak Hconf Hp1 Hp2 Hp3.
    destruct (three_present_cycles db b key faults1 faults2 faults3
                now1 now2 now3 f1 f2 f3 Hwf Hstreak Hconf Hp1 Hp2 Hp3)
      as (db' & fired1 & fired2 & fired3 & new & state' & Hrun & Hwf' & Hev
          & Hf1 & Hf2 & Ht & Hps & Has & Hac & Hcf & Hls & Hc).
    exists db', fired1, fired2, fired3, new, state'.
    repeat (split; [assumption|]).
    destruct (recently_alerted _ now3); [exact Hc|].
    destruct Hc as (Hla & ev & fd & He & Hf & Hk & Hca & _).
    split; [exact Hla|]. exists ev, fd. auto.
  - intros db b key cycles state Hwf Ht Hz Hlen Hall.
    destruct (absent_run b key cycles db state Hwf Ht Hall)
      as (db' & fireds & new & Hrun & Hwf' & Hev & Ht' & He & Hfs).
    exists db', fireds, new, (Nat.iter (length cycles) absent_step state).
    repeat (split; [assumption|]).
    destruct (absent_iter_clear (length cycles) state) as (Hac & Hcf & Hps);
      [lia | rewrite Hz; unfold CLEAR_AFTER, CONFIRM_AFTER; lia |].
    destruct (absent_iter_streak (length cycles) state) as (_ & Hla & _).
    auto.
Qed.

End Engine.

(** *** The scenarios of test_alert_engine.py *)

(** A decimal field of a timestamp. *)
Fixpoint decimal_from (acc : Z) (x : string) : option Z :=
  match x with
  | EmptyString => Some acc
  | String c rest =>
      let n := Z.of_nat (nat_of_ascii c) in
      if (48 <=? n)%Z && (n <=? 57)%Z
      then decimal_from (10 * acc + (n - 48)) rest
      else None
  end.

(** Days from 1970-01-01 to a date of the proleptic Gregorian calendar. *)
Definition days_from_civil (y m d : Z) : Z :=
  let y := if (m <=? 2)%Z then (y - 1)%Z else y in
  let era := (y / 400)%Z in
  let yoe := (y - era * 400)%Z in
  let doy := ((153 * (if (2 <? m)%Z then m - 3 else m + 9) + 2) / 5 + d - 1)%Z in
  let doe := (yoe * 365 + yoe / 4 - yoe / 100 + doy)%Z in
  (era * 146097 + doe - 719468)%Z.

(** [datetime.fromisoformat] on the timestamps the tests use, of the shape
    [YYYY-MM-DDTHH:MM:SS+00:00]. *)
Definition test_fromisoformat (x : string) : option datetime :=
  if Nat.eqb (String.length x) 25
     && String.eqb (substring 4 1 x) "-"
     && String.eqb (substring 7 1 x) "-"
     && String.eqb (substring 10 1 x) "T"
     && String.eqb (substring 13 1 x) ":"
     && String.eqb (substring 16 1 x) ":"
     && String.eqb (substring 19 6 x) "+00:00"
  then
    y ← decimal_from 0 (substring 0 4 x);
    m ← decimal_from 0 (substring 5 2 x);
    d ← decimal_from 0 (substring 8 2 x);
    hh ← decimal_from 0 (substring 11 2 x);
    mm ← decimal_from 0 (substring 14 2 x);
    ss ← decimal_from 0 (substring 17 2 x);
    Some {| aware := true;
            micros := ((days_from_civil y m d * 86400
                        + hh * 3600 + mm * 60 + ss) * 1000000)%Z |}
  else None.

(** [_root_fault()] *)
Definition _root_fault : FaultAggregator.SubsystemFault :=
  {| FaultAggregator.sf_subsystem := "valve";
     FaultAggregator.subsystem_name := "Valve/Actuator";
     FaultAggregator.fault_type :=
       FaultAggregator.FaultType_value FaultAggregator.ROOT_CAUSE;
     FaultAggregator.severity := "fault";
     FaultAggregator.primary_fault :=
       {| FaultAggregator.group := ""; FaultAggregator.name := Some "VLV-01";
          FaultAggregator.status := ""; FaultAggregator.col_a := "";
          FaultAggregator.col_b := ""; FaultAggregator.val_a := None;
          FaultAggregator.val_b := None; FaultAggregator.unit_ := "";
          FaultAggregator.pair_type := "cmd_pos";
          FaultAggregator.subsystem := "";
          FaultAggregator.human_message := "" |};
     FaultAggregator.cascades := [];
     FaultAggregator.message := "Valve stuck";
     FaultAggregator.details_message := "";
     FaultAggregator.rule_applied := None;
     FaultAggregator.cascade_count := 0 |}.

(** [_cascade_fault()] *)
Definition _cascade_fault : FaultAggregator.SubsystemFault :=
  {| FaultAggregator.sf_subsystem := "sat";
     FaultAggregator.subsystem_name := "Supply Air Temperature";
     FaultAggregator.fault_type :=
       FaultAggregator.FaultType_value FaultAggregator.CASCADE;
     FaultAggregator.severity := "cascade";
     FaultAggregator.primary_fault :=
       {| FaultAggregator.group := ""; FaultAggregator.name := Some "SA-TEMP";
          FaultAggregator.status := ""; FaultAggregator.col_a := "";
          FaultAggregator.col_b := ""; FaultAggregator.val_a := None;
          FaultAggregator.val_b := None; FaultAggregator.unit_ := "";
          FaultAggregator.pair_type := "";
          FaultAggregator.subsystem := "";
          FaultAggregator.human_message := "" |};
     FaultAggregator.cascades := [];
     FaultAggregator.message := "Downstream effect";
     FaultAggregator.details_message := "";
     FaultAggregator.rule_applied := None;
     FaultAggregator.cascade_count := 0 |}.

(** The cycles of a test: present at each of [times]. *)
Definition present_at (times : list string)
  : list (list FaultAggregator.SubsystemFault * string) :=
  (fun now => ([_root_fault], now)) <$> times.

Definition absent_at (times : list string)
  : list (list FaultAggregator.SubsystemFault * string) :=
  (fun now => ([], now)) <$> times.

Definition confirm_times : list string :=
  ["2025-01-01T00:00:00Z"; "2025-01-01T00:01:00Z"; "2025-01-01T00:02:00Z"].

Definition clear_times : list string :=
  ["2025-01-01T00:03:00Z"; "2025-01-01T00:04:00Z"; "2025-01-01T00:05:00Z";
   "2025-01-01T00:06:00Z"; "2025-01-01T00:07:00Z"; "2025-01-01T00:08:00Z"].

Definition within_cooldown_times : list string :=
  ["2025-01-01T00:15:00Z"; "2025-01-01T00:16:00Z"; "2025-01-01T00:17:00Z"].

Definition after_cooldown_times : list string :=
  ["2025-01-01T01:00:00Z"; "2025-01-01T01:01:00Z"; "2025-01-01T01:02:00Z"].

(** What a test observes of a run: how many alerts each cycle fired, the
    number of stored events, and the flags of the row under [key]. *)
Definition observe (key : string) (r : result (Db * list (list Fired)))
  : option (list nat * nat * option (bool * bool)) :=
  match r with
  | Ok (db, fireds) =>
      Some (length <$> fireds, length (alert_events db),
            (fun state => (active state, confirmed state))
              <$> alert_state db !! key)
  | Raise _ => None
  end.

Lemma wf_empty_db : wf_db empty_db.
Proof. intros k state H. simpl in H. rewrite lookup_empty in H. discriminate. Qed.

(** The first three cycles of the tests, through the general statement:
    nothing fires in the first two, one alert in the third. *)
Lemma alert_state_machine_witness :
  exists db' fired1 fired2 fired3,
    run_cycles test_fromisoformat empty_db 1 (present_at confirm_times)
    = Ok (db', [fired1; fired2; fired3])
    /\ fired_for "1:valve:cmd_pos:VLV-01" fired1 = []
    /\ fired_for "1:valve:cmd_pos:VLV-01" fired2 = []
    /\ length (fired_for "1:valve:cmd_pos:VLV-01" fired3) = 1
    /\ length (events_for "1:valve:cmd_pos:VLV-01" (alert_events db')) = 1.
Proof.
  destruct (alert_state_machine test_fromisoformat) as (_ & _ & _ & H & _).
  destruct (H empty_db 1%Z "1:valve:cmd_pos:VLV-01"
              [_root_fault] [_root_fault] [_root_fault]
              "2025-01-01T00:00:00Z" "2025-01-01T00:01:00Z"
              "2025-01-01T00:02:00Z" _root_fault _root_fault _root_fault
              wf_empty_db eq_refl eq_refl eq_refl eq_refl eq_refl)
    as (db' & fired1 & fired2 & fired3 & new & state' & Hrun & _ & Hev
        & Hf1 & Hf2 & _ & _ & _ & _ & _ & _ & Hc).
  exists db', fired1, fired2, fired3.
  split; [exact Hrun|]. split; [exact Hf1|]. split; [exact Hf2|].
  change (recently_alerted test_fromisoformat _ _) with false in Hc.
  destruct Hc as (_ & ev & fd & He & Hf & _).
  rewrite Hev, Hf. simpl. rewrite He. split; reflexivity.
Defined.

(** test_cooldown_suppresses_refire: confirmed at 00:02, cleared by six
    absent cycles, back at 00:15 to 00:17. *)
Example test_cooldown_suppresses_refire :
  observe "1:valve:cmd_pos:VLV-01"
    (run_cycles test_fromisoformat empty_db 1
       (present_at confirm_times ++ absent_at clear_times
        ++ present_at within_cooldown_times))
  = Some ([0; 0; 1; 0; 0; 0; 0; 0; 0; 0; 0; 0], 1, Some (true, true)).
Proof. vm_compute. reflexivity. Qed.

(** test_cooldown_allows_refire_after_expiry: back at 01:00 to 01:02. *)
Example test_cooldown_allows_refire_after_expiry :
  observe "1:valve:cmd_pos:VLV-01"
    (run_cycles test_fromisoformat empty_db 1
       (present_at confirm_times ++ absent_at clear_times
        ++ present_at after_cooldown_times))
  = Some ([0; 0; 1; 0; 0; 0; 0; 0; 0; 0; 0; 1], 2, Some (true, true)).
Proof. vm_compute. reflexivity. Qed.

(** test_clear_after_threshold: still confirmed after five absent cycles,
    cleared by the sixth. *)
Example test_clear_after_threshold :
  observe "1:valve:cmd_pos:VLV-01"
    (run_cycles test_fromisoformat empty_db 1
       (present_at confirm_times ++ absent_at (take 5 clear_times)))
  = Some ([0; 0; 1; 0; 0; 0; 0; 0], 1, Some (true, true))
  /\ observe "1:valve:cmd_pos:VLV-01"
       (run_cycles test_fromisoformat empty_db 1
          (present_at confirm_times ++ absent_at clear_times))
     = Some ([0; 0; 1; 0; 0; 0; 0; 0; 0], 1, Some (false, false)).
Proof. split; vm_compute; reflexivity. Qed.

(** test_cascade_faults_ignored *)
Example test_cascade_faults_ignored :
  observe "1:sat::SA-TEMP"
    (run_cycles test_fromisoformat empty_db 1
       ((fun now => ([_cascade_fault], now)) <$> confirm_times))
  = Some ([0; 0; 0], 0, None).
Proof. vm_compute. reflexivity. Qed.

End AlertEngine.

(** * Further properties of the code *)

(** ** [float(k)] for a count *)

Section CountFloats.

Lemma digits2_pos_iter_xO (p q : positive) :
  digits2_pos (Pos.iter xO p q) = (digits2_pos p + q)%positive.
Proof.
  induction q as [|q IH] using Pos.peano_ind.
  - simpl. lia.
  - rewrite Pos.iter_succ. simpl. rewrite IH. lia.
Qed.

Lemma digits2_pos_size (p : positive) : digits2_pos p = Pos.size p.
Proof. induction p; simpl; congruence. Qed.

(** A mantissa of 53 bits within the exponent range is not rounded. *)
Lemma binary_round_aux_exact (mz : positive) (ez : Z) :
  Zpos (digits2_pos mz) = 53%Z -> (-1074 <= ez <= 971)%Z ->
  binary_round_aux prec emax false (Zpos mz) ez loc_Exact
  = S754_finite false mz ez.
Proof.
  intros Hd He.
  unfold binary_round_aux, shr_fexp, fexp. cbn [Zdigits2].
  rewrite Hd.
  assert (Hn : (Z.max (53 + ez - prec) (SpecFloat.emin prec emax) - ez
                = 0)%Z).
  { unfold prec, SpecFloat.emin, emax. lia. }
  rewrite Hn. cbn.
  rewrite Hd, Hn. cbn.
  destruct (Z.leb_spec ez (emax - prec)) as [_|H]; [reflexivity|].
  unfold emax, prec in H. lia.
Qed.

Lemma binary_round_small (p : positive) :
  (Zpos (digits2_pos p) <= 53)%Z ->
  exists m e, binary_round prec emax false p 0 = S754_finite false m e.
Proof.
  intros Hd. unfold binary_round, shl_align, fexp.
  assert (Hf : Z.max (Z.pos (digits2_pos p) + 0 - prec)
                 (SpecFloat.emin prec emax)
               = (Z.pos (digits2_pos p) - 53)%Z).
  { unfold prec, SpecFloat.emin, emax. lia. }
  rewrite Hf.
  destruct (Z.pos (digits2_pos p) - 53 - 0)%Z as [|q|q] eqn:Hq; try lia.
  - eexists _, _. apply binary_round_aux_exact; lia.
  - eexists _, _. apply binary_round_aux_exact.
    + rewrite digits2_pos_iter_xO. lia.
    + lia.
Qed.

(** The float of a positive count below [2^53] is not zero. *)
Lemma float_of_nat_nonzero (k : nat) :
  (0 < k)%nat -> (Z.of_nat k < 2 ^ 53)%Z -> feq0 (float_of_nat k) = false.
Proof.
  intros Hpos Hk. unfold feq0, float_of_nat.
  rewrite FloatAxioms.eqb_spec, FloatAxioms.of_uint63_spec, Uint63.of_Z_spec.
  rewrite Z.mod_small by (change wB with (2 ^ 63)%Z; lia).
  destruct (Z.of_nat k) as [|p|p] eqn:Hp; try lia.
  cbn [binary_normalize].
  destruct (binary_round_small p) as (m & e & ->); [|reflexivity].
  rewrite digits2_pos_size.
  destruct (Z.le_gt_cases (Z.pos (Pos.size p)) 53) as [H|H]; [exact H|].
  exfalso. pose proof (Pos.size_le p) as Hs.
  assert (2 ^ 54 <= 2 ^ Z.pos (Pos.size p))%Z
    by (apply Z.pow_le_mono_r; lia).
  assert (Z.pos (2 ^ Pos.size p) = 2 ^ Z.pos (Pos.size p))%Z
    by (rewrite Pos2Z.inj_pow; reflexivity).
  lia.
Qed.

(** No float is below zero in magnitude, and none is beyond infinity. *)
Lemma abs_ltb_zero (v : float) : (abs v <? 0)%float = false.
Proof.
  rewrite FloatAxioms.ltb_spec, FloatAxioms.abs_spec.
  destruct (Prim2SF v) as [sg| sg | |sg m e]; reflexivity.
Qed.

Lemma infinity_ltb_abs (v : float) : (infinity <? abs v)%float = false.
Proof.
  rewrite FloatAxioms.ltb_spec, FloatAxioms.abs_spec.
  destruct (Prim2SF v) as [sg| sg | |sg m e]; reflexivity.
Qed.

End CountFloats.

(** ** tna.py: the laws its tests exercise *)
Module TnaLaws.
Import Tna.

(** The order of information the tests use: the level of the first result
    is at most that of the second. *)
Definition level_le (r r' : result S) : Prop :=
  exists a b n m,
    r = Ok a /\ r' = Ok b
    /\ Fusion.info_level a = Ok n /\ Fusion.info_level b = Ok m
    /\ n <= m.

(** X1. [ResToken] absorbs under [add] and [AbsZero] annihilates under
    [mul], on either side and for every operand; along the chain
    [AbsZero], [MeasZero], [ResToken] of the second operand the level of
    [add s t] and of [mul s t] never decreases, whatever [s] is.  The chain
    cannot be refined by [Real]: [mul MeasZero MeasZero] is [MeasZero] but
    [mul MeasZero (Real 0)] is [AbsZero]. *)
Theorem absorption_and_monotonicity (x : S) :
  add x ResToken = Ok ResToken
  /\ add ResToken x = Ok ResToken
  /\ mul x AbsZero = Ok AbsZero
  /\ mul AbsZero x = Ok AbsZero
  /\ level_le (add x AbsZero) (add x MeasZero)
  /\ level_le (add x MeasZero) (add x ResToken)
  /\ level_le (mul x AbsZero) (mul x MeasZero)
  /\ level_le (mul x MeasZero) (mul x ResToken)
  /\ mul MeasZero MeasZero = Ok MeasZero
  /\ mul MeasZero (Real 0) = Ok AbsZero.
Proof.
  repeat apply conj; try (destruct x; reflexivity).
  - destruct x; unfold level_le; rewrite !add_oplus; simpl;
      eexists _, _, _, _; repeat apply conj; try reflexivity; simpl; lia.
  - destruct x; unfold level_le; rewrite !add_oplus; simpl;
      eexists _, _, _, _; repeat apply conj; try reflexivity; simpl; lia.
  - destruct x; unfold level_le, mul; case_zeros;
      eexists _, _, _, _; repeat apply conj; try reflexivity; simpl; lia.
  - destruct x; unfold level_le, mul; case_zeros;
      eexists _, _, _, _; repeat apply conj; try reflexivity; simpl; lia.
Qed.

(** X2. Multiplication distributes over addition when the multiplier is
    [AbsZero] or [ResToken], for all summands.  It does not in the two
    classes the tests name: a [MeasZero] multiplier over two non-zero
    [Real]s that cancel gives [AbsZero] on the left and [MeasZero] on the
    right; a [Real] multiplier over a [Real] and [ResToken] gives the
    multiplier itself on the left and [a * b + a] on the right. *)
Theorem distributivity_classes :
  (forall y z,
     (r ← add y z; mul AbsZero r)
     = (p ← mul AbsZero y; q ← mul AbsZero z; add p q))
  /\ (forall y z,
        (r ← add y z; mul ResToken r)
        = (p ← mul ResToken y; q ← mul ResToken z; add p q))
  /\ (forall y z : float,
        fne0 y = true -> fne0 z = true -> feq0 (y + z)%float = true ->
        (r ← add (Real y) (Real z); mul MeasZero r) = Ok AbsZero
        /\ (p ← mul MeasZero (Real y); q ← mul MeasZero (Real z); add p q)
           = Ok MeasZero)
  /\ (forall a b : float,
        (r ← add (Real b) ResToken; mul (Real a) r) = Ok (Real a)
        /\ (p ← mul (Real a) (Real b); q ← mul (Real a) ResToken; add p q)
           = Ok (Real (a * b + a)%float)).
Proof.
  repeat apply conj.
  - intros y z. rewrite add_oplus. destruct y, z; reflexivity.
  - intros y z. rewrite add_oplus.
    destruct y, z; simpl; unfold mul; case_zeros.
  - intros y z Hy Hz Hs. rewrite add_oplus. simpl. unfold mul. simpl.
    rewrite Hs, Hy, Hz. simpl. unfold fne0 in Hy, Hz.
    destruct (feq0 y); [discriminate|]. destruct (feq0 z); [discriminate|].
    auto.
  - intros a b. rewrite add_oplus. simpl. unfold mul.
    split; case_zeros.
Qed.

(** The failure by cancellation at [3] and [-3], as in the tests. *)
Lemma distributivity_classes_witness :
  (r ← add (Real 3) (Real (-3)); mul MeasZero r) = Ok AbsZero
  /\ (p ← mul MeasZero (Real 3); q ← mul MeasZero (Real (-3)); add p q)
     = Ok MeasZero.
Proof.
  destruct distributivity_classes as (_ & _ & H & _).
  apply (H 3%float (-3)%float); reflexivity.
Defined.

End TnaLaws.

(** ** fusion.py: pairs, counts and the fused value *)
Module FusionFacts.
Import Fusion.

Definition AGREEMENTS : list string :=
  ["AGREE"; "DISAGREE"; "INDETERMINATE"; "INAPPLICABLE"; "RESOLVED"].

Definition MODES : list string :=
  ["OK"; "REDUCED"; "DEGRADED"; "INCONSISTENT"; "FAILOVER"].

(** The pairs [(i, j)] with [i < j] of a list of sensor ids, by rows. *)
Fixpoint id_pairs (ids : list string) : list (string * string) :=
  match ids with
  | [] => []
  | x :: rest => ((fun y => (x, y)) <$> rest) ++ id_pairs rest
  end.

(** The level of an element: 0 for [AbsZero], 1 for [MeasZero], 2 for
    [Real], 3 for [ResToken]. *)
Definition level_of (x : Tna.S) : nat :=
  match x with
  | Tna.AbsZero => 0
  | Tna.MeasZero => 1
  | Tna.Real _ => 2
  | Tna.ResToken => 3
  end.

Lemma info_level_of (x : Tna.S) : info_level x = Ok (level_of x).
Proof. destruct x; reflexivity. Qed.

Lemma div_offline (x y : Tna.S) :
  x = Tna.AbsZero \/ y = Tna.AbsZero -> Tna.div x y = Ok Tna.AbsZero.
Proof.
  intros [->| ->]; [destruct y | destruct x]; try reflexivity;
    unfold Tna.div, Tna.div_tail, Tna.div_by_MeasZero; Tna.case_zeros.
Qed.

Lemma div_Real_inv (x y : Tna.S) (r : float) :
  Tna.div x y = Ok (Tna.Real r) ->
  exists va, x = Tna.Real va
             /\ (y = Tna.ResToken
                 \/ exists vb, y = Tna.Real vb /\ fne0 vb = true).
Proof.
  destruct x as [| | |va], y as [| | |vb];
    unfold Tna.div, Tna.div_tail, Tna.div_by_MeasZero; simpl;
    try discriminate; try (intros _; eauto; fail).
  - destruct (fne0 vb); discriminate.
  - destruct (fne0 vb); discriminate.
  - unfold fne0. destruct (feq0 va); simpl; discriminate.
  - unfold fne0. destruct (feq0 va), (feq0 vb) eqn:Hb; simpl;
      try discriminate; intros _; exists va; split; try reflexivity;
      right; exists vb; rewrite Hb; auto.
Qed.

Lemma pairwise_consistency_fields (a b : TypedReading) (eps : float)
    (p : PairwiseResult) :
  pairwise_consistency a b eps = Ok p ->
  sensor_a p = sensor_id a /\ sensor_b p = sensor_id b
  /\ Tna.div (s a) (s b) = Ok (ratio p)
  /\ level p = level_of (ratio p)
  /\ agreement p
     = match ratio p with
       | Tna.Real v =>
           if (abs (v - 1) <? eps)%float then "AGREE" else "DISAGREE"
       | Tna.MeasZero => "INDETERMINATE"
       | Tna.AbsZero => "INAPPLICABLE"
       | Tna.ResToken => "RESOLVED"
       end.
Proof.
  unfold pairwise_consistency.
  destruct (Tna.div (s a) (s b)) as [q|e]; simpl; [|discriminate].
  rewrite info_level_of. simpl. intros [= <-]. simpl.
  repeat apply conj; try reflexivity. now destruct q.
Qed.

(** X3. [pairwise_consistency] never raises and never answers UNKNOWN.  A
    pair with an [AbsZero] reading on either side is INAPPLICABLE; two
    [MeasZero] readings are RESOLVED; AGREE and DISAGREE need a [Real]
    first reading and a second reading that is [ResToken] or a non-zero
    [Real].  The answer depends on the order of the two readings: a
    non-zero value against zero is INDETERMINATE, zero against a non-zero
    value is AGREE or DISAGREE. *)
Theorem pairwise_agreement_table (a b : TypedReading) (eps : float) :
  exists p,
    pairwise_consistency a b eps = Ok p
    /\ sensor_a p = sensor_id a /\ sensor_b p = sensor_id b
    /\ Tna.div (s a) (s b) = Ok (ratio p)
    /\ info_level (ratio p) = Ok (level p)
    /\ agreement p ∈ AGREEMENTS
    /\ (s a = Tna.AbsZero \/ s b = Tna.AbsZero ->
        agreement p = "INAPPLICABLE")
    /\ (s a = Tna.MeasZero -> s b = Tna.MeasZero -> agreement p = "RESOLVED")
    /\ (agreement p = "AGREE" \/ agreement p = "DISAGREE" ->
        exists va, s a = Tna.Real va
                   /\ (s b = Tna.ResToken
                       \/ exists vb, s b = Tna.Real vb /\ fne0 vb = true))
    /\ (forall v, fne0 v = true -> s a = Tna.Real v -> s b = Tna.Real 0 ->
                  agreement p = "INDETERMINATE")
    /\ (forall v, fne0 v = true -> s a = Tna.Real 0 -> s b = Tna.Real v ->
                  agreement p = "AGREE" \/ agreement p = "DISAGREE").
Proof.
  destruct (pairwise_consistency_ok a b eps) as [p Hp]. exists p.
  destruct (pairwise_consistency_fields a b eps p Hp)
    as (Ha & Hb & Hdiv & Hlevel & Hagree).
  split; [exact Hp|]. split; [exact Ha|]. split; [exact Hb|].
  split; [exact Hdiv|]. split; [now rewrite Hlevel, info_level_of|].
  rewrite Hagree. repeat apply conj.
  - unfold AGREEMENTS. destruct (ratio p) as [| | |v];
      [| | |destruct (abs (v - 1) <? eps)%float]; set_solver.
  - intros Hoff. rewrite (div_offline _ _ Hoff) in Hdiv.
    injection Hdiv as <-. reflexivity.
  - intros Hsa Hsb. rewrite Hsa, Hsb in Hdiv. injection Hdiv as <-.
    reflexivity.
  - intros Hreal. destruct (ratio p) as [| | |v] eqn:Hr;
      try (destruct Hreal; discriminate).
    eapply div_Real_inv, Hdiv.
  - intros v Hv Hsa Hsb. rewrite Hsa, Hsb in Hdiv.
    unfold Tna.div, Tna.div_tail in Hdiv. simpl in Hdiv.
    unfold fne0 in Hv. destruct (feq0 v); [discriminate|]. simpl in Hdiv.
    injection Hdiv as <-. reflexivity.
  - intros v Hv Hsa Hsb. rewrite Hsa, Hsb in Hdiv.
    unfold Tna.div, Tna.div_tail in Hdiv. simpl in Hdiv.
    rewrite Hv in Hdiv. unfold fne0 in Hv.
    destruct (feq0 v); [discriminate|]. injection Hdiv as <-.
    destruct (abs _ <? eps)%float; auto.
Qed.

Lemma id_pairs_length (ids : list string) :
  2 * length (id_pairs ids) = length ids * (length ids - 1).
Proof.
  induction ids as [|x rest IH]; [reflexivity|].
  simpl. rewrite length_app, length_fmap. nia.
Qed.

(** X4. [all_pairwise] never raises; it compares every reading with every
    later one, row by row, so that a list of [n] readings gives
    [n (n - 1) / 2] results, the one of readings [i < j] carrying the ids
    of [i] and [j] in this order. *)
Theorem all_pairwise_pairs (readings : list TypedReading) (eps : float) :
  exists ps,
    all_pairwise readings eps = Ok ps
    /\ (fun p => (sensor_a p, sensor_b p)) <$> ps
       = id_pairs (sensor_id <$> readings)
    /\ 2 * length ps = length readings * (length readings - 1).
Proof.
  assert (H : exists ps,
             all_pairwise readings eps = Ok ps
             /\ (fun p => (sensor_a p, sensor_b p)) <$> ps
                = id_pairs (sensor_id <$> readings)).
  { induction readings as [|a rest (below & Hbelow & Hids)]; [simpl; eauto|].
    cbn [all_pairwise].
    destruct (mapM_ok (fun b => pairwise_consistency a b eps) rest)
      as [row Hrow].
    { intros b _. apply pairwise_consistency_ok. }
    rewrite Hrow, Hbelow. simpl. eexists. split; [reflexivity|].
    rewrite fmap_app, Hids. f_equal.
    apply mapM_Forall2 in Hrow. clear -Hrow.
    induction Hrow as [|b p rest row Hp _ IH]; [reflexivity|].
    rewrite !fmap_cons, IH.
    destruct (pairwise_consistency_fields a b eps p Hp) as (-> & -> & _).
    reflexivity. }
  destruct H as (ps & Hps & Hids). exists ps.
  split; [exact Hps|]. split; [exact Hids|].
  rewrite <- (length_fmap (fun p => (sensor_a p, sensor_b p))), Hids,
    id_pairs_length, length_fmap. reflexivity.
Qed.


(** What [fuse_group] returns, field by field. *)
Lemma fuse_group_run (readings : list TypedReading) (required_eligible : Z)
    (agree_eps : float) (max_disagree : Z)
    (optional_sensors : option (gset string)) :
  let optional := default ∅ optional_sensors in
  let values := s <$> readings in
  exists fv ps fr,
    Tna.avg_s values = Ok fv
    /\ all_pairwise readings agree_eps = Ok ps
    /\ fuse_group readings required_eligible agree_eps max_disagree
         optional_sensors = Ok fr
    /\ fused_value fr = fv
    /\ fused_sum fr = Tna.sum_spec values
    /\ eligible_count fr = Tna.count_s values
    /\ total_count fr = length readings
    /\ definite_count fr = count_if Tna.is_Real values
    /\ confidence fr = redundancy fr
    /\ sensor_alerts fr = derive_sensor_alerts readings optional
    /\ if (Z.of_nat (Tna.count_s values) <? required_eligible)%Z
       then group_mode fr = "FAILOVER" /\ pairwise fr = []
            /\ length (reasons fr) = 1
       else pairwise fr = ps
            /\ group_mode fr = mode_spec optional max_disagree fv readings ps
            /\ (reasons fr = [] <-> group_mode fr = "OK")
            /\ length (reasons fr) <= 1.
Proof.
  intros optional values.
  destruct (Tna.avg_s_ok values) as [fv Hfv].
  destruct (all_pairwise_ok readings agree_eps) as [ps Hps].
  exists fv, ps.
  unfold fuse_group. rewrite optional_or_empty. fold optional. fold values.
  rewrite Tna.sum_s_ok, Hfv. simpl.
  destruct (Z.of_nat (Tna.count_s values) <? required_eligible)%Z.
  - eexists. repeat apply conj; try reflexivity; try exact Hps.
    apply length_fmap.
  - rewrite Hps. simpl.
    rewrite count_required_disagree, count_semi_required_disagree,
      count_required_unsettled, alerts_required_degraded,
      alerts_required_offline, is_AbsZero_bool_decide,
      is_MeasZero_bool_decide.
    eexists. split; [reflexivity|]. split; [reflexivity|].
    split; [reflexivity|]. cbn [fused_value fused_sum eligible_count
      total_count definite_count confidence redundancy sensor_alerts
      pairwise group_mode reasons].
    repeat (split; [reflexivity|]). split; [apply length_fmap|].
    repeat (split; [reflexivity|]).
    unfold mode_spec.
    repeat (match goal with
            | |- context [decide ?P] => destruct (decide P)
            end;
            [rewrite bool_decide_eq_true_2 by assumption
            |rewrite bool_decide_eq_false_2 by assumption];
            cbn [fst snd];
            try (split; [reflexivity|]; split; [|simpl; lia];
                 split; [discriminate|discriminate])).
    split; [reflexivity|]. split; [|simpl; lia]. split; reflexivity.
Qed.

Lemma oplus_AbsZero_l (y : Tna.S) : Tna.oplus Tna.AbsZero y = y.
Proof. now destruct y. Qed.

Lemma level_of_oplus (x y : Tna.S) :
  level_of (Tna.oplus x y) = max (level_of x) (level_of y).
Proof. destruct x, y; reflexivity. Qed.

Lemma foldl_oplus_skip (acc : Tna.S) (M : list Tna.S) :
  foldl Tna.oplus acc (filter Tna.eligible M) = foldl Tna.oplus acc M.
Proof.
  revert acc. induction M as [|x M IH]; intros acc; [reflexivity|].
  rewrite filter_cons. destruct (decide (Tna.eligible x)) as [He|He]; simpl.
  - apply IH.
  - rewrite IH. f_equal. destruct x; try (exfalso; apply He; discriminate).
    now destruct acc.
Qed.

(** The sum is the fold over all the elements, from [AbsZero]. *)
Lemma sum_spec_foldl (M : list Tna.S) :
  Tna.sum_spec M = foldl Tna.oplus Tna.AbsZero M.
Proof.
  unfold Tna.sum_spec. rewrite <- (foldl_oplus_skip Tna.AbsZero M).
  destruct (filter Tna.eligible M) as [|first rest]; [reflexivity|].
  cbn [foldl]. now rewrite oplus_AbsZero_l.
Qed.

Lemma level_of_foldl (acc : Tna.S) (M : list Tna.S) :
  level_of (foldl Tna.oplus acc M)
  = max (level_of acc) (max_list (level_of <$> M)).
Proof.
  revert acc. induction M as [|x M IH]; intros acc; simpl; [lia|].
  rewrite IH, level_of_oplus. symmetry. apply Nat.max_assoc.
Qed.

Lemma level_of_sum_spec (M : list Tna.S) :
  level_of (Tna.sum_spec M) = max_list (level_of <$> M).
Proof. rewrite sum_spec_foldl, level_of_foldl. reflexivity. Qed.

(** The average of fewer than [2^53] elements. *)
Lemma avg_s_level (M : list Tna.S) (fv : Tna.S) :
  (Z.of_nat (length M) < 2 ^ 53)%Z ->
  Tna.avg_s M = Ok fv ->
  level_of fv = level_of (Tna.sum_spec M)
  /\ forall v, Tna.sum_spec M = Tna.Real v ->
               fv = Tna.Real (v / float_of_nat (Tna.count_s M))%float.
Proof.
  intros Hlen. unfold Tna.avg_s. rewrite Tna.sum_s_ok.
  destruct (Nat.eqb_spec (Tna.count_s M) 0) as [H0|Hpos].
  - intros [= <-]. rewrite Tna.count_s_length in H0.
    unfold Tna.sum_spec. apply length_zero_iff_nil in H0. rewrite H0.
    split; [reflexivity | discriminate].
  - assert (Hk : feq0 (float_of_nat (Tna.count_s M)) = false).
    { apply float_of_nat_nonzero; [lia|].
      rewrite Tna.count_s_length.
      pose proof (length_filter Tna.eligible M). lia. }
    simpl. unfold Tna.div, Tna.div_tail, Tna.div_by_MeasZero.
    destruct (Tna.sum_spec M) as [| | |v]; simpl; unfold fne0;
      rewrite ?Hk; simpl; rewrite ?andb_false_r; simpl;
      intros [= <-]; (split; [reflexivity|]); try discriminate.
    now intros ? [= <-].
Qed.

Lemma real_count_le (M : list Tna.S) :
  count_if Tna.is_Real M <= Tna.count_s M.
Proof.
  unfold count_if, Tna.count_s. rewrite !sum_list_ones.
  induction M as [|x M IH]; [reflexivity|].
  destruct x; simpl; lia.
Qed.

Lemma mode_spec_modes (optional : gset string) (max_disagree : Z)
    (fv : Tna.S) (readings : list TypedReading) (ps : list PairwiseResult) :
  mode_spec optional max_disagree fv readings ps ∈ MODES.
Proof.
  unfold mode_spec, MODES.
  repeat match goal with
         | |- context [decide ?P] => destruct (decide P)
         end; set_solver.
Qed.

(** X5. [fuse_group] never raises, and the fields of its result fit
    together: [total_count] is the number of readings, of which
    [eligible_count] are eligible and, of these, [definite_count] definite;
    [confidence] and [redundancy] are the same number; there is one sensor
    alert per reading, in order; the mode is one of the five modes; there
    is no reason exactly when the mode is OK and one reason otherwise; and
    the mode is OK only with at least [required_eligible] eligible
    readings. *)
Theorem fuse_group_bookkeeping (readings : list TypedReading)
    (required_eligible : Z) (agree_eps : float) (max_disagree : Z)
    (optional_sensors : option (gset string)) :
  exists fr,
    fuse_group readings required_eligible agree_eps max_disagree
      optional_sensors = Ok fr
    /\ total_count fr = length readings
    /\ eligible_count fr <= total_count fr
    /\ definite_count fr <= eligible_count fr
    /\ confidence fr = redundancy fr
    /\ alert_sensor_id <$> sensor_alerts fr = sensor_id <$> readings
    /\ group_mode fr ∈ MODES
    /\ (group_mode fr = "OK" <-> reasons fr = [])
    /\ length (reasons fr) = (if decide (group_mode fr = "OK") then 0 else 1)
    /\ (group_mode fr = "OK" ->
        (required_eligible <= Z.of_nat (eligible_count fr))%Z).
Proof.
  destruct (fuse_group_run readings required_eligible agree_eps max_disagree
              optional_sensors)
    as (fv & ps & fr & _ & _ & Hfr & _ & _ & He & Ht & Hd & Hc & Ha & Hmode).
  exists fr. split; [exact Hfr|]. split; [exact Ht|].
  split.
  { rewrite He, Ht, Tna.count_s_length.
    rewrite <- (length_fmap s readings). apply length_filter. }
  split; [rewrite He, Hd; apply real_count_le|].
  split; [exact Hc|].
  split.
  { rewrite Ha. unfold derive_sensor_alerts. rewrite <- list_fmap_compose.
    apply list_fmap_ext. intros i r _. simpl.
    destruct (Tna.is_AbsZero (s r)); [reflexivity|].
    destruct (Tna.is_MeasZero (s r)); [reflexivity|].
    destruct (Tna.is_Real (s r)); reflexivity. }
  rewrite He.
  destruct (Z.ltb_spec (Z.of_nat (Tna.count_s (s <$> readings)))
              required_eligible) as [Hlt|Hge].
  - destruct Hmode as (Hm & _ & Hr). rewrite Hm.
    split; [unfold MODES; set_solver|].
    split; [split; [discriminate|intros Hnil; rewrite Hnil in Hr;
                                 discriminate]|].
    split; [exact Hr | discriminate].
  - destruct Hmode as (_ & Hm & Hiff & Hle).
    split; [rewrite Hm; apply mode_spec_modes|].
    split; [symmetry; exact Hiff|].
    split; [|intros _; exact Hge].
    destruct (decide (group_mode fr = "OK")) as [Hok|Hno].
    + apply Hiff in Hok. now rewrite Hok.
    + destruct (reasons fr) as [|x [|y l]] eqn:Hr; simpl in *; try lia.
      exfalso. apply Hno, Hiff. reflexivity.
Qed.

(** X6. The fused sum and the fused value are of the kind of the most
    informative reading ([ResToken] over [Real] over [MeasZero] over
    [AbsZero]; [AbsZero] for no reading), for fewer than [2^53] readings.
    A [Real] fused value is the fused sum divided by the float of
    [eligible_count], so every [MeasZero] reading counts in the
    denominator. *)
Theorem fused_value_level (readings : list TypedReading)
    (required_eligible : Z) (agree_eps : float) (max_disagree : Z)
    (optional_sensors : option (gset string)) :
  (Z.of_nat (length readings) < 2 ^ 53)%Z ->
  exists fr,
    fuse_group readings required_eligible agree_eps max_disagree
      optional_sensors = Ok fr
    /\ level_of (fused_sum fr)
       = max_list ((fun r => level_of (s r)) <$> readings)
    /\ level_of (fused_value fr) = level_of (fused_sum fr)
    /\ forall v, fused_sum fr = Tna.Real v ->
                 fused_value fr
                 = Tna.Real (v / float_of_nat (eligible_count fr))%float.
Proof.
  intros Hlen.
  destruct (fuse_group_run readings required_eligible agree_eps max_disagree
              optional_sensors)
    as (fv & ps & fr & Hfv & _ & Hfr & Hv & Hs & He & _).
  exists fr. split; [exact Hfr|].
  rewrite Hs, Hv, He.
  split; [rewrite level_of_sum_spec, <- list_fmap_compose; reflexivity|].
  apply avg_s_level; [now rewrite length_fmap | exact Hfv].
Qed.

(** Three readings, one of them [MeasZero]: the average is over three. *)
Lemma fused_value_level_witness :
  exists fr,
    fuse_group
      [ Build_TypedReading "a" (Tna.Real 10) 0 "TEST" None;
        Build_TypedReading "b" (Tna.Real 10) 0 "TEST" None;
        Build_TypedReading "c" Tna.MeasZero 0 "TEST" None ]
      2 1%float 0 None = Ok fr
    /\ level_of (fused_value fr) = 2
    /\ fused_value fr = Tna.Real (20 / 3)%float.
Proof.
  destruct (fused_value_level
              [ Build_TypedReading "a" (Tna.Real 10) 0 "TEST" None;
                Build_TypedReading "b" (Tna.Real 10) 0 "TEST" None;
                Build_TypedReading "c" Tna.MeasZero 0 "TEST" None ]
              2 1%float 0 None)
    as (fr & Hfr & Hsum & Hval & Hreal); [vm_compute; reflexivity|].
  exists fr. split; [exact Hfr|].
  injection Hfr as <-. split; reflexivity.
Defined.

(** X7. Without an eligible reading (no reading at all, or every sensor
    offline) the mode is FAILOVER and the fused value [AbsZero], whatever
    the parameters are, [required_eligible <= 0] included. *)
Theorem no_eligible_reading_failover (readings : list TypedReading)
    (required_eligible : Z) (agree_eps : float) (max_disagree : Z)
    (optional_sensors : option (gset string)) :
  Forall (fun r => s r = Tna.AbsZero) readings ->
  exists fr,
    fuse_group readings required_eligible agree_eps max_disagree
      optional_sensors = Ok fr
    /\ group_mode fr = "FAILOVER"
    /\ fused_value fr = Tna.AbsZero
    /\ eligible_count fr = 0
    /\ length (reasons fr) = 1.
Proof.
  intros Hall.
  assert (Hcount : Tna.count_s (s <$> readings) = 0).
  { rewrite Tna.count_s_length. apply length_zero_iff_nil.
    induction Hall as [|r l Hr _ IH]; [reflexivity|].
    rewrite fmap_cons, filter_cons, Hr.
    destruct (decide (Tna.eligible Tna.AbsZero)) as [He|_]; [|exact IH].
    now contradiction He. }
  destruct (fuse_group_run readings required_eligible agree_eps max_disagree
              optional_sensors)
    as (fv & ps & fr & Hfv & _ & Hfr & Hv & _ & He & _ & _ & _ & _ & Hmode).
  assert (fv = Tna.AbsZero) as ->.
  { unfold Tna.avg_s in Hfv. rewrite Hcount in Hfv. now injection Hfv. }
  exists fr. split; [exact Hfr|].
  rewrite He, Hcount.
  destruct (_ <? required_eligible)%Z.
  - destruct Hmode as (Hm & _ & Hr). auto.
  - destruct Hmode as (_ & Hm & Hiff & Hle).
    unfold mode_spec in Hm.
    destruct (decide (Tna.AbsZero = Tna.AbsZero)) as [_|Hn];
      [|now contradiction Hn].
    repeat (split; [assumption || reflexivity|]).
    destruct (reasons fr) as [|x [|y l]] eqn:Hr; simpl in *; try lia.
    destruct Hiff as [Hiff _]. rewrite Hm in Hiff.
    specialize (Hiff eq_refl). discriminate.
Qed.

(** Three offline sensors and no requirement at all. *)
Lemma no_eligible_reading_failover_witness :
  exists fr,
    fuse_group
      [ Build_TypedReading "a" Tna.AbsZero 0 "TEST" None;
        Build_TypedReading "b" Tna.AbsZero 0 "TEST" None;
        Build_TypedReading "c" Tna.AbsZero 0 "TEST" None ]
      0 1%float 0 None = Ok fr
    /\ group_mode fr = "FAILOVER".
Proof.
  destruct (no_eligible_reading_failover
              [ Build_TypedReading "a" Tna.AbsZero 0 "TEST" None;
                Build_TypedReading "b" Tna.AbsZero 0 "TEST" None;
                Build_TypedReading "c" Tna.AbsZero 0 "TEST" None ]
              0 1%float 0 None)
    as (fr & Hfr & Hm & _); [repeat constructor|].
  exists fr. auto.
Defined.

(** X8. A negative [max_disagree] leaves two modes only: the count of
    disagreeing pairs, zero included, is already beyond it, so every group
    that is not in FAILOVER is INCONSISTENT. *)
Theorem negative_max_disagree (readings : list TypedReading)
    (required_eligible : Z) (agree_eps : float) (max_disagree : Z)
    (optional_sensors : option (gset string)) :
  (max_disagree < 0)%Z ->
  exists fr,
    fuse_group readings required_eligible agree_eps max_disagree
      optional_sensors = Ok fr
    /\ (group_mode fr = "FAILOVER" \/ group_mode fr = "INCONSISTENT").
Proof.
  intros Hneg.
  destruct (fuse_group_run readings required_eligible agree_eps max_disagree
              optional_sensors)
    as (fv & ps & fr & _ & _ & Hfr & _ & _ & _ & _ & _ & _ & _ & Hmode).
  exists fr. split; [exact Hfr|].
  destruct (_ <? required_eligible)%Z.
  - left. apply Hmode.
  - destruct Hmode as (_ & -> & _). unfold mode_spec.
    destruct (decide (fv = Tna.AbsZero)); [now left|].
    destruct (decide (beyond_max _ _ ps)) as [_|Hn]; [now right|].
    exfalso. apply Hn. unfold beyond_max. lia.
Qed.

(** Two readings in perfect agreement, and [max_disagree = -1]. *)
Lemma negative_max_disagree_witness :
  group_mode
  <$> fuse_group
        [ Build_TypedReading "a" (Tna.Real 10) 0 "TEST" None;
          Build_TypedReading "b" (Tna.Real 10) 0 "TEST" None ]
        2 1%float (-1) None
  = Ok "INCONSISTENT".
Proof.
  destruct (negative_max_disagree
              [ Build_TypedReading "a" (Tna.Real 10) 0 "TEST" None;
                Build_TypedReading "b" (Tna.Real 10) 0 "TEST" None ]
              2 1%float (-1) None) as (fr & Hfr & Hm); [reflexivity|].
  rewrite Hfr. simpl. f_equal. injection Hfr as <-. reflexivity.
Defined.

(** Where the results of [all_pairwise] come from. *)
Lemma all_pairwise_elem (readings : list TypedReading) (eps : float)
    (ps : list PairwiseResult) (p : PairwiseResult) :
  all_pairwise readings eps = Ok ps -> p ∈ ps ->
  exists i j a b,
    i < j /\ readings !! i = Some a /\ readings !! j = Some b
    /\ pairwise_consistency a b eps = Ok p.
Proof.
  revert ps. induction readings as [|a rest IH]; intros ps; simpl.
  - intros [= <-] Hp. inversion Hp.
  - destruct (mapM _ rest) as [row|e] eqn:Hrow; simpl; [|discriminate].
    destruct (all_pairwise rest eps) as [below|e] eqn:Hbelow; simpl;
      [|discriminate].
    intros [= <-] Hp. apply elem_of_app in Hp as [Hp|Hp].
    + apply mapM_Forall2 in Hrow.
      apply list_elem_of_lookup in Hp as [k Hk].
      destruct (Forall2_lookup_r _ _ _ _ _ Hrow Hk) as (b & Hb & Hab).
      exists 0, (Datatypes.S k), a, b. repeat split; [lia|exact Hb|exact Hab].
    + destruct (IH below eq_refl Hp) as (i & j & x & y & Hij & Hi & Hj & Hxy).
      exists (Datatypes.S i), (Datatypes.S j), x, y.
      repeat split; [lia|exact Hi|exact Hj|exact Hxy].
Qed.

Lemma disagree_needs_values (a b : TypedReading) (eps : float)
    (p : PairwiseResult) :
  pairwise_consistency a b eps = Ok p -> agreement p = "DISAGREE" ->
  (exists va, s a = Tna.Real va)
  /\ (s b = Tna.ResToken \/ exists vb, s b = Tna.Real vb).
Proof.
  intros Hp Hd.
  destruct (pairwise_consistency_fields a b eps p Hp)
    as (_ & _ & Hdiv & _ & Hagree).
  rewrite Hd in Hagree.
  destruct (ratio p) as [| | |v]; try discriminate.
  destruct (div_Real_inv _ _ _ Hdiv) as (va & Ha & [Hb|(vb & Hb & _)]);
    eauto.
Qed.

(** X9. Optional sensors that go [MeasZero] or [AbsZero] neither degrade
    nor reduce the group: when every non-optional reading is a [Real],
    there is at least one, every pair of non-optional readings agrees,
    enough readings are eligible and [max_disagree] is not negative, the
    mode is OK whatever number of optional sensors is indeterminate or
    offline. *)
Theorem optional_sensors_do_not_degrade (readings : list TypedReading)
    (required_eligible : Z) (agree_eps : float) (max_disagree : Z)
    (optional : gset string) :
  (Z.of_nat (length readings) < 2 ^ 53)%Z ->
  (0 <= max_disagree)%Z ->
  (required_eligible
   <= Z.of_nat (length (filter (fun r => s r <> Tna.AbsZero) readings)))%Z ->
  (exists r, r ∈ readings /\ sensor_id r ∉ optional) ->
  (forall r, r ∈ readings -> sensor_id r ∉ optional ->
             exists v, s r = Tna.Real v) ->
  (forall r, r ∈ readings -> sensor_id r ∈ optional ->
             s r = Tna.AbsZero \/ s r = Tna.MeasZero) ->
  (forall i j a b p,
     i < j -> readings !! i = Some a -> readings !! j = Some b ->
     sensor_id a ∉ optional -> sensor_id b ∉ optional ->
     pairwise_consistency a b agree_eps = Ok p -> agreement p = "AGREE") ->
  exists fr,
    fuse_group readings required_eligible agree_eps max_disagree
      (Some optional) = Ok fr
    /\ group_mode fr = "OK" /\ reasons fr = [].
Proof.
  intros Hlen Hmax Hreq (r0 & Hr0 & Hr0opt) Hreal Hopt Hagree.
  destruct (fuse_group_run readings required_eligible agree_eps max_disagree
              (Some optional))
    as (fv & ps & fr & Hfv & Hps & Hfr & _ & _ & _ & _ & _ & _ & _ & Hmode).
  exists fr. split; [exact Hfr|].
  assert (Hcount : Tna.count_s (s <$> readings)
                   = length (filter (fun r => s r <> Tna.AbsZero) readings)).
  { rewrite Tna.count_s_length. clear.
    induction readings as [|r l IH]; [reflexivity|].
    rewrite fmap_cons, !filter_cons. unfold Tna.eligible at 1.
    destruct (decide (s r <> Tna.AbsZero)); simpl; now rewrite IH. }
  rewrite Hcount in Hmode.
  destruct (Z.ltb_spec
              (Z.of_nat (length (filter (fun r => s r <> Tna.AbsZero)
                                   readings))) required_eligible); [lia|].
  destruct Hmode as (_ & Hm & Hiff & _). cbn [default] in Hm.
  assert (Hpair : forall p, p ∈ ps ->
            exists a b, a ∈ readings /\ b ∈ readings
              /\ pairwise_consistency a b agree_eps = Ok p
              /\ (sensor_id a ∉ optional -> sensor_id b ∉ optional ->
                  agreement p = "AGREE")).
  { intros p Hp.
    destruct (all_pairwise_elem readings agree_eps ps p Hps Hp)
      as (i & j & a & b & Hij & Hi & Hj & Hab).
    exists a, b. split; [eapply list_elem_of_lookup_2, Hi|].
    split; [eapply list_elem_of_lookup_2, Hj|]. split; [exact Hab|].
    intros Ha Hb. eapply Hagree; eauto. }
  assert (Hlevel : 2 <= level_of fv).
  { destruct (avg_s_level (s <$> readings) fv) as [-> _];
      [now rewrite length_fmap | exact Hfv|].
    rewrite level_of_sum_spec. destruct (Hreal r0 Hr0 Hr0opt) as [v Hv].
    apply (max_list_elem_of_le 2).
    apply list_elem_of_fmap. exists (Tna.Real v). split; [reflexivity|].
    apply list_elem_of_fmap. exists r0. auto. }
  assert (Hok : mode_spec optional max_disagree fv readings ps = "OK").
  { unfold mode_spec.
    destruct (decide (fv = Tna.AbsZero)) as [->|_]; [simpl in Hlevel; lia|].
    destruct (decide (beyond_max max_disagree (required_disagree optional)
                        ps)) as [Hb|_].
    { exfalso. unfold beyond_max in Hb.
      assert (Hex : Exists (required_disagree optional) ps)
        by (apply (proj1 (filter_length_Exists _ _)); lia).
      apply Exists_exists in Hex as (p & Hp & (Ha & Hb') & Hd).
      destruct (Hpair p Hp) as (a & b & _ & _ & Hab & Hag).
      destruct (pairwise_consistency_fields a b agree_eps p Hab)
        as (Hsa & Hsb & _).
      rewrite Hag in Hd; [discriminate | now rewrite <- Hsa
                         | now rewrite <- Hsb]. }
    destruct (decide (fv = Tna.MeasZero)) as [->|_];
      [simpl in Hlevel; lia|].
    destruct (decide (Exists (required_degraded optional) readings))
      as [Hex|_].
    { exfalso. apply Exists_exists in Hex as (r & Hr & Hropt & Hs).
      destruct (Hreal r Hr Hropt) as [v Hv]. congruence. }
    destruct (decide (Exists (required_unsettled optional) ps)) as [Hex|_].
    { exfalso. apply Exists_exists in Hex as (p & Hp & (Ha & Hb') & Hd).
      destruct (Hpair p Hp) as (a & b & _ & _ & Hab & Hag).
      destruct (pairwise_consistency_fields a b agree_eps p Hab)
        as (Hsa & Hsb & _).
      rewrite Hag in Hd; [destruct Hd; discriminate | now rewrite <- Hsa
                         | now rewrite <- Hsb]. }
    destruct (decide (Exists (required_offline optional) readings))
      as [Hex|_].
    { exfalso. apply Exists_exists in Hex as (r & Hr & Hropt & Hs).
      destruct (Hreal r Hr Hropt) as [v Hv]. congruence. }
    destruct (decide (beyond_max max_disagree
                        (semi_required_disagree optional) ps)) as [Hb|_];
      [|reflexivity].
    exfalso. unfold beyond_max in Hb.
    assert (Hex : Exists (semi_required_disagree optional) ps)
      by (apply (proj1 (filter_length_Exists _ _)); lia).
    apply Exists_exists in Hex as (p & Hp & _ & Hd).
    destruct (Hpair p Hp) as (a & b & Hina & Hinb & Hab & Hag).
    destruct (disagree_needs_values a b agree_eps p Hab Hd)
      as ((va & Hva) & Hvb).
    destruct (decide (sensor_id a ∈ optional)) as [Hao|Hao].
    - destruct (Hopt a Hina Hao); congruence.
    - destruct (decide (sensor_id b ∈ optional)) as [Hbo|Hbo].
      + destruct (Hopt b Hinb Hbo); destruct Hvb as [?|[vb ?]]; congruence.
      + rewrite (Hag Hao Hbo) in Hd. discriminate. }
  split; [now rewrite Hm|]. apply Hiff. now rewrite Hm.
Qed.

(** The heading group of full_pipeline.py while hovering: the compass
    gives a heading, the optional GPS course is indeterminate. *)
Lemma optional_sensors_do_not_degrade_witness :
  group_mode
  <$> fuse_group
        [ Build_TypedReading "MAG_Hdg" (Tna.Real 90) 0 "MAG" (Some 90%float);
          Build_TypedReading "GPS_Crs" Tna.MeasZero 0 "GPS" (Some 0%float) ]
        1 30%float 0 (Some {["GPS_Crs"]})
  = Ok "OK".
Proof.
  destruct (optional_sensors_do_not_degrade
              [ Build_TypedReading "MAG_Hdg" (Tna.Real 90) 0 "MAG"
                  (Some 90%float);
                Build_TypedReading "GPS_Crs" Tna.MeasZero 0 "GPS"
                  (Some 0%float) ]
              1 30%float 0 {["GPS_Crs"]})
    as (fr & Hfr & Hm & _).
  - vm_compute. reflexivity.
  - lia.
  - vm_compute. discriminate.
  - eexists. split; [left|]. simpl. set_solver.
  - intros r Hr Hopt. apply elem_of_cons in Hr as [->|Hr]; [eauto|].
    apply list_elem_of_singleton in Hr as ->. simpl in Hopt. set_solver.
  - intros r Hr Hopt. apply elem_of_cons in Hr as [->|Hr];
      [simpl in Hopt; set_solver|].
    apply list_elem_of_singleton in Hr as ->. auto.
  - intros i j a b p Hij Hi Hj Ha Hb _.
    destruct i as [|[|i]], j as [|[|j]]; try lia; simpl in Hi, Hj;
      try discriminate.
    injection Hj as <-. simpl in Hb. set_solver.
  - rewrite Hfr. simpl. now rewrite Hm.
Defined.

(** *** weighted_fuse and temporal_fuse *)

(** A call whose body starts with an [assert]: the failed assertion, or
    what the rest of the body gives. *)
Inductive asserting (A : Type) : Type :=
| Asserted (a : A)
| AssertionError.
Arguments Asserted {A} a.
Arguments AssertionError {A}.

(** The body of the loop over [zip(readings, weights)]: the state is the
    list [weighted] and the float [total_weight]. *)
Definition weigh (acc : list Tna.S * float) (rw : TypedReading * float)
  : result (list Tna.S * float) :=
  weighted_val ← Tna.mul (Tna.Real rw.2) (s rw.1);
  Ok (acc.1 ++ [weighted_val],
      if negb (Tna.is_AbsZero (s rw.1)) then (acc.2 + rw.2)%float
      else acc.2).

Definition weighted_fuse (readings : list TypedReading)
    (weights : list float) : asserting (result Tna.S) :=
  if negb (Nat.eqb (length readings) (length weights)) then AssertionError
  else
    Asserted
      (acc ← foldM weigh (zip readings weights) ([], 0%float);
       if feq0 acc.2 then Ok Tna.O_BM
       else
         result ← foldM Tna.add acc.1 Tna.O_BM;
         Tna.div result (Tna.Real acc.2)).

Definition temporal_fuse (current previous : Tna.S) (alpha : float)
  : result Tna.S :=
  weighted_current ← Tna.mul (Tna.Real alpha) current;
  weighted_previous ← Tna.mul (Tna.Real (1 - alpha)%float) previous;
  Tna.add weighted_current weighted_previous.

(** The readings that are not offline, with their weights. *)
Definition online (rws : list (TypedReading * float))
  : list (TypedReading * float) :=
  List.filter (fun rw => negb (Tna.is_AbsZero (s rw.1))) rws.

(** The value [mul] gives (it never raises). *)
Definition weighted_value (rw : TypedReading * float) : Tna.S :=
  match Tna.mul (Tna.Real rw.2) (s rw.1) with
  | Ok v => v
  | Raise _ => Tna.AbsZero
  end.

Definition total_weight (total : float) (rws : list (TypedReading * float))
  : float :=
  foldl (fun total rw =>
           if negb (Tna.is_AbsZero (s rw.1)) then (total + rw.2)%float
           else total) total rws.

Lemma weigh_loop (rws : list (TypedReading * float))
    (acc : list Tna.S * float) :
  foldM weigh rws acc
  = Ok (acc.1 ++ (weighted_value <$> rws), total_weight acc.2 rws).
Proof.
  revert acc. induction rws as [|[r w] rws IH]; intros [weighted total].
  - simpl. now rewrite app_nil_r.
  - destruct (Tna.mul_ok (Tna.Real w) (s r)) as [v Hv].
    assert (Hstep : weigh (weighted, total) (r, w)
                    = Ok (weighted ++ [v],
                          if negb (Tna.is_AbsZero (s r))
                          then (total + w)%float else total)).
    { unfold weigh. cbn [fst snd]. now rewrite Hv. }
    cbn [foldM]. rewrite Hstep.
    change (mbind ?g (Ok ?a)) with (g a). cbv beta. rewrite IH.
    cbn [fst snd fmap list_fmap total_weight foldl].
    unfold weighted_value at 2. cbn [fst snd]. rewrite Hv.
    now rewrite <- app_assoc.
Qed.

Lemma total_weight_online (total : float)
    (rws : list (TypedReading * float)) :
  total_weight total (online rws) = total_weight total rws.
Proof.
  revert total. induction rws as [|rw rws IH]; intros total; [reflexivity|].
  simpl. destruct (negb (Tna.is_AbsZero (s rw.1))) eqn:Hon; simpl.
  - rewrite Hon. apply IH.
  - apply IH.
Qed.

Lemma weighted_value_offline (rw : TypedReading * float) :
  Tna.is_AbsZero (s rw.1) = true -> weighted_value rw = Tna.AbsZero.
Proof.
  unfold weighted_value. destruct (s rw.1); try discriminate. reflexivity.
Qed.

Lemma weighted_online (rws : list (TypedReading * float)) :
  filter Tna.eligible (weighted_value <$> online rws)
  = filter Tna.eligible (weighted_value <$> rws).
Proof.
  induction rws as [|rw rws IH]; [reflexivity|].
  rewrite fmap_cons, filter_cons. cbn [online List.filter].
  destruct (Tna.is_AbsZero (s rw.1)) eqn:Hoff; cbn [negb].
  - rewrite (weighted_value_offline rw Hoff).
    destruct (decide (Tna.eligible Tna.AbsZero)) as [He|_]; [|exact IH].
    now contradiction He.
  - rewrite fmap_cons, filter_cons. fold (online rws). now rewrite IH.
Qed.

(** X10. [weighted_fuse] fails its assertion exactly when the two lists
    differ in length, and otherwise returns an element without raising.
    Offline readings do not count: the result is the one for the readings
    that are not [AbsZero] and their weights alone, and it is [AbsZero]
    when every reading is offline. *)
Theorem weighted_fuse_ignores_offline (readings : list TypedReading)
    (weights : list float) :
  (length readings <> length weights ->
   weighted_fuse readings weights = AssertionError)
  /\ (length readings = length weights ->
      (exists r, weighted_fuse readings weights = Asserted (Ok r))
      /\ weighted_fuse readings weights
         = weighted_fuse (online (zip readings weights)).*1
             (online (zip readings weights)).*2
      /\ (Forall (fun r => s r = Tna.AbsZero) readings ->
          weighted_fuse readings weights = Asserted (Ok Tna.AbsZero))).
Proof.
  split.
  - intros Hne. unfold weighted_fuse.
    destruct (Nat.eqb_spec (length readings) (length weights));
      [contradiction | reflexivity].
  - intros Hlen.
    assert (Hrun : forall rs ws, length rs = length ws ->
              weighted_fuse rs ws
              = Asserted
                  (if feq0 (total_weight 0 (zip rs ws)) then Ok Tna.O_BM
                   else Tna.div
                          (foldl Tna.oplus Tna.AbsZero
                             (filter Tna.eligible
                                (weighted_value <$> zip rs ws)))
                          (Tna.Real (total_weight 0 (zip rs ws))))).
    { intros rs ws Heq. unfold weighted_fuse.
      rewrite Heq, Nat.eqb_refl. simpl. rewrite weigh_loop. simpl.
      destruct (feq0 _); [reflexivity|].
      now rewrite Tna.foldM_add, foldl_oplus_skip. }
    split; [|split].
    + rewrite (Hrun _ _ Hlen). destruct (feq0 _); [eauto|].
      destruct (Tna.div_ok
                  (foldl Tna.oplus Tna.AbsZero
                     (filter Tna.eligible
                        (weighted_value <$> zip readings weights)))
                  (Tna.Real (total_weight 0 (zip readings weights))))
        as [r ->]. eauto.
    + rewrite (Hrun _ _ Hlen), Hrun by now rewrite !length_fmap.
      now rewrite zip_fst_snd, total_weight_online, weighted_online.
    + intros Hall. rewrite (Hrun _ _ Hlen).
      assert (Hz : total_weight 0 (zip readings weights) = 0%float).
      { clear Hlen Hrun. generalize 0%float. revert weights.
        induction Hall as [|r rs Hr _ IH]; intros [|w ws] total;
          try reflexivity.
        simpl. rewrite Hr. simpl. apply IH. }
      rewrite Hz. reflexivity.
Qed.

(** The mixed case of the tests: the offline sensor and its weight do
    not count. *)
Lemma weighted_fuse_ignores_offline_witness :
  weighted_fuse
    [ Build_TypedReading "a" (Tna.Real 10) 0 "TEST" None;
      Build_TypedReading "b" Tna.AbsZero 0 "TEST" None;
      Build_TypedReading "c" (Tna.Real 20) 0 "TEST" None ]
    [0.5; 0.25; 0.25]%float
  = weighted_fuse
      [ Build_TypedReading "a" (Tna.Real 10) 0 "TEST" None;
        Build_TypedReading "c" (Tna.Real 20) 0 "TEST" None ]
      [0.5; 0.25]%float.
Proof.
  destruct (weighted_fuse_ignores_offline
              [ Build_TypedReading "a" (Tna.Real 10) 0 "TEST" None;
                Build_TypedReading "b" Tna.AbsZero 0 "TEST" None;
                Build_TypedReading "c" (Tna.Real 20) 0 "TEST" None ]
              [0.5; 0.25; 0.25]%float) as (_ & H).
  destruct (H eq_refl) as (_ & Heq & _). exact Heq.
Defined.

(** X11. [temporal_fuse] never raises and never gives [ResToken]: a
    [ResToken] operand enters the sum as its weight.  Two [AbsZero]
    operands give [AbsZero]; with one [AbsZero] operand the other is
    scaled by its weight alone, so a value decays while the sensor is
    offline; two [Real]s give the weighted sum. *)
Theorem temporal_fuse_kinds (current previous : Tna.S) (alpha : float) :
  exists r,
    temporal_fuse current previous alpha = Ok r
    /\ r <> Tna.ResToken
    /\ (current = Tna.AbsZero -> previous = Tna.AbsZero -> r = Tna.AbsZero)
    /\ (forall v, current = Tna.Real v -> previous = Tna.AbsZero ->
                  r = Tna.Real (alpha * v)%float)
    /\ (forall v, current = Tna.AbsZero -> previous = Tna.Real v ->
                  r = Tna.Real ((1 - alpha) * v)%float)
    /\ (current = Tna.ResToken -> previous = Tna.AbsZero ->
        r = Tna.Real alpha)
    /\ (forall u v, current = Tna.Real u -> previous = Tna.Real v ->
                    r = Tna.Real (alpha * u + (1 - alpha) * v)%float).
Proof.
  unfold temporal_fuse.
  destruct current as [| | |u], previous as [| | |v]; unfold Tna.mul;
    Tna.case_zeros; rewrite ?Tna.add_oplus; simpl;
    (eexists; split; [reflexivity|]);
    repeat apply conj; try discriminate; try reflexivity;
    intros; congruence.
Qed.
End FusionFacts.

(** ** sensor_tna.py: what the classifier can give *)
Module ClassifyFacts.
Import Fusion.

(** [TypedReading.level] *)
Definition level (r : TypedReading) : Z :=
  if Tna.is_AbsZero (s r) then 0
  else if Tna.is_MeasZero (s r) then 1
  else if Tna.is_Real (s r) then 2
  else if Tna.is_ResToken (s r) then 3
  else (-1).

(** X12. A reading made by [classify_raw] is never [ResToken]: its level
    is 0, 1 or 2, it is eligible exactly when the raw value is a number
    and definite exactly when its element is that number, and its sensor
    alert is OFFLINE, DEGRADED or OK.  Without a configuration, and with
    the default one, no value is indeterminate: every number, the
    infinities included, becomes [Real]. *)
Theorem classify_raw_kinds (sid : string) (raw : option float) (ts : float)
    (src : string) (config : option SensorConfig) :
  let r := classify_raw sid raw ts src config in
  s r <> Tna.ResToken
  /\ (level r = 0 \/ level r = 1 \/ level r = 2)%Z
  /\ (is_eligible r = true <-> exists v, raw = Some v /\ is_nan v = false)
  /\ (is_definite r = true <-> exists v, raw = Some v /\ s r = Tna.Real v)
  /\ (forall optional,
        exists a, derive_sensor_alerts [r] optional = [a]
                  /\ alert_sensor_id a = sid
                  /\ alert a ∈ ["OFFLINE"; "DEGRADED"; "OK"])
  /\ (config = None \/ config = Some (default_config sid) ->
      s r = match raw with
            | Some v => if is_nan v then Tna.AbsZero else Tna.Real v
            | None => Tna.AbsZero
            end).
Proof.
  intros r. subst r. unfold classify_raw, level, is_eligible, is_definite.
  destruct raw as [v|].
  - destruct (is_nan v) eqn:Hnan; simpl.
    + refine (conj _ (conj _ (conj _ (conj _ (conj _ _))))).
      * discriminate.
      * auto.
      * split; [discriminate | intros (w & [= <-] & Hw); congruence].
      * split; [discriminate | intros (w & _ & Hw); discriminate].
      * intros optional. eexists. split; [reflexivity|]. simpl.
        split; [reflexivity | set_solver].
      * intros _. reflexivity.
    + refine (conj _ (conj _ (conj _ (conj _ (conj _ _))))).
      * destruct (_ || _); discriminate.
      * destruct (_ || _); simpl; auto.
      * destruct (_ || _); simpl; split; eauto.
      * destruct (_ || _); simpl; split; eauto; try discriminate.
        intros (w & _ & Hw). discriminate.
      * intros optional. destruct (_ || _); simpl;
          (eexists; split; [reflexivity|]; simpl;
           split; [reflexivity | set_solver]).
      * intros [->| ->]; simpl;
          now rewrite abs_ltb_zero, infinity_ltb_abs.
  - simpl. refine (conj _ (conj _ (conj _ (conj _ (conj _ _))))).
    + discriminate.
    + auto.
    + split; [discriminate | intros (w & Hw & _); discriminate].
    + split; [discriminate | intros (w & Hw & _); discriminate].
    + intros optional. eexists. split; [reflexivity|]. simpl.
      split; [reflexivity | set_solver].
    + intros _. reflexivity.
Qed.

End ClassifyFacts.

(** ** sensor_groups.py: groups and the system mode *)
Module GroupFacts.
Import SensorGroups.

(** What [decide_system] returns. *)
Record SystemDecision : Type := {
  system_mode : string;
  sys_groups : list GroupDecision
}.

(** [order.get(mode, 0)] *)
Definition order (mode : string) : Z :=
  default 0%Z
    (dict_get [("OK", 0%Z); ("REDUCED", 1%Z); ("DEGRADED", 2%Z);
               ("INCONSISTENT", 3%Z); ("FAILOVER", 4%Z)] mode).

(** [max(xs, key=key)]: the first of the greatest elements; [ValueError]
    for an empty list. *)
Definition max_by {A : Type} (key : A -> Z) (xs : list A) : result A :=
  match xs with
  | [] => Raise ValueError
  | x :: rest =>
      Ok (foldl (fun best y => if (key best <? key y)%Z then y else best)
                x rest)
  end.

Definition decide_system (groups : list GroupSpec)
    (typed_by_sensor : gmap string TypedReading) : result SystemDecision :=
  outs ← mapM (fun g => decide_group g typed_by_sensor) groups;
  worst ← max_by (fun o => order (group_mode (fusion o))) outs;
  Ok {| system_mode := group_mode (fusion worst); sys_groups := outs |}.

Lemma max_by_spec {A : Type} (key : A -> Z) (x : A) (rest : list A) :
  let best :=
    foldl (fun best y => if (key best <? key y)%Z then y else best) x rest in
  best ∈ x :: rest /\ Forall (fun y => (key y <= key best)%Z) (x :: rest).
Proof.
  revert x. induction rest as [|y rest IH]; intros x; simpl.
  - split; [left | constructor; [lia | constructor]].
  - destruct (Z.ltb_spec (key x) (key y)) as [Hlt|Hge].
    + destruct (IH y) as [Hin Hall]. simpl in Hin, Hall.
      split; [now right|].
      inversion Hall as [|? ? Hy Hrest]; subst.
      constructor; [lia | now constructor].
    + destruct (IH x) as [Hin Hall]. simpl in Hin, Hall. split.
      * apply elem_of_cons in Hin as [->|Hin]; [left | right; now right].
      * inversion Hall as [|? ? Hx Hrest]; subst.
        constructor; [exact Hx | constructor; [lia | exact Hrest]].
Qed.

Lemma order_modes (mode : string) :
  mode ∈ FusionFacts.MODES ->
  (0 <= order mode <= 4)%Z
  /\ (order mode = 0%Z <-> mode = "OK")
  /\ (order mode = 4%Z <-> mode = "FAILOVER").
Proof.
  unfold FusionFacts.MODES. intros Hm.
  repeat (apply elem_of_cons in Hm as [->|Hm];
          [vm_compute; repeat split; intros; congruence|]).
  inversion Hm.
Qed.

(** X13. [decide_system] raises [ValueError] for no group at all and for
    nothing else.  Otherwise it decides every group, and the system mode
    is the mode of a group that no group outranks in the order OK,
    REDUCED, DEGRADED, INCONSISTENT, FAILOVER: it is OK exactly when every
    group is OK and FAILOVER exactly when some group is. *)
Theorem decide_system_worst (groups : list GroupSpec)
    (typed_by_sensor : gmap string TypedReading) :
  (groups = [] -> decide_system groups typed_by_sensor = Raise ValueError)
  /\ (groups <> [] ->
      exists out,
        decide_system groups typed_by_sensor = Ok out
        /\ Forall2 (fun g o => decide_group g typed_by_sensor = Ok o)
             groups (sys_groups out)
        /\ (exists o, o ∈ sys_groups out
                      /\ system_mode out = group_mode (fusion o))
        /\ Forall (fun o => (order (group_mode (fusion o))
                             <= order (system_mode out))%Z) (sys_groups out)
        /\ (system_mode out = "OK"
            <-> Forall (fun o => group_mode (fusion o) = "OK")
                  (sys_groups out))
        /\ (system_mode out = "FAILOVER"
            <-> Exists (fun o => group_mode (fusion o) = "FAILOVER")
                  (sys_groups out))).
Proof.
  split; [intros ->; reflexivity|]. intros Hne. unfold decide_system.
  destruct (mapM_ok (fun g => decide_group g typed_by_sensor) groups)
    as [outs Houts].
  { intros g _. apply decide_group_ok. }
  rewrite Houts. apply mapM_Forall2 in Houts.
  assert (Hmodes : Forall (fun o => group_mode (fusion o)
                                    ∈ FusionFacts.MODES) outs).
  { clear Hne. induction Houts as [|g o gs os Hg _ IH]; constructor;
      [|exact IH].
    unfold decide_group in Hg.
    destruct (FusionFacts.fuse_group_run
                (omap (fun sid => typed_by_sensor !! sid) (sensors g))
                (required_eligible g) (agree_eps g) (max_outliers g)
                (Some (optional_sensors g)))
      as (fv & ps & fr & _ & _ & Hfr & _ & _ & _ & _ & _ & _ & _ & Hmode).
    rewrite Hfr in Hg. injection Hg as <-. simpl.
    destruct (_ <? _)%Z.
    - destruct Hmode as (-> & _). unfold FusionFacts.MODES. set_solver.
    - destruct Hmode as (_ & -> & _). apply FusionFacts.mode_spec_modes. }
  destruct outs as [|o outs].
  { inversion Houts; subst. now contradiction Hne. }
  cbn [max_by]. change (mbind ?g (Ok ?a)) with (g a). cbv beta.
  destruct (max_by_spec (fun o => order (group_mode (fusion o))) o outs)
    as [Hin Hall].
  set (worst := foldl _ o outs) in *.
  eexists. split; [reflexivity|]. cbn [system_mode sys_groups].
  split; [exact Houts|]. split; [eauto|]. split; [exact Hall|].
  assert (Hw : group_mode (fusion worst) ∈ FusionFacts.MODES).
  { rewrite Forall_forall in Hmodes. now apply Hmodes. }
  destruct (order_modes _ Hw) as (Hrange & Hok & Hfail).
  change (foldl _ o outs) with worst.
  split.
  - rewrite <- Hok. split.
    + intros H0. rewrite Forall_forall in Hall, Hmodes |- *.
      intros x Hx. specialize (Hall x Hx).
      destruct (order_modes _ (Hmodes x Hx)) as (Hr & Hxok & _).
      apply Hxok. lia.
    + intros Hall'. rewrite Forall_forall in Hall'.
      apply Hok. now apply Hall'.
  - rewrite <- Hfail. split.
    + intros H4. apply Exists_exists. exists worst. split; [exact Hin|].
      now apply Hfail.
    + intros Hex. apply Exists_exists in Hex as (x & Hx & Hxm).
      rewrite Forall_forall in Hall. specialize (Hall x Hx).
      cbv beta in Hall. rewrite Hxm in Hall.
      change (order "FAILOVER") with 4%Z in Hall. lia.
Qed.

(** A system of one group without readings is in FAILOVER. *)
Lemma decide_system_worst_witness :
  system_mode
  <$> decide_system
        [ {| name := "g"; sensors := ["a"; "b"]; required_eligible := 2;
             agree_eps := 1%float; max_outliers := 0;
             optional_sensors := ∅ |} ] ∅
  = Ok "FAILOVER".
Proof.
  destruct (decide_system_worst
              [ {| name := "g"; sensors := ["a"; "b"];
                   required_eligible := 2; agree_eps := 1%float;
                   max_outliers := 0; optional_sensors := ∅ |} ] ∅)
    as (_ & H).
  destruct H as (out & Hout & _); [discriminate|].
  rewrite Hout. injection Hout as <-. reflexivity.
Defined.

(** X14. [decide_group] looks at the readings of its own sensors only: a
    listed sensor without an entry in the dictionary is skipped, so that
    [total_count] is the number of listed sensors that have one (it gets
    no alert, unlike a sensor whose reading is [AbsZero]), and entries of
    other sensors change nothing. *)
Theorem decide_group_own_sensors (g : GroupSpec)
    (typed_by_sensor : gmap string TypedReading) :
  exists out,
    decide_group g typed_by_sensor = Ok out
    /\ group out = name g
    /\ total_count (fusion out)
       = length (filter (fun sid => is_Some (typed_by_sensor !! sid))
                   (sensors g))
    /\ length (sensor_alerts (fusion out)) = total_count (fusion out)
    /\ forall typed',
         (forall sid, sid ∈ sensors g ->
                      typed' !! sid = typed_by_sensor !! sid) ->
         decide_group g typed' = Ok out.
Proof.
  unfold decide_group.
  destruct (FusionFacts.fuse_group_run
              (omap (fun sid => typed_by_sensor !! sid) (sensors g))
              (required_eligible g) (agree_eps g) (max_outliers g)
              (Some (optional_sensors g)))
    as (fv & ps & fr & _ & _ & Hfr & _ & _ & _ & Ht & _ & _ & Ha & _).
  rewrite Hfr. simpl. eexists. split; [reflexivity|]. simpl.
  split; [reflexivity|]. split; [|split].
  - rewrite Ht. generalize (sensors g). intros l.
    induction l as [|sid l IH]; [reflexivity|].
    rewrite filter_cons. cbn [omap list_omap].
    destruct (typed_by_sensor !! sid) as [r|] eqn:Hr.
    + destruct (decide (is_Some (Some r))) as [_|Hn];
        [|exfalso; apply Hn; eauto].
      cbn [length]. f_equal. exact IH.
    + destruct (decide (is_Some None)) as [[? Hn]|_];
        [discriminate | exact IH].
  - rewrite Ha, Ht. unfold derive_sensor_alerts. apply length_fmap.
  - intros typed' Hsame.
    assert (Heq : omap (fun sid => typed' !! sid) (sensors g)
                  = omap (fun sid => typed_by_sensor !! sid) (sensors g)).
    { revert Hsame. generalize (sensors g). intros l Hsame.
      induction l as [|sid l IH]; [reflexivity|].
      cbn [omap list_omap]. rewrite Hsame by left.
      assert (Hrest : omap (fun sid => typed' !! sid) l
                      = omap (fun sid => typed_by_sensor !! sid) l).
      { apply IH. intros x Hx. apply Hsame. now right. }
      destruct (typed_by_sensor !! sid); [f_equal|]; exact Hrest. }
    now rewrite Heq, Hfr.
Qed.

End GroupFacts.

(** ** window_policy.py: the decider over many ticks *)
Module WindowFacts.
Import WindowPolicy.

(** The modes that escalate. *)
Definition ESCALATED : list string :=
  ["DEGRADED"; "INCONSISTENT"; "FAILOVER"; "REDUCED"].

(** The last [n] elements of a list. *)
Definition lastn {A : Type} (n : nat) (l : list A) : list A :=
  drop (length l - n) l.

(** The raw and stable modes of successive updates of one group, from its
    history, its bound and its stable mode. *)
Fixpoint replay (p : WindowParams) (n : nat) (hist : list string)
    (stable : string) (bases : list string) : list (string * string) :=
  match bases with
  | [] => []
  | base :: rest =>
      let hist' := deque_append hist n base in
      let stable' := stable_spec p hist' stable in
      (base, stable') :: replay p n hist' stable' rest
  end.

Lemma lastn_app {A : Type} (n : nat) (l k : list A) :
  lastn n (lastn n l ++ k) = lastn n (l ++ k).
Proof.
  unfold lastn. rewrite !length_app, length_drop.
  rewrite !drop_app, drop_drop, length_drop.
  f_equal; f_equal; lia.
Qed.

Lemma lastn_length {A : Type} (n : nat) (l : list A) :
  length (lastn n l) <= n.
Proof. unfold lastn. rewrite length_drop. lia. Qed.

Lemma trailing_run_le (hist : list string) (mode : string) :
  trailing_run hist mode <= length hist.
Proof.
  induction hist as [|x rest IH]; [reflexivity|].
  simpl. destruct (decide _); simpl; lia.
Qed.

(** What an update that returns has done. *)
Lemma update_inv (self d : WindowedDecider) (g : GroupSpec)
    (typed_by_sensor : gmap string TypedReading) (res : UpdateOut) :
  update self g typed_by_sensor = Ok (d, res) ->
  let st := default (fresh_state (params self)) (_state self !! name g) in
  let hist := deque_append (history st) (maxlen st) (base_group_mode res) in
  decide_group g typed_by_sensor = Ok (decision res)
  /\ base_group_mode res = group_mode (fusion (decision res))
  /\ stable_group_mode res = stable_spec (params self) hist (stable_mode st)
  /\ params d = params self
  /\ _state d !! name g
     = Some {| history := hist; maxlen := maxlen st;
               stable_mode := stable_group_mode res |}.
Proof.
  unfold update.
  destruct (decide_group g typed_by_sensor) as [out|e]; [|discriminate].
  simpl. unfold _get_state.
  destruct (_state self !! name g) as [st|] eqn:Hprev; simpl.
  - intros [= <- <-]. cbn [decision base_group_mode stable_group_mode
      params _state].
    repeat split; try (rewrite <- stable_chain; reflexivity).
    apply lookup_insert_eq.
  - pose proof (deque_maxlen_cases (max_history (params self))) as Hlen.
    destruct (deque_maxlen (max_history (params self))) as [m|e]; simpl;
      [|discriminate].
    destruct Hlen as [_ ->].
    intros [= <- <-]. cbn [decision base_group_mode stable_group_mode
      params _state].
    repeat split; try (rewrite <- stable_chain; reflexivity).
    apply lookup_insert_eq.
Qed.

(** An update returns unless it has to make a state with a bound that
    [deque] refuses. *)
Lemma update_returns (self : WindowedDecider) (g : GroupSpec)
    (typed_by_sensor : gmap string TypedReading) :
  is_Some (_state self !! name g)
  \/ (0 <= max_history (params self) <= PY_SSIZE_T_MAX)%Z ->
  exists d res, update self g typed_by_sensor = Ok (d, res).
Proof.
  intros Hpre. unfold update.
  destruct (decide_group_ok g typed_by_sensor) as [out ->].
  simpl. unfold _get_state.
  destruct (_state self !! name g) as [st|] eqn:Hprev; simpl; [eauto|].
  destruct Hpre as [[? ?]|Hfits]; [discriminate|].
  rewrite (deque_maxlen_ok _ Hfits). simpl. eauto.
Qed.

Lemma base_mode_modes (g : GroupSpec)
    (typed_by_sensor : gmap string TypedReading) (out : GroupDecision) :
  decide_group g typed_by_sensor = Ok out ->
  group_mode (fusion out) ∈ FusionFacts.MODES.
Proof.
  unfold decide_group. intros Hg.
  destruct (FusionFacts.fuse_group_run
              (omap (fun sid => typed_by_sensor !! sid) (sensors g))
              (required_eligible g) (agree_eps g) (max_outliers g)
              (Some (optional_sensors g)))
    as (fv & ps & fr & _ & _ & Hfr & _ & _ & _ & _ & _ & _ & _ & Hmode).
  rewrite Hfr in Hg. injection Hg as <-. simpl.
  destruct (_ <? _)%Z.
  - destruct Hmode as (-> & _). unfold FusionFacts.MODES. set_solver.
  - destruct Hmode as (_ & -> & _). apply FusionFacts.mode_spec_modes.
Qed.

(** The three ways a stable mode comes about. *)
Lemma stable_spec_cases (p : WindowParams) (hist : list string)
    (stable : string) :
  let r := stable_spec p hist stable in
  (r ∈ ESCALATED /\ persists p hist r)
  \/ ((forall m, m ∈ ESCALATED -> ~ persists p hist m)
      /\ ((r = "OK" /\ (stable ∉ ESCALATED \/ persists p hist "OK"))
          \/ (r = stable /\ stable ∈ ESCALATED
              /\ ~ persists p hist "OK"))).
Proof.
  unfold stable_spec, escalation.
  destruct (head _) as [mode|] eqn:Hhead.
  - left. apply head_Some_elem_of, list_elem_of_filter in Hhead as [Hp Hin].
    split; [|exact Hp]. unfold ESCALATED. set_solver.
  - right. fold ESCALATED. split.
    + intros m Hm Hp. apply head_None in Hhead.
      assert (Hin : m ∈ filter (persists p hist)
                          ["FAILOVER"; "INCONSISTENT"; "DEGRADED"; "REDUCED"]).
      { apply list_elem_of_filter. split; [exact Hp|].
        unfold ESCALATED in Hm. set_solver. }
      rewrite Hhead in Hin. inversion Hin.
    + destruct (decide (stable ∈ ESCALATED)) as [Hin|Hout]; [|left; auto].
      destruct (decide (persists p hist "OK")); [left | right]; auto.
Qed.

Lemma never_persists (p : WindowParams) (n : nat) (hist : list string)
    (base mode : string) :
  (Z.of_nat n < threshold p mode)%Z ->
  ~ persists p (deque_append hist n base) mode.
Proof.
  intros Hn Hp. unfold persists in Hp.
  pose proof (trailing_run_le (deque_append hist n base) mode).
  destruct (deque_append_suffix hist n base) as [_ Hlen]. lia.
Qed.

(** Successive updates of one group are the replay of its raw modes. *)
Lemma run_updates_replay (g : GroupSpec)
    (ticks : list (gmap string TypedReading)) :
  forall (self d : WindowedDecider) (outs : list (string * string)),
  run_updates self g ticks = Ok (d, outs) ->
  let st := default (fresh_state (params self)) (_state self !! name g) in
  params d = params self
  /\ length outs = length ticks
  /\ Forall (fun o => o.1 ∈ FusionFacts.MODES) outs
  /\ outs = replay (params self) (maxlen st) (history st) (stable_mode st)
              outs.*1
  /\ (ticks <> [] ->
      exists st',
        _state d !! name g = Some st'
        /\ maxlen st' = maxlen st
        /\ history st' = lastn (maxlen st) (history st ++ outs.*1)
        /\ last outs.*2 = Some (stable_mode st')).
Proof.
  induction ticks as [|tick ticks IH]; intros self d outs; simpl.
  - intros [= <- <-]. simpl. repeat split; [constructor | congruence].
  - destruct (update self g tick) as [[self1 res]|e] eqn:Hup; simpl;
      [|discriminate].
    destruct (run_updates self1 g ticks) as [[d' outs']|e] eqn:Hrun; simpl;
      [|discriminate].
    intros [= <- <-].
    destruct (update_inv _ _ _ _ _ Hup) as (Hdec & Hbase & Hstable & Hp & Hst).
    destruct (IH _ _ _ Hrun) as (Hp' & Hlen & Hmodes & Hreplay & Hlast).
    rewrite Hst, Hp in *. cbn [default from_option id history maxlen
      stable_mode] in *.
    split; [congruence|]. split; [simpl; congruence|].
    split.
    { constructor; [|exact Hmodes]. simpl. rewrite Hbase.
      eapply base_mode_modes, Hdec. }
    split.
    { cbn [fmap list_fmap fst replay]. rewrite <- Hstable.
      f_equal. exact Hreplay. }
    intros _. destruct ticks as [|tick' ticks].
    + simpl in Hrun. injection Hrun as <- <-. simpl.
      eexists. split; [exact Hst|]. simpl. repeat split.
    + destruct Hlast as (st' & Hst' & Hmax & Hhist & Hl); [discriminate|].
      exists st'. split; [exact Hst'|]. split; [exact Hmax|]. split.
      * rewrite Hhist. unfold deque_append.
        change (drop (length ?l - ?n) ?l) with (lastn n l).
        rewrite lastn_app, <- app_assoc. reflexivity.
      * cbn [fmap list_fmap snd]. cbn [fmap list_fmap snd] in Hl.
        now rewrite last_cons, Hl.
Qed.


Lemma replay_modes (p : WindowParams) (n : nat) (bases : list string) :
  forall hist stable,
  Forall (fun o => o.2 ∈ FusionFacts.MODES)
    (replay p n hist stable bases).
Proof.
  induction bases as [|base rest IH]; intros hist stable; simpl;
    constructor; [|apply IH].
  simpl. unfold FusionFacts.MODES.
  destruct (stable_spec_cases p (deque_append hist n base) stable)
    as [[Hin _]|[_ [[-> _]|(-> & Hin & _)]]];
    unfold ESCALATED in *; set_solver.
Qed.

Lemma replay_never (p : WindowParams) (n : nat) (mode : string)
    (bases : list string) :
  mode ∈ ESCALATED -> (Z.of_nat n < threshold p mode)%Z ->
  forall hist stable,
  stable <> mode ->
  Forall (fun o => o.2 <> mode) (replay p n hist stable bases).
Proof.
  intros Hmode Hn.
  induction bases as [|base rest IH]; intros hist stable Hne; simpl;
    [constructor|].
  assert (Hnew : stable_spec p (deque_append hist n base) stable <> mode).
  { destruct (stable_spec_cases p (deque_append hist n base) stable)
      as [[_ Hp]|[_ [[-> _]|(-> & _)]]].
    - intros Heq. rewrite Heq in Hp. now apply never_persists in Hp.
    - intros <-. unfold ESCALATED in Hmode. set_solver.
    - exact Hne. }
  constructor; [exact Hnew | now apply IH].
Qed.

Lemma replay_latched (p : WindowParams) (n : nat) (bases : list string) :
  (Z.of_nat n < ok_recover_k p)%Z ->
  forall hist stable,
  stable ∈ ESCALATED ->
  Forall (fun o => o.2 ∈ ESCALATED) (replay p n hist stable bases).
Proof.
  intros Hn.
  induction bases as [|base rest IH]; intros hist stable Hin; simpl;
    [constructor|].
  assert (Hnew : stable_spec p (deque_append hist n base) stable
                 ∈ ESCALATED).
  { destruct (stable_spec_cases p (deque_append hist n base) stable)
      as [[H _]|[_ [[_ [H|H]]|(-> & _)]]]; try assumption.
    - contradiction.
    - exfalso. revert H. apply never_persists. exact Hn. }
  constructor; [exact Hnew | now apply IH].
Qed.

Lemma replay_stays_escalated (p : WindowParams) (n : nat)
    (bases : list string) :
  (Z.of_nat n < ok_recover_k p)%Z ->
  forall hist stable i j si sj,
  i <= j ->
  replay p n hist stable bases !! i = Some si ->
  replay p n hist stable bases !! j = Some sj ->
  si.2 <> "OK" -> sj.2 <> "OK".
Proof.
  intros Hn.
  induction bases as [|base rest IH]; intros hist stable i j si sj Hij;
    simpl; [discriminate|].
  destruct i as [|i].
  - intros [= <-] Hj Hsi. simpl in Hsi.
    destruct j as [|j]; [now injection Hj as <-|]. simpl in Hj.
    assert (Hesc : stable_spec p (deque_append hist n base) stable
                   ∈ ESCALATED).
    { pose proof (replay_modes p n [base] hist stable) as Hm.
      inversion Hm as [|? ? H _]; subst. simpl in H.
      unfold FusionFacts.MODES in H. unfold ESCALATED. set_solver. }
    pose proof (replay_latched p n rest Hn (deque_append hist n base) _
                  Hesc) as Hall.
    rewrite Forall_forall in Hall.
    apply list_elem_of_lookup_2, Hall in Hj.
    intros Heq. rewrite Heq in Hj. unfold ESCALATED in Hj. set_solver.
  - destruct j as [|j]; [lia|]. simpl. apply IH. lia.
Qed.

Lemma run_updates_returns (g : GroupSpec)
    (ticks : list (gmap string TypedReading)) :
  forall self,
  (0 <= max_history (params self) <= PY_SSIZE_T_MAX)%Z ->
  exists d outs, run_updates self g ticks = Ok (d, outs).
Proof.
  induction ticks as [|tick ticks IH]; intros self Hpos; simpl; [eauto|].
  destruct (update_returns self g tick) as (self1 & res & Hup); [now right|].
  rewrite Hup. simpl.
  destruct (update_inv _ _ _ _ _ Hup) as (_ & _ & _ & Hp & _).
  destruct (IH self1) as (d & outs & ->); [now rewrite Hp|].
  simpl. eauto.
Qed.

Lemma run_updates_started (p : WindowParams) (g : GroupSpec)
    (ticks : list (gmap string TypedReading)) (d : WindowedDecider)
    (outs : list (string * string)) :
  run_updates (new_decider (Some p)) g ticks = Ok (d, outs) ->
  outs = [] \/ (0 <= max_history p)%Z.
Proof.
  destruct ticks as [|tick ticks]; simpl; [intros [= <- <-]; now left|].
  unfold update. destruct (decide_group_ok g tick) as [out ->]. simpl.
  unfold _get_state. simpl. rewrite lookup_empty.
  pose proof (deque_maxlen_cases (max_history p)) as Hlen.
  destruct (deque_maxlen (max_history p)) as [m|e]; simpl; [|discriminate].
  intros _. right. lia.
Qed.

(** X15. A decider keeps a sliding window: run from a new decider over any
    ticks, with a bound [max_history] from 0 to [sys.maxsize], the updates
    all return, the raw and stable modes are among the five modes, and the
    history of the group is the last [max_history] raw modes, never more.
    With any other bound the first update raises: [ValueError] for a
    negative bound down to [-2^63], [OverflowError] for a bound below
    that or above [sys.maxsize], which [deque] cannot take. *)
Theorem window_holds_last_modes (p : WindowParams) (g : GroupSpec)
    (ticks : list (gmap string TypedReading)) :
  (ticks <> [] -> (- PY_SSIZE_T_MAX - 1 <= max_history p < 0)%Z ->
   run_updates (new_decider (Some p)) g ticks = Raise ValueError)
  /\ (ticks <> [] ->
      (max_history p < - PY_SSIZE_T_MAX - 1)%Z
      \/ (PY_SSIZE_T_MAX < max_history p)%Z ->
      run_updates (new_decider (Some p)) g ticks = Raise OverflowError)
  /\ ((0 <= max_history p <= PY_SSIZE_T_MAX)%Z ->
      exists d outs,
        run_updates (new_decider (Some p)) g ticks = Ok (d, outs)
        /\ length outs = length ticks
        /\ Forall (fun o => o.1 ∈ FusionFacts.MODES
                            /\ o.2 ∈ FusionFacts.MODES) outs
        /\ (ticks <> [] ->
            exists st,
              _state d !! name g = Some st
              /\ history st = lastn (Z.to_nat (max_history p)) outs.*1
              /\ length (history st) <= Z.to_nat (max_history p)
              /\ last outs.*2 = Some (stable_mode st))).
Proof.
  assert (Hfirst : forall e,
             ticks <> [] -> deque_maxlen (max_history p) = Raise e ->
             run_updates (new_decider (Some p)) g ticks = Raise e).
  { intros e Hne He. destruct ticks as [|tick ticks]; [congruence|].
    simpl. unfold update. destruct (decide_group_ok g tick) as [out ->].
    simpl. unfold _get_state. simpl. rewrite lookup_empty, He.
    reflexivity. }
  pose proof (deque_maxlen_cases (max_history p)) as Hlen.
  split; [|split].
  - intros Hne Hneg. apply Hfirst; [exact Hne|].
    destruct (deque_maxlen (max_history p)) as [m|e]; [lia|].
    destruct Hlen as [[-> _]|[_ ?]]; [reflexivity | lia].
  - intros Hne Hout. apply Hfirst; [exact Hne|].
    destruct (deque_maxlen (max_history p)) as [m|e]; [lia|].
    destruct Hlen as [[_ ?]|[-> _]]; [lia | reflexivity].
  - clear Hfirst Hlen. intros Hpos.
    destruct (run_updates_returns g ticks (new_decider (Some p)) Hpos)
      as (d & outs & Hrun).
    exists d, outs. split; [exact Hrun|].
    destruct (run_updates_replay g ticks _ _ _ Hrun)
      as (_ & Hlen & Hbase & Hreplay & Hlast).
    simpl in Hreplay, Hlast. rewrite lookup_empty in Hreplay, Hlast.
    simpl in Hreplay, Hlast.
    split; [exact Hlen|]. split.
    + pose proof (replay_modes p (Z.to_nat (max_history p)) outs.*1 []
                    "OK") as Hst.
      rewrite <- Hreplay in Hst.
      rewrite Forall_forall in Hbase, Hst |- *. auto.
    + intros Hne. destruct (Hlast Hne) as (st & Hst & _ & Hhist & Hl).
      exists st. split; [exact Hst|]. split; [exact Hhist|].
      split; [rewrite Hhist; apply lastn_length | exact Hl].
Qed.

(** Five ticks with a window of two. *)
Lemma window_holds_last_modes_witness :
  exists d outs st,
    run_updates
      (new_decider
         (Some {| degraded_k := 3; reduced_k := 3; inconsistent_k := 2;
                  failover_k := 5; ok_recover_k := 3; max_history := 2 |}))
      test_group
      (replicate 5 (test_typed (Tna.Real 10) (Tna.Real 10) Tna.MeasZero))
    = Ok (d, outs)
    /\ _state d !! "g" = Some st
    /\ history st = ["DEGRADED"; "DEGRADED"].
Proof.
  destruct (window_holds_last_modes
              {| degraded_k := 3; reduced_k := 3; inconsistent_k := 2;
                 failover_k := 5; ok_recover_k := 3; max_history := 2 |}
              test_group
              (replicate 5
                 (test_typed (Tna.Real 10) (Tna.Real 10) Tna.MeasZero)))
    as (_ & _ & H).
  assert (Hp : (0 <= 2 <= PY_SSIZE_T_MAX)%Z)
    by (split; apply Z.leb_le; reflexivity).
  destruct (H Hp) as (d & outs & Hrun & _ & _ & Hlast).
  assert (Hne : replicate 5
                  (test_typed (Tna.Real 10) (Tna.Real 10) Tna.MeasZero)
                <> []) by (cbn [replicate]; discriminate).
  destruct (Hlast Hne) as (st & Hst & Hhist & _).
  exists d, outs, st. split; [exact Hrun|]. split; [exact Hst|].
  rewrite Hhist. vm_compute in Hrun.
  assert (Houts : outs = replicate 5 ("DEGRADED", "OK"))
    by (cbn [replicate]; congruence).
  rewrite Houts. reflexivity.
Defined.

(** The first update with a bound that [deque] refuses: [2^63] and
    [-2^63 - 1] do not fit a [Py_ssize_t], [-1] and [-2^63] do. *)
Example test_refused_max_history :
  let run n :=
    fst <$> run_updates
              (new_decider
                 (Some {| degraded_k := 3; reduced_k := 3;
                          inconsistent_k := 2; failover_k := 5;
                          ok_recover_k := 3; max_history := n |}))
              test_group
              [test_typed (Tna.Real 10) (Tna.Real 10) Tna.MeasZero] in
  (run 9223372036854775808%Z, run (-9223372036854775809)%Z,
   run (-1)%Z, run (-9223372036854775808)%Z)
  = (Raise OverflowError, Raise OverflowError,
     Raise ValueError, Raise ValueError).
Proof. vm_compute. reflexivity. Qed.

(** X16. A threshold beyond the window is never met.  From a new decider,
    whatever the ticks are: a mode whose threshold exceeds [max_history]
    never becomes the stable mode; and when [ok_recover_k] exceeds
    [max_history], a group whose stable mode has once left OK never
    returns to OK. *)
Theorem threshold_beyond_window (p : WindowParams) (g : GroupSpec)
    (ticks : list (gmap string TypedReading)) (d : WindowedDecider)
    (outs : list (string * string)) :
  run_updates (new_decider (Some p)) g ticks = Ok (d, outs) ->
  (forall mode,
     mode ∈ ESCALATED -> (max_history p < threshold p mode)%Z ->
     Forall (fun o => o.2 <> mode) outs)
  /\ ((max_history p < ok_recover_k p)%Z ->
      forall i j si sj,
        i <= j -> outs !! i = Some si -> outs !! j = Some sj ->
        si.2 <> "OK" -> sj.2 <> "OK").
Proof.
  intros Hrun.
  destruct (run_updates_replay g ticks _ _ _ Hrun)
    as (_ & _ & _ & Hreplay & _).
  simpl in Hreplay. rewrite lookup_empty in Hreplay. simpl in Hreplay.
  destruct (run_updates_started p g ticks d outs Hrun) as [->|Hpos].
  { split; [constructor | intros _ i j si sj _ Hi; now destruct i]. }
  split.
  - intros mode Hmode Hk. rewrite Hreplay. apply replay_never.
    + exact Hmode.
    + lia.
    + intros <-. unfold ESCALATED in Hmode. set_solver.
  - intros Hk. rewrite Hreplay. apply replay_stays_escalated. lia.
Qed.

(** Three DEGRADED ticks with [degraded_k = 3] and a window of two. *)
Lemma threshold_beyond_window_witness :
  exists d outs,
    run_updates
      (new_decider
         (Some {| degraded_k := 3; reduced_k := 3; inconsistent_k := 2;
                  failover_k := 5; ok_recover_k := 3; max_history := 2 |}))
      test_group
      (replicate 3 (test_typed (Tna.Real 10) (Tna.Real 10) Tna.MeasZero))
    = Ok (d, outs)
    /\ Forall (fun o => o.1 = "DEGRADED" /\ o.2 <> "DEGRADED") outs.
Proof.
  destruct (run_updates_returns test_group
              (replicate 3
                 (test_typed (Tna.Real 10) (Tna.Real 10) Tna.MeasZero))
              (new_decider
                 (Some {| degraded_k := 3; reduced_k := 3;
                          inconsistent_k := 2; failover_k := 5;
                          ok_recover_k := 3; max_history := 2 |})))
    as (d & outs & Hrun); [split; apply Z.leb_le; reflexivity|].
  exists d, outs. split; [exact Hrun|].
  destruct (threshold_beyond_window _ _ _ _ _ Hrun) as [H _].
  assert (Hmode : "DEGRADED" ∈ ESCALATED) by (unfold ESCALATED; left).
  assert (Hk : (max_history
                  {| degraded_k := 3; reduced_k := 3; inconsistent_k := 2;
                     failover_k := 5; ok_recover_k := 3; max_history := 2 |}
                < threshold
                    {| degraded_k := 3; reduced_k := 3; inconsistent_k := 2;
                       failover_k := 5; ok_recover_k := 3;
                       max_history := 2 |} "DEGRADED")%Z)
    by (vm_compute; reflexivity).
  specialize (H "DEGRADED" Hmode Hk).
  rewrite Forall_forall in H |- *. intros o Ho. split; [|now apply H].
  vm_compute in Hrun.
  assert (Houts : outs = replicate 3 ("DEGRADED", "OK"))
    by (cbn [replicate]; congruence).
  rewrite Houts in Ho. cbn [replicate] in Ho.
  repeat (apply elem_of_cons in Ho as [->|Ho]; [reflexivity|]).
  inversion Ho.
Defined.

(** X17. A threshold that is not positive is always met.  With
    [failover_k <= 0] every update that returns reports the stable mode
    FAILOVER, whatever the readings are; and when any of the four
    thresholds is not positive the stable mode is never OK. *)
Theorem nonpositive_threshold_pins (self d : WindowedDecider)
    (g : GroupSpec) (typed_by_sensor : gmap string TypedReading)
    (res : UpdateOut) :
  update self g typed_by_sensor = Ok (d, res) ->
  ((failover_k (params self) <= 0)%Z -> stable_group_mode res = "FAILOVER")
  /\ (forall mode,
        mode ∈ ESCALATED -> (threshold (params self) mode <= 0)%Z ->
        stable_group_mode res <> "OK").
Proof.
  intros Hup.
  destruct (update_inv _ _ _ _ _ Hup) as (_ & _ & Hstable & _).
  rewrite Hstable. split.
  - intros Hk. unfold stable_spec, escalation. rewrite filter_cons.
    destruct (decide (persists _ _ "FAILOVER")) as [_|Hn]; [reflexivity|].
    exfalso. apply Hn. unfold persists.
    change (threshold (params self) "FAILOVER")
      with (failover_k (params self)). lia.
  - intros mode Hmode Hk.
    match goal with
    | |- stable_spec ?p ?h ?s <> _ =>
        destruct (stable_spec_cases p h s) as [[Hin _]|[Hnone _]]
    end.
    + intros Heq. rewrite Heq in Hin. unfold ESCALATED in Hin. set_solver.
    + exfalso. apply (Hnone mode Hmode). unfold persists. lia.
Qed.

(** Healthy readings and [failover_k = 0]. *)
Lemma nonpositive_threshold_pins_witness :
  exists d res,
    update
      (new_decider
         (Some {| degraded_k := 3; reduced_k := 3; inconsistent_k := 2;
                  failover_k := 0; ok_recover_k := 3; max_history := 10 |}))
      test_group (test_typed (Tna.Real 10) (Tna.Real 10) (Tna.Real 10))
    = Ok (d, res)
    /\ base_group_mode res = "OK"
    /\ stable_group_mode res = "FAILOVER".
Proof.
  destruct (update_returns
              (new_decider
                 (Some {| degraded_k := 3; reduced_k := 3;
                          inconsistent_k := 2; failover_k := 0;
                          ok_recover_k := 3; max_history := 10 |}))
              test_group
              (test_typed (Tna.Real 10) (Tna.Real 10) (Tna.Real 10)))
    as (d & res & Hup); [right; split; apply Z.leb_le; reflexivity|].
  exists d, res. split; [exact Hup|].
  destruct (nonpositive_threshold_pins _ _ _ _ _ Hup) as [Hpin _].
  assert (Hk : (0 <= 0)%Z) by lia.
  split; [|exact (Hpin Hk)].
  unfold update in Hup.
  destruct (decide_group _ _) as [out|e] eqn:Hout; [|discriminate].
  vm_compute in Hout. injection Hout as <-.
  cbn [mbind result_bind] in Hup.
  destruct (_get_state _ _) as [[self1 st]|e]; [|discriminate].
  injection Hup as _ <-. reflexivity.
Defined.

End WindowFacts.

(** ** The fault aggregator *)

Module AggregatorFacts.
Import FaultAggregator.

(** The faults of one subsystem, in input order. *)
Definition faults_in (k : string) (faults : list Fault) : list Fault :=
  List.filter (fun f => String.eqb (subsystem f) k) faults.

(** The pair results [aggregate_faults] keeps. *)
Definition is_fault (p : Fault) : bool := String.eqb (status p) "FAULT".

Lemma group_by_snoc (faults : list Fault) (f : Fault) :
  group_by_subsystem (faults ++ [f])
  = dict_set (group_by_subsystem faults) (subsystem f)
      (default [] (dict_get (group_by_subsystem faults) (subsystem f))
         ++ [f]).
Proof. unfold group_by_subsystem. now rewrite foldl_app. Qed.

Lemma group_by_spec (faults : list Fault) :
  NoDup (group_by_subsystem faults).*1
  /\ forall k,
       dict_get (group_by_subsystem faults) k
       = match faults_in k faults with
         | [] => None
         | l => Some l
         end.
Proof.
  induction faults as [|f faults [IHnd IH]] using rev_ind.
  - split; [constructor | reflexivity].
  - rewrite group_by_snoc. split; [now apply dict_set_NoDup|].
    intros k. rewrite dict_get_set. unfold faults_in in *.
    rewrite List.filter_app. simpl.
    destruct (String.eqb_spec (subsystem f) k) as [->|Hne].
    + rewrite IH. now destruct (List.filter _ faults).
    + rewrite app_nil_r. apply IH.
Qed.

Lemma group_by_entry (faults : list Fault) (k : string) (l : list Fault) :
  (k, l) ∈ group_by_subsystem faults -> l = faults_in k faults /\ l <> [].
Proof.
  intros Hin. destruct (group_by_spec faults) as [Hnd Hget].
  apply elem_dict_get in Hin; [|exact Hnd].
  rewrite Hget in Hin. destruct (faults_in k faults); [discriminate|].
  injection Hin as <-. split; [reflexivity | discriminate].
Qed.

Lemma group_by_keys (faults : list Fault) (k : string) :
  k ∈ (group_by_subsystem faults).*1
  <-> exists f, f ∈ faults /\ subsystem f = k.
Proof.
  destruct (group_by_spec faults) as [_ Hget].
  split.
  - intros Hk.
    destruct (dict_get (group_by_subsystem faults) k) as [l|] eqn:Hl.
    + rewrite Hget in Hl. unfold faults_in in Hl.
      destruct (List.filter _ faults) as [|f l'] eqn:Hf; [discriminate|].
      assert (Hin : In f (List.filter
                            (fun f => String.eqb (subsystem f) k) faults))
        by (rewrite Hf; now left).
      apply List.filter_In in Hin as [Hin Heq].
      exists f. split; [now apply list_elem_of_In|].
      now apply String.eqb_eq.
    + apply dict_get_None in Hl. contradiction.
  - intros (f & Hin & Hsub).
    destruct (dict_get (group_by_subsystem faults) k) as [l|] eqn:Hl.
    + apply dict_get_elem in Hl.
      apply list_elem_of_fmap. now exists (k, l).
    + exfalso. rewrite Hget in Hl. unfold faults_in in Hl.
      assert (Hin' : In f (List.filter
                             (fun f => String.eqb (subsystem f) k) faults)).
      { apply List.filter_In. split; [now apply list_elem_of_In|].
        now apply String.eqb_eq. }
      destruct (List.filter _ faults); [contradiction | discriminate].
Qed.

Lemma dict_set_append_total (d : list (string * list Fault)) (k : string)
    (f : Fault) :
  sum_list (length <$> (dict_set d k (default [] (dict_get d k) ++ [f])).*2)
  = Datatypes.S (sum_list (length <$> d.*2)).
Proof.
  induction d as [|[k0 l0] d IH]; [reflexivity|].
  cbn [dict_set dict_get].
  destruct (String.eqb k0 k).
  - cbn [default from_option id]. rewrite !fmap_cons.
    cbn [snd sum_list sum_list_with]. rewrite length_app. simpl. lia.
  - rewrite !fmap_cons. cbn [snd sum_list sum_list_with].
    rewrite IH. lia.
Qed.

Lemma group_by_total (faults : list Fault) :
  sum_list (length <$> (group_by_subsystem faults).*2) = length faults.
Proof.
  induction faults as [|f faults IH] using rev_ind; [reflexivity|].
  rewrite group_by_snoc, dict_set_append_total, IH, length_app. simpl. lia.
Qed.

Lemma sort_key_le_total (subsystems : list (string * Subsystem))
    (a b : AggregatedFault) :
  sort_key_le subsystems a b = false -> sort_key_le subsystems b a = true.
Proof.
  unfold sort_key_le. simpl. intros H.
  apply orb_false_iff in H as [H1 H2].
  apply Z.ltb_ge in H1.
  destruct (Z.eqb_spec (type_rank (agg_fault_type a))
              (type_rank (agg_fault_type b))) as [Heq|Hne].
  - simpl in H2. apply Z.leb_gt in H2.
    apply orb_true_iff. right. apply andb_true_iff. split.
    + apply Z.eqb_eq. lia.
    + apply Z.leb_le. lia.
  - apply orb_true_iff. left. apply Z.ltb_lt. lia.
Qed.

Lemma sort_key_le_trans (subsystems : list (string * Subsystem))
    (a b c : AggregatedFault) :
  sort_key_le subsystems a b = true -> sort_key_le subsystems b c = true ->
  sort_key_le subsystems a c = true.
Proof.
  unfold sort_key_le. simpl.
  rewrite !orb_true_iff, !andb_true_iff, !Z.ltb_lt, !Z.eqb_eq, !Z.leb_le.
  lia.
Qed.

Lemma count_type_to_dict (t : FaultType) (l : list AggregatedFault) :
  count_type t (to_dict <$> l)
  = length (List.filter
              (fun a => String.eqb (FaultType_value (agg_fault_type a))
                          (FaultType_value t)) l).
Proof.
  unfold count_type. rewrite sum_list_ones. f_equal.
  induction l as [|a l IH]; [reflexivity|].
  rewrite fmap_cons. simpl.
  destruct (String.eqb _ _); simpl; now rewrite IH.
Qed.

(** Decide the comparisons of string literals in the goal. *)
Ltac eval_eqb :=
  repeat match goal with
         | |- context [if String.eqb ?x ?y then _ else _] =>
             let v := eval vm_compute in (String.eqb x y) in
             change (String.eqb x y) with v; cbv iota
         end.

Lemma count_types_total (l : list AggregatedFault) :
  count_type ROOT_CAUSE (to_dict <$> l) + count_type CASCADE (to_dict <$> l)
  + count_type INDEPENDENT (to_dict <$> l) = length l.
Proof.
  rewrite !count_type_to_dict.
  induction l as [|a l IH]; [reflexivity|].
  cbn [List.filter].
  destruct (agg_fault_type a); cbn [FaultType_value] in *; eval_eqb;
    cbn [length]; lia.
Qed.

Section Run.
Variable subsystems : list (string * Subsystem).
Variable format_float : nat -> float -> string.
Variable pair_results : list Fault.

Local Notation faults := (faults_of subsystems format_float pair_results).
Local Notation by_subsystem := (by_subsystem_of subsystems format_float pair_results).
Local Notation faulty := (faulty_of subsystems format_float pair_results).
Local Notation roots := (root_subsystems_of subsystems format_float pair_results).
Local Notation cascade_set :=
  (cascade_subsystems_of subsystems format_float pair_results).
Local Notation applied := (apply_rules faults).2.

(** The loop that counts the entries of each severity. *)
Definition count_severities (aggregated : list AggregatedFault)
  : list (string * nat) :=
  foldl (fun acc agg =>
           let sev := Severity_value (agg_severity agg) in
           dict_set acc sev (default 0 (dict_get acc sev) + 1))
        [] aggregated.

(** The result of [aggregate_faults] over the list [aggregated] that the
    classification loop builds. *)
Definition result_of (aggregated : list AggregatedFault) : Aggregate :=
  let sorted := sort_by (sort_key_le subsystems) aggregated in
  let serialized := to_dict <$> sorted in
  {| subsystem_faults := serialized;
     total_faults := length faults;
     root_causes := count_type ROOT_CAUSE serialized;
     n_cascades := count_type CASCADE serialized;
     independent :=
       match faults with
       | [] => None
       | _ :: _ => Some (count_type INDEPENDENT serialized)
       end;
     by_severity := count_severities sorted |}.

Lemma aggregate_faults_run :
  exists aggregated,
    Forall2
      (fun entry a =>
         classify subsystems faulty roots cascade_set applied
           entry.1 entry.2 = Ok a)
      by_subsystem aggregated
    /\ aggregate_faults subsystems format_float pair_results
       = Ok (result_of aggregated).
Proof.
  unfold result_of, aggregate_faults, faulty_of, root_subsystems_of,
    cascade_subsystems_of, by_subsystem_of, faults_of.
  destruct (List.filter _ pair_results) as [|f fs] eqn:Hfaults.
  { exists []. split; [constructor | reflexivity]. }
  set (fl := annotate subsystems format_float <$> f :: fs).
  pose proof (classify_ok subsystems format_float pair_results) as Hok.
  unfold faulty_of, root_subsystems_of, cascade_subsystems_of,
    by_subsystem_of, faults_of in Hok. rewrite Hfaults in Hok.
  fold fl in Hok.
  destruct (apply_rules fl) as [[rs cs] ap] eqn:Hrules.
  simpl in Hok.
  destruct (mapM_ok
              (fun '(subsys_id, subsys_faults) =>
                 classify subsystems
                   (list_to_set (group_by_subsystem fl).*1)
                   rs cs ap subsys_id subsys_faults)
              (group_by_subsystem fl)) as [aggregated Hagg].
  { intros [sid sfs] _. destruct (Hok sid sfs) as (a & Ha & _). eauto. }
  rewrite Hagg. exists aggregated. split.
  - apply mapM_Forall2 in Hagg.
    eapply Forall2_impl; [exact Hagg|].
    intros [sid sfs] a. auto.
  - reflexivity.
Qed.

(** What [classify] puts into an entry whatever the fault type. *)
Lemma classify_fields (subsys_id : string) (subsys_faults : list Fault)
    (a : AggregatedFault) :
  classify subsystems faulty roots cascade_set applied subsys_id
    subsys_faults = Ok a ->
  agg_subsystem a = subsys_id
  /\ agg_primary_fault a = default empty_fault (head subsys_faults)
  /\ agg_cascades a = tail subsys_faults
  /\ agg_rule_applied a = rule_name <$> applied !! subsys_id
  /\ agg_severity a
     = match agg_fault_type a with
       | CASCADE => Severity_CASCADE
       | _ => Severity_FAULT
       end.
Proof.
  unfold classify.
  repeat case_bool_decide.
  1-2: intros [= <-]; repeat split.
  destruct (get_faulty_upstreams _ _ _) as [[|u l]|e]; [| |discriminate].
  - destruct (has_faulty_downstream _ _ _ _ _) as [[[] v]|e];
      [| |discriminate]; intros [= <-]; repeat split.
  - intros [= <-]; repeat split.
Qed.

(** The entries of the result against the groups of [by_subsystem]. *)
Lemma entries_of_groups (aggregated : list AggregatedFault) :
  Forall2
    (fun entry a =>
       classify subsystems faulty roots cascade_set applied
         entry.1 entry.2 = Ok a)
    by_subsystem aggregated ->
  agg_subsystem <$> aggregated = by_subsystem.*1
  /\ Forall (fun a =>
               agg_primary_fault a :: agg_cascades a
               = faults_in (agg_subsystem a) faults) aggregated.
Proof.
  unfold by_subsystem_of.
  intros Hall.
  assert (Hgroups : Forall (fun entry => entry.2 = faults_in entry.1 faults
                                         /\ entry.2 <> [])
                      (group_by_subsystem faults)).
  { apply Forall_forall. intros [k l] Hin. now apply group_by_entry. }
  induction Hall as [|[k l] a d ags Hc Hall IH]; [split; constructor|].
  apply Forall_cons in Hgroups as [[Hl Hne] Hgroups].
  destruct (IH Hgroups) as [IH1 IH2].
  apply classify_fields in Hc as (Hsub & Hprim & Hcasc & _).
  simpl in Hsub, Hprim, Hcasc, Hl, Hne. split.
  - rewrite !fmap_cons. cbn [fst]. rewrite Hsub. f_equal. exact IH1.
  - constructor; [|exact IH2].
    rewrite Hprim, Hcasc, Hsub, <- Hl.
    destruct l; [contradiction | reflexivity].
Qed.

Lemma faults_status (f : Fault) : f ∈ faults -> status f = "FAULT".
Proof.
  unfold faults_of. intros Hf.
  apply list_elem_of_fmap in Hf as (p & -> & Hp).
  apply list_elem_of_In, List.filter_In in Hp as [_ Hp].
  simpl. now apply String.eqb_eq.
Qed.

Lemma faulty_spec (k : string) :
  k ∈ faulty <-> exists f, f ∈ faults /\ subsystem f = k.
Proof.
  unfold faulty_of, by_subsystem_of.
  rewrite elem_of_list_to_set. apply group_by_keys.
Qed.

Lemma any_fault_faulty (sub : string) :
  any_fault sub faults = true <-> sub ∈ faulty.
Proof.
  rewrite faulty_spec. unfold any_fault. rewrite existsb_exists.
  split.
  - intros (f & Hin & Hf). apply andb_true_iff in Hf as [Hsub _].
    exists f. split; [now apply list_elem_of_In | now apply String.eqb_eq].
  - intros (f & Hin & Hsub). exists f.
    split; [now apply list_elem_of_In|].
    apply andb_true_iff. split; apply String.eqb_eq;
      [exact Hsub | now apply faults_status].
Qed.

(** An entry of the result is [to_dict] of what [classify] returns for a
    group of [by_subsystem]. *)
Lemma entry_of (aggregated : list AggregatedFault) (sf : SubsystemFault) :
  Forall2
    (fun entry a =>
       classify subsystems faulty roots cascade_set applied
         entry.1 entry.2 = Ok a)
    by_subsystem aggregated ->
  sf ∈ subsystem_faults (result_of aggregated) ->
  exists k l a,
    (k, l) ∈ by_subsystem
    /\ classify subsystems faulty roots cascade_set applied k l = Ok a
    /\ sf = to_dict a.
Proof.
  intros Hall Hsf. unfold result_of in Hsf. cbn [subsystem_faults] in Hsf.
  apply list_elem_of_fmap in Hsf as (a & -> & Ha).
  rewrite sort_by_perm in Ha.
  apply list_elem_of_lookup in Ha as [i Hi].
  destruct (Forall2_lookup_r _ _ _ _ _ Hall Hi) as ([k l] & He & Hc).
  exists k, l, a. split; [|auto].
  apply list_elem_of_lookup. eauto.
Qed.

Lemma entry_subsystems (aggregated : list AggregatedFault) :
  Forall2
    (fun entry a =>
       classify subsystems faulty roots cascade_set applied
         entry.1 entry.2 = Ok a)
    by_subsystem aggregated ->
  sf_subsystem <$> subsystem_faults (result_of aggregated)
  ≡ₚ by_subsystem.*1.
Proof.
  intros Hall. apply entries_of_groups in Hall as [<- _].
  unfold result_of. cbn [subsystem_faults].
  rewrite <- list_fmap_compose.
  change (sf_subsystem ∘ to_dict) with agg_subsystem.
  now rewrite sort_by_perm.
Qed.

Lemma reports_faulty (aggregated : list AggregatedFault) (k : string) :
  Forall2
    (fun entry a =>
       classify subsystems faulty roots cascade_set applied
         entry.1 entry.2 = Ok a)
    by_subsystem aggregated ->
  k ∈ sf_subsystem <$> subsystem_faults (result_of aggregated)
  <-> k ∈ faulty.
Proof.
  intros Hall. rewrite (entry_subsystems _ Hall).
  unfold faulty_of. now rewrite elem_of_list_to_set.
Qed.

(** What [classify] decides for a subsystem that a causal rule names. *)
Lemma classify_by_rule (subsys_id : string) (subsys_faults : list Fault)
    (a : AggregatedFault) :
  classify subsystems faulty roots cascade_set applied subsys_id
    subsys_faults = Ok a ->
  (subsys_id ∈ roots -> agg_fault_type a = ROOT_CAUSE)
  /\ (subsys_id ∉ roots -> subsys_id ∈ cascade_set ->
      agg_fault_type a = CASCADE
      /\ agg_message a
         = match applied !! subsys_id with
           | Some rule => rule_message rule
           | None => "Downstream effect of upstream fault"
           end).
Proof.
  unfold classify.
  case_bool_decide as Hroot.
  { intros [= <-]. split; [reflexivity | contradiction]. }
  case_bool_decide as Hcasc.
  { intros [= <-]. split; [contradiction | now split]. }
  intros _. split; contradiction.
Qed.

End Run.

(** X18.  [aggregate_faults] returns for every input, and its counts add
    up: [total_faults] is the number of pair results with the status
    ["FAULT"], every one of them is the primary fault or one of the
    cascades of exactly one entry (the entries' [1 + cascade_count] sum to
    [total_faults]), and the three counts by fault type sum to the number
    of entries. *)
Theorem fault_counts_add_up (subsystems : list (string * Subsystem))
    (format_float : nat -> float -> string) (pair_results : list Fault) :
  exists r,
    aggregate_faults subsystems format_float pair_results = Ok r
    /\ total_faults r = length (List.filter is_fault pair_results)
    /\ sum_list ((fun sf => 1 + cascade_count sf) <$> subsystem_faults r)
       = total_faults r
    /\ root_causes r + n_cascades r + default 0 (independent r)
       = length (subsystem_faults r).
Proof.
  destruct (aggregate_faults_run subsystems format_float pair_results)
    as (aggregated & Hall & Hrun).
  eexists. split; [exact Hrun|]. clear Hrun.
  set (fl := faults_of subsystems format_float pair_results) in *.
  assert (Hlen : length fl = length (List.filter is_fault pair_results)).
  { unfold fl, faults_of. now rewrite length_fmap. }
  split; [exact Hlen|]. split.
  - unfold result_of. cbn [subsystem_faults total_faults]. fold fl.
    rewrite <- (group_by_total fl).
    rewrite (sum_list_with_Permutation_proper id
               ((fun sf => 1 + cascade_count sf)
                <$> (to_dict <$> sort_by (sort_key_le subsystems) aggregated))
               ((fun sf => 1 + cascade_count sf) <$> (to_dict <$> aggregated)))
      by (now rewrite sort_by_perm).
    assert (Hgroups : Forall (fun entry : string * list Fault => entry.2 <> [])
                        (group_by_subsystem fl)).
    { apply Forall_forall. intros [k l] Hin.
      now apply group_by_entry in Hin. }
    unfold by_subsystem_of in Hall. fold fl in Hall.
    induction Hall as [|[k l] a d ags Hc Hall IH]; [reflexivity|].
    apply Forall_cons in Hgroups as [Hne Hgroups].
    apply classify_fields in Hc as (_ & _ & Hcasc & _).
    rewrite !fmap_cons. cbn [sum_list sum_list_with].
    rewrite (IH Hgroups). simpl in *. rewrite Hcasc.
    destruct l; [contradiction|]. simpl. lia.
  - unfold result_of.
    cbn [subsystem_faults root_causes n_cascades independent]. fold fl.
    rewrite length_fmap.
    destruct fl as [|f fl'] eqn:Hfl.
    + unfold by_subsystem_of in Hall. fold fl in Hall. rewrite Hfl in Hall.
      inversion Hall. reflexivity.
    + cbn [default from_option id]. rewrite <- length_fmap with (f := to_dict).
      rewrite count_types_total. now rewrite !length_fmap.
Qed.


(** X19.  The result has exactly one entry for every subsystem that
    [identify_subsystem] assigns a faulting pair result to, and the entry
    holds that subsystem's faults in input order: the first one as
    [primary_fault], the others as [cascades], counted by
    [cascade_count]. *)
Theorem one_entry_per_subsystem (subsystems : list (string * Subsystem))
    (format_float : nat -> float -> string) (pair_results : list Fault) :
  exists r,
    aggregate_faults subsystems format_float pair_results = Ok r
    /\ NoDup (sf_subsystem <$> subsystem_faults r)
    /\ (forall k,
          k ∈ sf_subsystem <$> subsystem_faults r
          <-> exists p, p ∈ pair_results /\ is_fault p = true
                        /\ identify_subsystem subsystems p = k)
    /\ (forall sf,
          sf ∈ subsystem_faults r ->
          primary_fault sf :: cascades sf
          = faults_in (sf_subsystem sf)
              (faults_of subsystems format_float pair_results)
          /\ cascade_count sf = length (cascades sf)).
Proof.
  destruct (aggregate_faults_run subsystems format_float pair_results)
    as (aggregated & Hall & Hrun).
  eexists. split; [exact Hrun|]. clear Hrun.
  split; [|split].
  - rewrite (entry_subsystems _ _ _ _ Hall).
    apply group_by_spec.
  - intros k. rewrite (reports_faulty _ _ _ _ k Hall), faulty_spec.
    unfold faults_of. split.
    + intros (f & Hf & Hsub).
      apply list_elem_of_fmap in Hf as (p & -> & Hp).
      apply list_elem_of_In, List.filter_In in Hp as [Hp Hst].
      exists p. split; [now apply list_elem_of_In|]. now split.
    + intros (p & Hp & Hst & Hsub).
      exists (annotate subsystems format_float p). split; [|exact Hsub].
      apply list_elem_of_fmap. exists p. split; [reflexivity|].
      apply list_elem_of_In, List.filter_In.
      split; [now apply list_elem_of_In | exact Hst].
  - intros sf Hsf.
    destruct (entry_of _ _ _ _ _ Hall Hsf) as (k & l & a & Hin & Hc & ->).
    split; [|reflexivity].
    apply classify_fields in Hc as (Hsub & Hprim & Hcasc & _).
    unfold by_subsystem_of in Hin.
    apply group_by_entry in Hin as [Hl Hne].
    cbn [to_dict primary_fault cascades sf_subsystem].
    rewrite Hprim, Hcasc, Hsub, <- Hl.
    destruct l; [contradiction | reflexivity].
Qed.

(** The key the entries are sorted by, read off an entry of the result. *)
Definition sort_key (subsystems : list (string * Subsystem))
    (sf : SubsystemFault) : Z * Z :=
  ((if String.eqb (fault_type sf) "root_cause" then 0
    else if String.eqb (fault_type sf) "independent" then 1 else 2)%Z,
   priority_of subsystems (sf_subsystem sf)).

Lemma StronglySorted_lookup {A : Type} (R : A -> A -> Prop) (l : list A)
    (i j : nat) (x y : A) :
  StronglySorted R l -> i < j -> l !! i = Some x -> l !! j = Some y ->
  R x y.
Proof.
  intros Hs. revert i j.
  induction Hs as [|z l Hs IH Hall]; intros i j Hij Hi Hj; [discriminate|].
  destruct j as [|j]; [lia|]. destruct i as [|i].
  - injection Hi as <-. simpl in Hj.
    rewrite Forall_forall in Hall. apply Hall.
    apply list_elem_of_lookup. eauto.
  - simpl in Hi, Hj. apply (IH i j); [lia | assumption | assumption].
Qed.

(** X20.  The entries come sorted: root causes first, then independent
    faults, then cascades, and within one fault type by the priority of
    the subsystem in the registry (99 for a subsystem the registry does
    not have). *)
Theorem entries_sorted (subsystems : list (string * Subsystem))
    (format_float : nat -> float -> string) (pair_results : list Fault) :
  exists r,
    aggregate_faults subsystems format_float pair_results = Ok r
    /\ forall i j x y,
         i < j ->
         subsystem_faults r !! i = Some x ->
         subsystem_faults r !! j = Some y ->
         ((sort_key subsystems x).1 < (sort_key subsystems y).1
          \/ ((sort_key subsystems x).1 = (sort_key subsystems y).1
              /\ (sort_key subsystems x).2 <= (sort_key subsystems y).2))%Z.
Proof.
  destruct (aggregate_faults_run subsystems format_float pair_results)
    as (aggregated & _ & Hrun).
  eexists. split; [exact Hrun|]. clear Hrun.
  intros i j x y Hij Hx Hy.
  unfold result_of in Hx, Hy. cbn [subsystem_faults] in Hx, Hy.
  rewrite list_lookup_fmap in Hx, Hy.
  destruct (sort_by _ aggregated !! i) as [a|] eqn:Ha; [|discriminate].
  destruct (sort_by _ aggregated !! j) as [b|] eqn:Hb; [|discriminate].
  injection Hx as <-. injection Hy as <-.
  assert (Hle : sort_key_le subsystems a b = true).
  { apply (StronglySorted_lookup
             (fun u v => sort_key_le subsystems u v = true)
             (sort_by (sort_key_le subsystems) aggregated) i j);
      try assumption.
    apply Sorted_StronglySorted.
    - intros u v w. apply sort_key_le_trans.
    - apply sort_by_sorted. apply sort_key_le_total. }
  assert (Hkey : forall c,
             sort_key subsystems (to_dict c)
             = (type_rank (agg_fault_type c),
                priority_of subsystems (agg_subsystem c))).
  { intros c. unfold sort_key. simpl. now destruct (agg_fault_type c). }
  rewrite !Hkey. cbn [fst snd].
  unfold sort_key_le in Hle. cbn [fst snd] in Hle.
  apply orb_true_iff in Hle as [Hlt|Heq].
  - left. now apply Z.ltb_lt.
  - right. apply andb_true_iff in Heq as [Heq Hle].
    split; [now apply Z.eqb_eq | now apply Z.leb_le].
Qed.

(** [None] for a count of zero: the key is missing. *)
Definition nonzero (n : nat) : option nat :=
  match n with
  | 0 => None
  | _ => Some n
  end.

Lemma count_severities_get (l : list AggregatedFault) (s : string) :
  dict_get (count_severities l) s
  = nonzero (length (List.filter
                       (fun a => String.eqb (Severity_value (agg_severity a))
                                   s) l)).
Proof.
  induction l as [|a l IH] using rev_ind; [reflexivity|].
  unfold count_severities in *. rewrite foldl_app. cbn [foldl].
  cbv zeta. rewrite dict_get_set, List.filter_app, length_app.
  cbn [List.filter].
  destruct (String.eqb_spec (Severity_value (agg_severity a)) s)
    as [->|Hne].
  - rewrite IH. cbn [length].
    destruct (length _); reflexivity.
  - cbn [length]. rewrite Nat.add_0_r. exact IH.
Qed.

(** X21.  [by_severity] only ever has the keys ["fault"] and ["cascade"]:
    ["cascade"] counts the cascade entries, ["fault"] the root causes and
    the independent faults together, and a key whose count would be zero
    is missing. *)
Theorem severity_counts (subsystems : list (string * Subsystem))
    (format_float : nat -> float -> string) (pair_results : list Fault) :
  exists r,
    aggregate_faults subsystems format_float pair_results = Ok r
    /\ dict_get (by_severity r) "cascade" = nonzero (n_cascades r)
    /\ dict_get (by_severity r) "fault"
       = nonzero (root_causes r + default 0 (independent r))
    /\ forall s, s <> "fault" -> s <> "cascade" ->
                 dict_get (by_severity r) s = None.
Proof.
  destruct (aggregate_faults_run subsystems format_float pair_results)
    as (aggregated & Hall & Hrun).
  eexists. split; [exact Hrun|]. clear Hrun.
  assert (Hindep : default 0 (independent
                                (result_of subsystems format_float
                                   pair_results aggregated))
                   = count_type INDEPENDENT
                       (to_dict <$> sort_by (sort_key_le subsystems)
                                      aggregated)).
  { unfold result_of. cbn [independent].
    destruct (faults_of subsystems format_float pair_results) eqn:Hfl;
      [|reflexivity].
    unfold by_subsystem_of in Hall. rewrite Hfl in Hall.
    apply Forall2_nil_inv_l in Hall as ->. reflexivity. }
  set (sorted := sort_by (sort_key_le subsystems) aggregated) in *.
  assert (Hsev : Forall (fun a => agg_severity a
                                  = match agg_fault_type a with
                                    | CASCADE => Severity_CASCADE
                                    | _ => Severity_FAULT
                                    end) sorted).
  { apply Forall_forall. intros a Ha. unfold sorted in Ha.
    rewrite sort_by_perm in Ha.
    apply list_elem_of_lookup in Ha as [i Hi].
    destruct (Forall2_lookup_r _ _ _ _ _ Hall Hi) as (entry & _ & Hc).
    now apply classify_fields in Hc. }
  rewrite Hindep. clear Hindep Hall.
  unfold result_of. cbn [by_severity n_cascades root_causes]. fold sorted.
  rewrite !count_type_to_dict.
  split; [|split].
  - rewrite count_severities_get. f_equal. f_equal.
    apply List.filter_ext_in. intros a Ha.
    rewrite Forall_forall in Hsev.
    rewrite (Hsev a) by now apply list_elem_of_In.
    now destruct (agg_fault_type a).
  - rewrite count_severities_get. f_equal.
    induction Hsev as [|a l Ha Hsev IH]; [reflexivity|].
    cbn [List.filter]. rewrite Ha.
    destruct (agg_fault_type a); cbn [FaultType_value Severity_value] in *;
      eval_eqb; cbn [length]; lia.
  - intros s Hf Hc. rewrite count_severities_get.
    replace (List.filter _ sorted) with (@nil AggregatedFault);
      [reflexivity|].
    symmetry. induction Hsev as [|a l Ha Hsev IH]; [reflexivity|].
    cbn [List.filter]. rewrite Ha.
    destruct (agg_fault_type a); cbn [Severity_value];
      (destruct (String.eqb_spec "fault" s) as [<-|_]; [contradiction|])
      || (destruct (String.eqb_spec "cascade" s) as [<-|_];
          [contradiction|]);
      exact IH.
Qed.


(** *** The causal rules *)

(** What the loop over [CAUSAL_RULES] leaves in [root_subsystems],
    [cascade_subsystems] and [applied_rules]. *)
Lemma apply_rules_table (faults : list Fault) :
  let v := any_fault "valve" faults in
  let s := any_fault "sat" faults in
  let z := any_fault "zone" faults in
  let c := any_fault "chw" faults in
  (forall k, k ∈ (apply_rules faults).1.1
             <-> (k = "valve" /\ v && (s || z) = true)
                 \/ (k = "sat" /\ s && z = true)
                 \/ (k = "chw" /\ c && s = true))
  /\ (forall k, k ∈ (apply_rules faults).1.2
                <-> (k = "sat" /\ (v || c) && s = true)
                    \/ (k = "zone" /\ z && (s || v) = true))
  /\ (apply_rules faults).2 !! "sat"
     = (if c && s then CAUSAL_RULES !! 3
        else if v && s then CAUSAL_RULES !! 0 else None)
  /\ (apply_rules faults).2 !! "zone"
     = (if s && z then CAUSAL_RULES !! 1
        else if v && z then CAUSAL_RULES !! 2 else None)
  /\ (forall k, k <> "sat" -> k <> "zone" ->
                (apply_rules faults).2 !! k = None).
Proof.
  cbv zeta. unfold apply_rules, CAUSAL_RULES.
  destruct (any_fault "valve" faults) eqn:Hv,
    (any_fault "sat" faults) eqn:Hs, (any_fault "zone" faults) eqn:Hz,
    (any_fault "chw" faults) eqn:Hc;
    do 5 (cbn [foldl condition root rule_cascades andb orb negb fst snd];
          rewrite ?Hv, ?Hs, ?Hz, ?Hc);
    (split; [|split; [|split; [|split]]]);
    try (intros k; rewrite ?elem_of_union, ?elem_of_singleton,
           ?elem_of_empty; intuition congruence);
    try reflexivity;
    intros k Hks Hkz; rewrite ?lookup_insert_ne by congruence;
    apply lookup_empty.
Qed.

(** A subsystem has an entry in the result. *)
Definition reports (r : Aggregate) (k : string) : Prop :=
  k ∈ sf_subsystem <$> subsystem_faults r.

(** X22.  How the causal rules classify the valve, supply-air, zone and
    chilled-water subsystems, whatever the registry says: the valve is a
    root cause as soon as the supply air or the zone faults too, and
    chilled water as soon as the supply air does; the supply air is itself
    a root cause when the zone faults, and otherwise a cascade of chilled
    water (first) or of the valve; the zone is a cascade of the supply air
    (first) or of the valve.  A cascade carries the name and the message
    of its rule. *)
Theorem causal_rules_table (subsystems : list (string * Subsystem))
    (format_float : nat -> float -> string) (pair_results : list Fault) :
  exists r,
    aggregate_faults subsystems format_float pair_results = Ok r
    /\ forall sf,
         sf ∈ subsystem_faults r ->
         (sf_subsystem sf = "valve" ->
          reports r "sat" \/ reports r "zone" ->
          fault_type sf = "root_cause")
         /\ (sf_subsystem sf = "chw" -> reports r "sat" ->
             fault_type sf = "root_cause")
         /\ (sf_subsystem sf = "sat" -> reports r "zone" ->
             fault_type sf = "root_cause")
         /\ (sf_subsystem sf = "sat" -> ~ reports r "zone" ->
             reports r "chw" ->
             fault_type sf = "cascade"
             /\ rule_applied sf = Some "chw_causes_sat"
             /\ message sf
                = "Supply Air Temperature deviation due to chilled water fault")
         /\ (sf_subsystem sf = "sat" -> ~ reports r "zone" ->
             ~ reports r "chw" -> reports r "valve" ->
             fault_type sf = "cascade"
             /\ rule_applied sf = Some "valve_causes_sat"
             /\ message sf
                = "Supply Air Temperature deviation due to valve mismatch")
         /\ (sf_subsystem sf = "zone" -> reports r "sat" ->
             fault_type sf = "cascade"
             /\ rule_applied sf = Some "sat_causes_zone"
             /\ message sf
                = "Zone comfort deviation due to Supply Air Temperature fault")
         /\ (sf_subsystem sf = "zone" -> ~ reports r "sat" ->
             reports r "valve" ->
             fault_type sf = "cascade"
             /\ rule_applied sf = Some "valve_causes_zone"
             /\ message sf
                = "Zone comfort deviation due to valve actuator fault").
Proof.
  destruct (aggregate_faults_run subsystems format_float pair_results)
    as (aggregated & Hall & Hrun).
  eexists. split; [exact Hrun|]. clear Hrun.
  intros sf Hsf.
  assert (Hrep : forall k,
             reports (result_of subsystems format_float pair_results
                        aggregated) k
             <-> any_fault k (faults_of subsystems format_float pair_results)
                 = true).
  { intros k. unfold reports.
    rewrite (reports_faulty _ _ _ _ k Hall). symmetry.
    apply any_fault_faulty. }
  destruct (entry_of _ _ _ _ _ Hall Hsf) as (k & l & a & Hin & Hc & ->).
  assert (Hk : any_fault k (faults_of subsystems format_float pair_results)
               = true).
  { apply any_fault_faulty. unfold faulty_of.
    apply elem_of_list_to_set, list_elem_of_fmap. now exists (k, l). }
  pose proof (classify_fields _ _ _ _ _ _ Hc) as (Hsub & _ & _ & Hrule & _).
  apply classify_by_rule in Hc as [Hroot Hcasc].
  cbn [to_dict sf_subsystem fault_type rule_applied message].
  rewrite Hsub, Hrule. clear Hsub Hrule Hin Hsf Hall.
  unfold root_subsystems_of, cascade_subsystems_of in Hroot, Hcasc.
  destruct (apply_rules_table
              (faults_of subsystems format_float pair_results))
    as (Hroots & Hcascs & Hsat & Hzone & _).
  rewrite !Hrep.
  rewrite Hroots in Hroot, Hcasc. rewrite Hcascs in Hcasc.
  clear Hroots Hcascs Hrep.
  refine (conj _ (conj _ (conj _ (conj _ (conj _ (conj _ _))))));
    intros ->;
    set (v := any_fault "valve" _) in *; clearbody v;
    set (s := any_fault "sat" _) in *; clearbody s;
    set (z := any_fault "zone" _) in *; clearbody z;
    set (c := any_fault "chw" _) in *; clearbody c;
    intros;
    destruct v, s, z, c; cbn [andb orb] in *;
    try discriminate;
    try match goal with
        | H : ~ true = true |- _ => exfalso; apply H; reflexivity
        | H : false = true \/ false = true |- _ => destruct H; discriminate
        end.
  all: try (rewrite Hroot;
            [reflexivity
            | first [ left; split; reflexivity
                    | right; left; split; reflexivity
                    | right; right; split; reflexivity ] ]).
  all: destruct Hcasc as [-> ->];
    [ intros Hr; decompose [and or] Hr; congruence
    | first [ left; split; reflexivity | right; split; reflexivity ]
    | first [rewrite Hsat | rewrite Hzone]; now repeat split ].
Qed.


(** *** The built-in registry *)

(** X23.  [identify_subsystem] returns at the first registry entry that
    matches, by group or by indicator: with the built-in registry a fault
    whose group is, in any letter case, ["valve"], ["chw"] or ["damper"]
    belongs to the valve subsystem whatever its name and columns say, so
    the group ["chw"] never leads to the chilled-water subsystem. *)
Theorem valve_groups_come_first (fault : Fault) :
  lower (group fault) ∈ ["valve"; "chw"; "damper"] ->
  identify_subsystem SUBSYSTEMS fault = "valve".
Proof.
  intros Hgroup. unfold identify_subsystem, SUBSYSTEMS.
  cbn [List.find groups].
  rewrite bool_decide_eq_true_2 by exact Hgroup.
  reflexivity.
Qed.

Lemma valve_groups_come_first_witness :
  identify_subsystem SUBSYSTEMS (_fault "CHW" "CHWC-TEMP" 44 52 "°F")
  = "valve".
Proof.
  apply valve_groups_come_first. vm_compute.
  right. left.
Defined.

(** The subsystems the causal rules name. *)
Definition RULE_SUBSYSTEMS : list string := ["valve"; "sat"; "zone"; "chw"].

(** X24.  A faulting subsystem that the causal rules do not name, that
    lists no upstream and that no registry entry lists as an upstream, is
    reported as an independent fault of severity ["fault"], with no rule
    applied, whatever else is faulting. *)
Theorem isolated_subsystem_independent
    (subsystems : list (string * Subsystem))
    (format_float : nat -> float -> string) (pair_results : list Fault)
    (r : Aggregate) (sf : SubsystemFault) :
  aggregate_faults subsystems format_float pair_results = Ok r ->
  sf ∈ subsystem_faults r ->
  sf_subsystem sf ∉ RULE_SUBSYSTEMS ->
  upstream_of subsystems (sf_subsystem sf) = [] ->
  reverse_upstream_map subsystems (sf_subsystem sf) = [] ->
  fault_type sf = "independent" /\ severity sf = "fault"
  /\ rule_applied sf = None.
Proof.
  intros Hr Hsf Hrule Hup Hdown.
  destruct (aggregate_faults_run subsystems format_float pair_results)
    as (aggregated & Hall & Hrun).
  assert (r = result_of subsystems format_float pair_results aggregated)
    as -> by congruence.
  clear Hr Hrun.
  destruct (entry_of _ _ _ _ _ Hall Hsf) as (k & l & a & Hin & Hc & ->).
  pose proof (classify_fields _ _ _ _ _ _ Hc)
    as (Hsub & _ & _ & Happlied & Hsev).
  cbn [to_dict sf_subsystem fault_type severity rule_applied] in *.
  rewrite Hsub in *.
  destruct (apply_rules_table
              (faults_of subsystems format_float pair_results))
    as (Hroots & Hcascs & _ & _ & Hothers).
  assert (Hnot : ~ rule_covered subsystems format_float pair_results k).
  { unfold rule_covered, root_subsystems_of, cascade_subsystems_of.
    rewrite Hroots, Hcascs. unfold RULE_SUBSYSTEMS in Hrule.
    rewrite !not_elem_of_cons in Hrule. tauto. }
  destruct (classify_ok subsystems format_float pair_results k l)
    as (a' & Ha' & _ & Htopo).
  assert (a' = a) as -> by congruence.
  destruct (Htopo Hnot) as [_ _ _ Hind].
  assert (Htype : FaultType_value (agg_fault_type a) = "independent").
  { apply Hind.
    - intros (u & _ & Htc).
      assert (Hedge : exists w, upstream_edge subsystems k w)
        by (destruct Htc; eauto).
      destruct Hedge as [w Hedge].
      unfold upstream_edge in Hedge. rewrite Hup in Hedge. inversion Hedge.
    - intros (d & _ & Htc).
      assert (Hedge : exists w, downstream_edge subsystems k w)
        by (destruct Htc; eauto).
      destruct Hedge as [w Hedge].
      unfold downstream_edge in Hedge. rewrite Hdown in Hedge.
      inversion Hedge. }
  split; [exact Htype|].
  split.
  - rewrite Hsev. destruct (agg_fault_type a); [reflexivity | discriminate
                                               | reflexivity].
  - rewrite Happlied.
    revert Hrule. unfold RULE_SUBSYSTEMS. rewrite !not_elem_of_cons.
    intros (_ & Hs & Hz & _). now rewrite Hothers.
Qed.

Lemma isolated_subsystem_independent_witness :
  exists r sf,
    aggregate_faults SUBSYSTEMS (fun _ _ => "")
      [ _fault "valve" "VLV-01" 95 5 "%"; _fault "sat" "SA-TEMP" 72 80 "°F";
        _fault "gps" "GPS-01" 1 2 "m" ] = Ok r
    /\ sf ∈ subsystem_faults r
    /\ sf_subsystem sf = "gps"
    /\ fault_type sf = "independent" /\ severity sf = "fault"
    /\ rule_applied sf = None.
Proof.
  destruct (aggregate_faults SUBSYSTEMS (fun _ _ => "")
              [ _fault "valve" "VLV-01" 95 5 "%";
                _fault "sat" "SA-TEMP" 72 80 "°F";
                _fault "gps" "GPS-01" 1 2 "m" ]) as [r|e] eqn:Hr;
    [|vm_compute in Hr; discriminate Hr].
  assert (Hthird : exists sf, subsystem_faults r !! 1 = Some sf
                              /\ sf_subsystem sf = "gps").
  { vm_compute in Hr. injection Hr as <-. eexists. split; reflexivity. }
  destruct Hthird as (sf & Hlook & Hsub).
  assert (Hsf : sf ∈ subsystem_faults r)
    by (apply list_elem_of_lookup; eauto).
  exists r, sf. split; [reflexivity|]. split; [exact Hsf|].
  split; [exact Hsub|].
  apply (isolated_subsystem_independent SUBSYSTEMS (fun _ _ => "") _ r sf
           Hr Hsf).
  - rewrite Hsub. unfold RULE_SUBSYSTEMS. rewrite !not_elem_of_cons.
    repeat split; try discriminate. apply not_elem_of_nil.
  - rewrite Hsub. reflexivity.
  - rewrite Hsub. reflexivity.
Defined.

End AggregatorFacts.

(** ** The alert engine *)

Module AlertFacts.
Import AlertEngine.

(** A root-cause entry, as [update] tests it. *)
Definition is_root_cause (f : FaultAggregator.SubsystemFault) : bool :=
  String.eqb (FaultAggregator.fault_type f)
    (FaultAggregator.FaultType_value FaultAggregator.ROOT_CAUSE).

(** The dictionary [update] appends to [fired] beside an event. *)
Definition fired_view (ev : AlertEvent) : Fired :=
  {| f_fault_key := ev_fault_key ev; f_subsystem := ev_subsystem ev;
     f_subsystem_name := ev_subsystem_name ev; f_title := ev_title ev;
     f_message := ev_message ev; f_severity := ev_severity ev |}.

(** What holds of every row between two cycles. *)
Record row_ok (state : AlertState) : Prop := {
  present_streak_nonneg : (0 <= present_streak state)%Z;
  absent_streak_nonneg : (0 <= absent_streak state)%Z;
  one_streak_runs : present_streak state = 0%Z \/ absent_streak state = 0%Z;
  confirmed_by_streak :
    (CONFIRM_AFTER <= present_streak state)%Z -> confirmed state = true;
  cleared_by_streak :
    (CLEAR_AFTER <= absent_streak state)%Z -> active state = false;
  confirmed_is_active : confirmed state = true -> active state = true
}.

(** Whether the cycle holds a root cause under [key]. *)
Definition seen (b : Z) (key : string)
    (cycle : list FaultAggregator.SubsystemFault * string) : bool :=
  match present_fault b cycle.1 key with
  | Some _ => true
  | None => false
  end.

(** From an absent streak of [streak], the key is never absent for
    [CLEAR_AFTER] cycles in a row. *)
Fixpoint calm (b : Z) (key : string) (streak : Z)
    (cycles : list (list FaultAggregator.SubsystemFault * string)) : bool :=
  match cycles with
  | [] => true
  | cycle :: rest =>
      if seen b key cycle then calm b key 0 rest
      else (streak + 1 <? CLEAR_AFTER)%Z && calm b key (streak + 1) rest
  end.

(** From a present streak of [streak], the key is never present for
    [CONFIRM_AFTER] cycles in a row. *)
Fixpoint brief (b : Z) (key : string) (streak : Z)
    (cycles : list (list FaultAggregator.SubsystemFault * string)) : bool :=
  match cycles with
  | [] => true
  | cycle :: rest =>
      if seen b key cycle
      then (streak + 1 <? CONFIRM_AFTER)%Z && brief b key (streak + 1) rest
      else brief b key 0 rest
  end.

Lemma new_state_ok (key : string) (b : Z) : row_ok (new_state key b).
Proof.
  split; simpl; unfold CLEAR_AFTER, CONFIRM_AFTER; try lia;
    try discriminate.
Qed.

Lemma absent_step_ok (state : AlertState) :
  row_ok state -> row_ok (absent_step state).
Proof.
  intros [Hp Ha Hone Hconf Hclear Hact].
  destruct (absent_step_spec state)
    as (_ & _ & Hps & Has & _ & _ & Hflags).
  unfold CLEAR_AFTER, CONFIRM_AFTER in *.
  split; rewrite ?Hps, ?Has; unfold CLEAR_AFTER, CONFIRM_AFTER;
    try lia; auto.
  - intros Hge.
    destruct (Z.leb_spec (3 * 2) (absent_streak state + 1)); [|lia].
    tauto.
  - destruct (Z.leb_spec (3 * 2) (absent_streak state + 1)).
    + destruct Hflags as [_ ->]. discriminate.
    + destruct Hflags as [-> ->]. exact Hact.
Qed.

Section Engine.
Variable fromisoformat : string -> option datetime.

Lemma present_step_row_ok (state : AlertState) (key : string)
    (fault : FaultAggregator.SubsystemFault) (now : string)
    (state' : AlertState) (emitted : option (AlertEvent * Fired)) :
  row_ok state ->
  present_step fromisoformat state key fault now = Ok (state', emitted) ->
  row_ok state'.
Proof.
  intros [Hp Ha Hone Hconf Hclear Hact] Hs.
  apply present_step_spec in Hs
    as (_ & _ & Hps & Has & Hactive & _ & Hflags).
  unfold CLEAR_AFTER, CONFIRM_AFTER in *.
  split; rewrite ?Hps, ?Has, ?Hactive; unfold CLEAR_AFTER, CONFIRM_AFTER;
    try lia; auto.
  intros Hge.
  destruct (Z.leb_spec 3 (present_streak state + 1)); [|lia].
  destruct (confirmed state) eqn:Hc; simpl in Hflags.
  - destruct Hflags as [-> _]. reflexivity.
  - tauto.
Qed.

(** What an emitted event and its [fired] entry hold. *)
Lemma present_step_emitted (state : AlertState) (key : string)
    (fault : FaultAggregator.SubsystemFault) (now : string)
    (state' : AlertState) (ev : AlertEvent) (fd : Fired) :
  present_step fromisoformat state key fault now
  = Ok (state', Some (ev, fd)) ->
  fd = fired_view ev /\ created_at ev = now
  /\ ev_building_id ev = building_id state /\ ev_fault_key ev = key.
Proof.
  unfold present_step. cbn [present_streak confirmed last_alerted_at].
  destruct ((CONFIRM_AFTER <=? present_streak state + 1)%Z
            && negb (confirmed state)); [|discriminate].
  rewrite in_cooldown_spec. simpl.
  destruct (recently_alerted fromisoformat (last_alerted_at state) now);
    simpl; [discriminate|].
  intros [= <- <- <-]. auto.
Qed.

(** The loop over the present faults: it always completes, and what it
    appends to the events and to [fired]. *)
Lemma present_loop_events (b : Z) (now : string)
    (present : list (string * FaultAggregator.SubsystemFault)) :
  forall db fired,
  exists db' new,
    foldM (present_iteration fromisoformat b now) present (db, fired)
    = Ok (db', fired ++ (fired_view <$> new))
    /\ alert_events db' = alert_events db ++ new
    /\ Forall (fun ev => created_at ev = now /\ ev_building_id ev = b) new
    /\ (ev_fault_key <$> new) `sublist_of` present.*1.
Proof.
  induction present as [|[k f] rest IH]; intros db fired.
  - exists db, []. simpl. rewrite !app_nil_r.
    repeat split; constructor.
  - destruct (present_step_ok fromisoformat
                (default (new_state k b) (tracked db b k)) k f now)
      as (st' & em & Hs & _ & _).
    set (db1 := {| alert_state := <[k := st']> (alert_state db);
                   alert_events := alert_events db ++ events_of em |}).
    destruct (IH db1 (fired ++ fired_of em))
      as (db' & new & Hrun & Hev & Hall & Hsub).
    assert (Hstep : foldM (present_iteration fromisoformat b now)
                      ((k, f) :: rest) (db, fired)
                    = Ok (db', (fired ++ fired_of em)
                               ++ (fired_view <$> new))).
    { cbn [foldM]. unfold present_iteration at 2. rewrite Hs.
      fold (events_of em) (fired_of em). fold db1.
      change (mbind ?g (Ok ?a)) with (g a). cbv beta. exact Hrun. }
    rewrite Hstep. cbn [alert_events db1] in Hev. clear Hstep Hrun.
    destruct em as [[ev fd]|]; cbn [events_of fired_of] in *.
    + apply present_step_emitted in Hs as (-> & Hnow & Hb & Hk).
      rewrite tracked_building in Hb.
      exists db', (ev :: new). rewrite Hev, fmap_cons, <- !app_assoc.
      split; [reflexivity|]. split; [reflexivity|]. split.
      * constructor; [now split | exact Hall].
      * rewrite !fmap_cons, Hk. now apply sublist_skip.
    + exists db', new. rewrite Hev, !app_nil_r.
      split; [reflexivity|]. split; [reflexivity|]. split; [exact Hall|].
      rewrite fmap_cons. now apply sublist_cons.
Qed.

(** The key of a present fault comes from a root cause of the cycle. *)
Lemma present_fault_source (b : Z)
    (subsystem_faults : list FaultAggregator.SubsystemFault) (key : string)
    (fault : FaultAggregator.SubsystemFault) :
  present_fault b subsystem_faults key = Some fault ->
  fault ∈ subsystem_faults /\ is_root_cause fault = true
  /\ key = _build_fault_key b fault.
Proof.
  unfold present_fault. intros Hlast.
  apply last_Some_elem_of, list_elem_of_In, List.filter_In in Hlast
    as [Hin Hkey].
  apply List.filter_In in Hin as [Hin Hroot].
  split; [now apply list_elem_of_In|]. split; [exact Hroot|].
  symmetry. now apply String.eqb_eq.
Qed.

(** A cycle in which [key] is absent, tracked or not. *)
Lemma absent_cycle_any (db : Db) (b : Z)
    (subsystem_faults : list FaultAggregator.SubsystemFault)
    (now key : string) :
  wf_db db -> present_fault b subsystem_faults key = None ->
  exists db' fired new,
    update fromisoformat db b subsystem_faults now = Ok (db', fired)
    /\ wf_db db'
    /\ alert_events db' = alert_events db ++ new
    /\ tracked db' b key = absent_step <$> tracked db b key
    /\ events_for key new = []
    /\ fired_for key fired = [].
Proof.
  intros Hwf Hp.
  destruct (update_key_spec fromisoformat db b subsystem_faults now Hwf)
    as (db' & fired & new & Hu & Hev & Hwf' & Hkeys).
  specialize (Hkeys key). unfold cycle_outcome in Hkeys. rewrite Hp in Hkeys.
  destruct Hkeys as (Hst & He & Hf).
  exists db', fired, new. repeat (split; [assumption|]). split; [|auto].
  unfold tracked. rewrite Hst.
  destruct (alert_state db !! key) as [s|]; [|reflexivity].
  simpl. unfold absent_row.
  destruct (Z.eqb_spec (building_id s) b) as [Hb|Hb].
  - destruct (absent_step_spec s) as (_ & -> & _).
    rewrite Hb, Z.eqb_refl. reflexivity.
  - destruct (Z.eqb_spec (building_id s) b); [contradiction | reflexivity].
Qed.

(** X25.  Entries that are not root causes never alert: a cycle whose
    faults are all cascades or independent fires nothing, records no event
    and creates no row; it only counts as an absent cycle for every row of
    the building. *)
Theorem only_root_causes_alert (db : Db) (b : Z)
    (subsystem_faults : list FaultAggregator.SubsystemFault) (now : string) :
  Forall (fun f => FaultAggregator.fault_type f <> "root_cause")
    subsystem_faults ->
  update fromisoformat db b subsystem_faults now
  = Ok ({| alert_state := absent_row b <$> alert_state db;
           alert_events := alert_events db |}, []).
Proof.
  intros Hnone. unfold update, build_present.
  assert (Hroots : List.filter
                     (fun f => String.eqb (FaultAggregator.fault_type f)
                                 (FaultAggregator.FaultType_value
                                    FaultAggregator.ROOT_CAUSE))
                     subsystem_faults = []).
  { induction Hnone as [|f fs Hf Hnone IH]; [reflexivity|].
    cbn [List.filter].
    destruct (String.eqb_spec (FaultAggregator.fault_type f)
                (FaultAggregator.FaultType_value FaultAggregator.ROOT_CAUSE));
      [contradiction | exact IH]. }
  rewrite Hroots. cbn [foldM].
  change (mbind ?g (Ok ?a)) with (g a). cbv beta. cbn [foldM].
  change (mbind ?g (Ok ?a)) with (g a). cbv beta. cbn [fst snd alert_events].
  f_equal. f_equal. f_equal.
  apply map_fmap_ext. intros k state _. unfold absent_row.
  rewrite bool_decide_eq_false_2 by apply not_elem_of_nil.
  now rewrite andb_true_r.
Qed.

(** X26.  [update] returns for every input, and what it returns is what
    it records: one event per entry of [fired], in the same order and with
    the same fields, stamped with [now] and the building.  Each is for the
    key of a root cause of this cycle, and no key alerts twice in one
    cycle. *)
Theorem alerts_are_recorded (db : Db) (b : Z)
    (subsystem_faults : list FaultAggregator.SubsystemFault) (now : string) :
  exists db' new,
    update fromisoformat db b subsystem_faults now
    = Ok (db', fired_view <$> new)
    /\ alert_events db' = alert_events db ++ new
    /\ Forall (fun ev =>
                 created_at ev = now /\ ev_building_id ev = b
                 /\ exists f, f ∈ subsystem_faults
                              /\ is_root_cause f = true
                              /\ ev_fault_key ev = _build_fault_key b f) new
    /\ NoDup (ev_fault_key <$> new).
Proof.
  unfold update.
  destruct (build_present_spec b subsystem_faults)
    as (present & -> & Hnd & Hget).
  change (mbind ?g (Ok ?a)) with (g a). cbv beta.
  destruct (present_loop_events b now present db [])
    as (db1 & new & -> & Hev & Hall & Hsub).
  change (mbind ?g (Ok ?a)) with (g a). cbv beta. cbn [fst snd app].
  eexists _, new. split; [reflexivity|]. split; [exact Hev|]. split.
  - apply Forall_forall. intros ev Hin.
    rewrite Forall_forall in Hall. destruct (Hall ev Hin) as [Hnow Hb].
    split; [exact Hnow|]. split; [exact Hb|].
    assert (Hkey : ev_fault_key ev ∈ present.*1).
    { eapply elem_of_sublist; [|exact Hsub].
      apply list_elem_of_fmap. eauto. }
    destruct (dict_get present (ev_fault_key ev)) as [f|] eqn:Hf.
    + rewrite Hget in Hf. apply present_fault_source in Hf as (? & ? & ?).
      eauto.
    + apply dict_get_None in Hf. contradiction.
  - eapply sublist_NoDup; [exact Hnd | exact Hsub].
Qed.

(** X27.  A cycle keeps the rows consistent: both streaks stay
    non-negative and one of them is zero, a row seen [CONFIRM_AFTER] times
    in a row is confirmed, a row absent [CLEAR_AFTER] times in a row is
    inactive, and a confirmed row is active. *)
Theorem update_keeps_rows_consistent (db : Db) (b : Z)
    (subsystem_faults : list FaultAggregator.SubsystemFault) (now : string) :
  wf_db db ->
  (forall k state, alert_state db !! k = Some state -> row_ok state) ->
  exists db' fired,
    update fromisoformat db b subsystem_faults now = Ok (db', fired)
    /\ wf_db db'
    /\ forall k state, alert_state db' !! k = Some state -> row_ok state.
Proof.
  intros Hwf Hrows.
  destruct (update_key_spec fromisoformat db b subsystem_faults now Hwf)
    as (db' & fired & new & Hu & _ & Hwf' & Hkeys).
  exists db', fired. split; [exact Hu|]. split; [exact Hwf'|].
  intros k state Hk. specialize (Hkeys k). unfold cycle_outcome in Hkeys.
  destruct (present_fault b subsystem_faults k) as [fault|].
  - destruct Hkeys as (state' & emitted & Hs & Hst & _).
    assert (state' = state) as -> by congruence.
    eapply present_step_row_ok; [|exact Hs].
    unfold tracked.
    destruct (alert_state db !! k) as [s|] eqn:Hs0;
      [|apply new_state_ok].
    destruct (building_id s =? b)%Z; [|apply new_state_ok].
    simpl. eauto.
  - destruct Hkeys as (Hst & _). rewrite Hk in Hst.
    destruct (alert_state db !! k) as [s|] eqn:Hs0; [|discriminate].
    simpl in Hst. injection Hst as ->. unfold absent_row.
    destruct (building_id s =? b)%Z; [apply absent_step_ok|]; eauto.
Qed.


Lemma fired_for_concat (key : string) (fired : list Fired)
    (fireds : list (list Fired)) :
  fired_for key (concat (fired :: fireds))
  = fired_for key fired ++ fired_for key (concat fireds).
Proof. unfold fired_for. cbn [concat]. apply List.filter_app. Qed.

Lemma events_for_app (key : string) (events new : list AlertEvent) :
  events_for key (events ++ new) = events_for key events ++ events_for key new.
Proof. apply List.filter_app. Qed.

(** X28.  A confirmed fault does not alert again while it flaps: as long
    as its key is never absent for [CLEAR_AFTER] cycles in a row, every
    cycle returns, none fires or records anything for the key, and the row
    stays confirmed with its [last_alerted_at]. *)
Theorem confirmed_fault_stays_quiet (b : Z) (key : string)
    (cycles : list (list FaultAggregator.SubsystemFault * string)) :
  forall (db : Db) (state : AlertState),
    wf_db db ->
    tracked db b key = Some state ->
    confirmed state = true ->
    calm b key (absent_streak state) cycles = true ->
    exists db' fireds state',
      run_cycles fromisoformat db b cycles = Ok (db', fireds)
      /\ tracked db' b key = Some state'
      /\ confirmed state' = true
      /\ last_alerted_at state' = last_alerted_at state
      /\ fired_for key (concat fireds) = []
      /\ events_for key (alert_events db')
         = events_for key (alert_events db).
Proof.
  induction cycles as [|[faults now] rest IH]; intros db state Hwf Ht Hc Hcalm.
  { exists db, [], state. repeat split; auto. }
  cbn [calm] in Hcalm. unfold seen in Hcalm. cbn [fst] in Hcalm.
  destruct (present_fault b faults key) as [fault|] eqn:Hp.
  - destruct (present_cycle fromisoformat db b faults now key fault Hwf Hp)
      as (db1 & fired1 & new & state1 & emitted & Hu & Hwf1 & Hev & Hs
          & Ht1 & He & Hf).
    rewrite Ht in Hs. cbn [default from_option id] in Hs.
    apply present_step_spec in Hs as (_ & _ & _ & Has & _ & _ & Hflags).
    rewrite Hc, andb_false_r in Hflags.
    destruct Hflags as (Hc1 & Hl1 & ->).
    rewrite <- Has in Hcalm.
    destruct (IH db1 state1 Hwf1 Ht1 Hc1 Hcalm)
      as (db' & fireds & state' & Hrun & Ht' & Hc' & Hl' & Hfired & Hevents).
    exists db', (fired1 :: fireds), state'.
    split; [eapply run_cycles_cons; eassumption|].
    split; [exact Ht'|]. split; [exact Hc'|].
    split; [congruence|]. split.
    + rewrite fired_for_concat, Hf, Hfired. reflexivity.
    + rewrite Hevents, Hev, events_for_app, He. apply app_nil_r.
  - apply andb_true_iff in Hcalm as [Hlt Hcalm].
    apply Z.ltb_lt in Hlt.
    destruct (absent_cycle fromisoformat db b faults now key state Hwf Hp Ht)
      as (db1 & fired1 & new & Hu & Hwf1 & Hev & Ht1 & He & Hf).
    destruct (absent_step_spec state)
      as (_ & _ & _ & Has & Hl1 & _ & Hflags).
    destruct (Z.leb_spec CLEAR_AFTER (absent_streak state + 1)); [lia|].
    destruct Hflags as [_ Hc1].
    rewrite <- Has in Hcalm.
    destruct (IH db1 (absent_step state) Hwf1 Ht1 (eq_trans Hc1 Hc) Hcalm)
      as (db' & fireds & state' & Hrun & Ht' & Hc' & Hl' & Hfired & Hevents).
    exists db', (fired1 :: fireds), state'.
    split; [eapply run_cycles_cons; eassumption|].
    split; [exact Ht'|]. split; [exact Hc'|].
    split; [congruence|]. split.
    + rewrite fired_for_concat, Hf, Hfired. reflexivity.
    + rewrite Hevents, Hev, events_for_app, He. apply app_nil_r.
Qed.

(** X29.  A fault that comes and goes never alerts: from an unconfirmed
    state, as long as its key is never present for [CONFIRM_AFTER] cycles
    in a row, every cycle returns and none fires or records anything for
    the key. *)
Theorem brief_sightings_never_alert (b : Z) (key : string)
    (cycles : list (list FaultAggregator.SubsystemFault * string)) :
  forall (db : Db),
    wf_db db ->
    confirmed (default (new_state key b) (tracked db b key)) = false ->
    brief b key
      (present_streak (default (new_state key b) (tracked db b key)))
      cycles = true ->
    exists db' fireds,
      run_cycles fromisoformat db b cycles = Ok (db', fireds)
      /\ confirmed (default (new_state key b) (tracked db' b key)) = false
      /\ fired_for key (concat fireds) = []
      /\ events_for key (alert_events db')
         = events_for key (alert_events db).
Proof.
  induction cycles as [|[faults now] rest IH]; intros db Hwf Hc Hbrief.
  { exists db, []. repeat split; auto. }
  cbn [brief] in Hbrief. unfold seen in Hbrief. cbn [fst] in Hbrief.
  destruct (present_fault b faults key) as [fault|] eqn:Hp.
  - apply andb_true_iff in Hbrief as [Hlt Hbrief].
    apply Z.ltb_lt in Hlt.
    destruct (present_cycle fromisoformat db b faults now key fault Hwf Hp)
      as (db1 & fired1 & new & state1 & emitted & Hu & Hwf1 & Hev & Hs
          & Ht1 & He & Hf).
    apply present_step_spec in Hs as (_ & _ & Hps & _ & _ & _ & Hflags).
    destruct (Z.leb_spec CONFIRM_AFTER
                (present_streak (default (new_state key b)
                                   (tracked db b key)) + 1)); [lia|].
    cbn [andb] in Hflags. destruct Hflags as (Hc1 & _ & ->).
    rewrite <- Hps in Hbrief.
    destruct (IH db1 Hwf1) as (db' & fireds & Hrun & Hc' & Hfired & Hevents).
    { rewrite Ht1. cbn [default from_option id]. congruence. }
    { rewrite Ht1. exact Hbrief. }
    exists db', (fired1 :: fireds).
    split; [eapply run_cycles_cons; eassumption|].
    split; [exact Hc'|]. split.
    + rewrite fired_for_concat, Hf, Hfired. reflexivity.
    + rewrite Hevents, Hev, events_for_app, He. apply app_nil_r.
  - destruct (absent_cycle_any db b faults now key Hwf Hp)
      as (db1 & fired1 & new & Hu & Hwf1 & Hev & Ht1 & He & Hf).
    assert (Hstate : confirmed (default (new_state key b)
                                  (tracked db1 b key)) = false
                     /\ present_streak (default (new_state key b)
                                          (tracked db1 b key)) = 0%Z).
    { rewrite Ht1. destruct (tracked db b key) as [s|]; [|now split].
      cbn [fmap option_fmap option_map default from_option id] in *.
      destruct (absent_step_spec s) as (_ & _ & Hps & _ & _ & _ & Hflags).
      split; [|exact Hps].
      destruct (CLEAR_AFTER <=? absent_streak s + 1)%Z;
        destruct Hflags as [_ Hcs]; congruence. }
    destruct Hstate as [Hc1 Hps1].
    destruct (IH db1 Hwf1 Hc1) as (db' & fireds & Hrun & Hc' & Hfired
                                   & Hevents).
    { rewrite Hps1. exact Hbrief. }
    exists db', (fired1 :: fireds).
    split; [eapply run_cycles_cons; eassumption|].
    split; [exact Hc'|]. split.
    + rewrite fired_for_concat, Hf, Hfired. reflexivity.
    + rewrite Hevents, Hev, events_for_app, He. apply app_nil_r.
Qed.

End Engine.


(** *** Fault keys and buildings *)

(** Whether the character [c] occurs in [x]. *)
Fixpoint has_char (c : ascii) (x : string) : bool :=
  match x with
  | EmptyString => false
  | String a rest => Ascii.eqb a c || has_char c rest
  end.

(** Two strings without [c] that are both followed by [c] at the start of
    [k] are the same string. *)
Lemma prefix_sep (c : ascii) (x y k : string) :
  has_char c x = false -> has_char c y = false ->
  String.prefix (x +:+ String c "") k = true ->
  String.prefix (y +:+ String c "") k = true ->
  x = y.
Proof.
  revert y k. induction x as [|a x IH]; intros [|a' y] [|d k]; simpl;
    try discriminate; try reflexivity.
  - intros _ Hy. apply orb_false_iff in Hy as [Hy _].
    destruct (ascii_dec c d) as [<-|]; [|discriminate].
    destruct (ascii_dec a' c) as [->|]; [|discriminate].
    now rewrite Ascii.eqb_refl in Hy.
  - intros Hx _. apply orb_false_iff in Hx as [Hx _].
    destruct (ascii_dec a d) as [<-|]; [|discriminate].
    destruct (ascii_dec c a) as [->|]; [|discriminate].
    now rewrite Ascii.eqb_refl in Hx.
  - intros Hx Hy. apply orb_false_iff in Hx as [_ Hx].
    apply orb_false_iff in Hy as [_ Hy].
    destruct (ascii_dec a d) as [<-|]; [|discriminate].
    destruct (ascii_dec a' a) as [->|]; [|discriminate].
    intros H1 H2. f_equal. now apply (IH y k).
Qed.

Lemma string_of_uint_no_colon (d : Decimal.uint) :
  has_char ":" (NilEmpty.string_of_uint d) = false.
Proof. induction d; simpl; auto. Qed.

Lemma str_of_Z_no_colon (n : Z) : has_char ":" (str_of_Z n) = false.
Proof.
  unfold str_of_Z, NilZero.string_of_int, NilZero.string_of_uint.
  destruct (Z.to_int n) as [d|d]; destruct d; simpl;
    try reflexivity; apply string_of_uint_no_colon.
Qed.

Lemma str_of_Z_inj (m n : Z) : str_of_Z m = str_of_Z n -> m = n.
Proof.
  unfold str_of_Z. intros Heq.
  assert (Hnil : forall z, Z.to_int z <> Decimal.Pos Decimal.Nil
                           /\ Z.to_int z <> Decimal.Neg Decimal.Nil).
  { intros [|p|p]; simpl; split; try discriminate;
      intros [= H]; now apply DecimalPos.Unsigned.to_uint_nonnil in H. }
  apply DecimalZ.to_int_inj.
  assert (Hread : Some (Z.to_int m) = Some (Z.to_int n)).
  { rewrite <- (NilZero.isi (Z.to_int m)) by apply Hnil.
    rewrite <- (NilZero.isi (Z.to_int n)) by apply Hnil.
    now rewrite Heq. }
  now injection Hread.
Qed.

(** A key that starts with the prefix of two buildings: they are the same
    building. *)
Lemma key_building (b b' : Z) (key : string) :
  String.prefix (str_of_Z b +:+ ":") key = true ->
  String.prefix (str_of_Z b' +:+ ":") key = true ->
  b = b'.
Proof.
  intros H1 H2. apply str_of_Z_inj.
  apply (prefix_sep ":" _ _ key); auto using str_of_Z_no_colon.
Qed.

(** Every row is stored under its own key, and the key starts with the
    id of the row's building: the rows [update] writes. *)
Definition namespaced (db : Db) : Prop :=
  forall k state,
    alert_state db !! k = Some state ->
    fault_key state = k
    /\ String.prefix (str_of_Z (building_id state) +:+ ":") k = true.

Lemma namespaced_wf (db : Db) : namespaced db -> wf_db db.
Proof. intros Hns k state Hk. now apply Hns. Qed.

(** X30.  Buildings do not see each other: on a table whose rows [update]
    wrote (every row under a key that starts with its building id), a
    cycle of one building leaves the rows of every other building as they
    are, adds no row for another building, and keeps the table in that
    form. *)
Theorem buildings_are_isolated (fromisoformat : string -> option datetime)
    (db : Db) (b : Z)
    (subsystem_faults : list FaultAggregator.SubsystemFault) (now : string) :
  namespaced db ->
  exists db' fired,
    update fromisoformat db b subsystem_faults now = Ok (db', fired)
    /\ namespaced db'
    /\ forall k state,
         building_id state <> b ->
         alert_state db' !! k = Some state
         <-> alert_state db !! k = Some state.
Proof.
  intros Hns.
  destruct (update_key_spec fromisoformat db b subsystem_faults now
              (namespaced_wf db Hns))
    as (db' & fired & new & Hu & _ & Hwf' & Hkeys).
  exists db', fired. split; [exact Hu|].
  assert (Hrow : forall k state,
             alert_state db' !! k = Some state ->
             (building_id state = b
              /\ String.prefix (str_of_Z b +:+ ":") k = true)
             \/ (exists s, alert_state db !! k = Some s
                           /\ state = absent_row b s
                           /\ present_fault b subsystem_faults k = None)).
  { intros k state Hk. specialize (Hkeys k). unfold cycle_outcome in Hkeys.
    destruct (present_fault b subsystem_faults k) as [fault|] eqn:Hp.
    - left. destruct Hkeys as (state' & emitted & Hs & Hst & _).
      assert (state' = state) as -> by congruence.
      apply present_step_spec in Hs as (_ & -> & _).
      split; [apply tracked_building|].
      apply present_fault_source in Hp as (_ & _ & ->).
      apply fault_key_prefix.
    - right. destruct Hkeys as (Hst & _). rewrite Hk in Hst.
      destruct (alert_state db !! k) as [s|]; [|discriminate].
      injection Hst as ->. eauto. }
  assert (Habsent : forall s, building_id (absent_row b s) = building_id s).
  { intros s. unfold absent_row. destruct (building_id s =? b)%Z;
      [|reflexivity].
    now destruct (absent_step_spec s) as (_ & -> & _). }
  split.
  - intros k state Hk. split; [now apply Hwf'|].
    destruct (Hrow k state Hk) as [[-> Hpre]|(s & Hs & -> & _)];
      [exact Hpre|].
    rewrite Habsent. now apply Hns.
  - intros k state Hb. split.
    + intros Hk.
      destruct (Hrow k state Hk) as [[Hb' _]|(s & Hs & -> & _)];
        [contradiction|].
      rewrite Habsent in Hb. unfold absent_row.
      destruct (Z.eqb_spec (building_id s) b); [contradiction | exact Hs].
    + intros Hk. specialize (Hkeys k). unfold cycle_outcome in Hkeys.
      destruct (present_fault b subsystem_faults k) as [fault|] eqn:Hp.
      * exfalso. apply Hb.
        apply present_fault_source in Hp as (_ & _ & ->).
        destruct (Hns _ _ Hk) as [_ Hpre].
        apply (key_building _ _ _ Hpre), fault_key_prefix.
      * destruct Hkeys as (-> & _). rewrite Hk. simpl. f_equal.
        unfold absent_row.
        destruct (Z.eqb_spec (building_id state) b);
          [contradiction | reflexivity].
Qed.


(** *** The theorems above on the fixtures of the tests *)

(** The row of the tests' valve fault after its confirmation at 00:02. *)
Definition confirmed_row : AlertState :=
  {| fault_key := "1:valve:cmd_pos:VLV-01"; building_id := 1;
     present_streak := 3; absent_streak := 0; active := true;
     confirmed := true; last_alerted_at := "2025-01-01T00:02:00Z";
     last_seen_at := "2025-01-01T00:02:00Z" |}.

Definition confirmed_db : Db :=
  {| alert_state := {[ "1:valve:cmd_pos:VLV-01" := confirmed_row ]};
     alert_events := [] |}.

(** The same fault tracked for building 2. *)
Definition other_row : AlertState :=
  {| fault_key := "2:valve:cmd_pos:VLV-01"; building_id := 2;
     present_streak := 2; absent_streak := 0; active := true;
     confirmed := false; last_alerted_at := "";
     last_seen_at := "2025-01-01T00:01:00Z" |}.

Definition other_db : Db :=
  {| alert_state := {[ "2:valve:cmd_pos:VLV-01" := other_row ]};
     alert_events := [] |}.

(** The fault disappears for five cycles and comes back for three. *)
Definition flapping_confirmed
  : list (list FaultAggregator.SubsystemFault * string) :=
  absent_at (take 5 clear_times) ++ present_at within_cooldown_times.

(** The fault is seen twice, missed once and seen twice again. *)
Definition flapping_unconfirmed
  : list (list FaultAggregator.SubsystemFault * string) :=
  present_at (take 2 confirm_times) ++ absent_at (take 1 clear_times)
  ++ present_at (take 2 within_cooldown_times).

Lemma namespaced_confirmed_db : namespaced confirmed_db.
Proof.
  intros k state Hk. cbn [alert_state confirmed_db other_db] in Hk.
  apply lookup_singleton_Some in Hk as [<- <-].
  split; reflexivity.
Qed.

Lemma namespaced_other_db : namespaced other_db.
Proof.
  intros k state Hk. cbn [alert_state confirmed_db other_db] in Hk.
  apply lookup_singleton_Some in Hk as [<- <-].
  split; reflexivity.
Qed.

Lemma confirmed_row_ok : row_ok confirmed_row.
Proof.
  split; simpl; unfold CLEAR_AFTER, CONFIRM_AFTER; try lia; auto.
Qed.

Lemma tracked_confirmed_db :
  tracked confirmed_db 1 "1:valve:cmd_pos:VLV-01" = Some confirmed_row.
Proof.
  apply tracked_Some; [apply lookup_singleton_eq | reflexivity].
Qed.

Lemma only_root_causes_alert_witness :
  update test_fromisoformat confirmed_db 1 [_cascade_fault]
    "2025-01-01T00:03:00Z"
  = Ok ({| alert_state := absent_row 1 <$> alert_state confirmed_db;
           alert_events := [] |}, []).
Proof.
  apply (only_root_causes_alert test_fromisoformat confirmed_db 1
           [_cascade_fault] "2025-01-01T00:03:00Z").
  constructor; [discriminate | constructor].
Defined.

Lemma update_keeps_rows_consistent_witness :
  exists db' fired,
    update test_fromisoformat confirmed_db 1 [_root_fault]
      "2025-01-01T00:03:00Z" = Ok (db', fired)
    /\ wf_db db'
    /\ forall k state, alert_state db' !! k = Some state -> row_ok state.
Proof.
  apply (update_keeps_rows_consistent test_fromisoformat confirmed_db 1
           [_root_fault] "2025-01-01T00:03:00Z").
  - apply namespaced_wf, namespaced_confirmed_db.
  - intros k state Hk. cbn [alert_state confirmed_db] in Hk.
    apply lookup_singleton_Some in Hk as [_ <-].
    apply confirmed_row_ok.
Defined.

Lemma confirmed_fault_stays_quiet_witness :
  exists db' fireds state',
    run_cycles test_fromisoformat confirmed_db 1 flapping_confirmed
    = Ok (db', fireds)
    /\ tracked db' 1 "1:valve:cmd_pos:VLV-01" = Some state'
    /\ confirmed state' = true
    /\ last_alerted_at state' = "2025-01-01T00:02:00Z"
    /\ fired_for "1:valve:cmd_pos:VLV-01" (concat fireds) = []
    /\ events_for "1:valve:cmd_pos:VLV-01" (alert_events db') = [].
Proof.
  apply (confirmed_fault_stays_quiet test_fromisoformat 1
           "1:valve:cmd_pos:VLV-01" flapping_confirmed confirmed_db
           confirmed_row).
  - apply namespaced_wf, namespaced_confirmed_db.
  - exact tracked_confirmed_db.
  - reflexivity.
  - vm_compute. reflexivity.
Defined.

Lemma brief_sightings_never_alert_witness :
  exists db' fireds,
    run_cycles test_fromisoformat empty_db 1 flapping_unconfirmed
    = Ok (db', fireds)
    /\ confirmed (default (new_state "1:valve:cmd_pos:VLV-01" 1)
                    (tracked db' 1 "1:valve:cmd_pos:VLV-01")) = false
    /\ fired_for "1:valve:cmd_pos:VLV-01" (concat fireds) = []
    /\ events_for "1:valve:cmd_pos:VLV-01" (alert_events db') = [].
Proof.
  apply (brief_sightings_never_alert test_fromisoformat 1
           "1:valve:cmd_pos:VLV-01" flapping_unconfirmed empty_db).
  - exact wf_empty_db.
  - reflexivity.
  - vm_compute. reflexivity.
Defined.

Lemma buildings_are_isolated_witness :
  exists db' fired,
    update test_fromisoformat other_db 1 [_root_fault]
      "2025-01-01T00:02:00Z" = Ok (db', fired)
    /\ namespaced db'
    /\ forall k state,
         building_id state <> 1%Z ->
         alert_state db' !! k = Some state
         <-> alert_state other_db !! k = Some state.
Proof.
  apply (buildings_are_isolated test_fromisoformat other_db 1 [_root_fault]
           "2025-01-01T00:02:00Z").
  exact namespaced_other_db.
Defined.

End AlertFacts.
